(** * memfs: an in-memory file system served over FUSE

    A shallow embedding of [samples/memfs/memfs.go]: the inode table with
    its free list, the consistency check [checkInvariants], the two
    allocation helpers and the file-system methods, followed by the
    properties of the table, of the directory operations and of file
    contents.

    Conventions of the embedding.
    - A Go slice is a [list]; [s[i]] is stdpp's lookup [s !! i], and an
      index outside the slice is the run-time fault of Go, an outcome
      [Panic].
    - Every inode object is referenced by exactly one slot of [fs.inodes]
      (objects are created by [newInode] only, and stored at once), so the
      table is a [list (option inode)] and a method that mutates an inode
      through a pointer writes the slot the pointer came from.
    - [fs.mu] serialises the methods: a method is a function from the state
      before to the state after. Acquiring the lock of an inode that the
      same method already holds never returns: outcome [Blocked].
    - [fs.mu] is made with [checkInvariants] as its check, which the mutex
      runs when invariant checking is switched on. The check is a function
      of its own here; it is shown to pass in every state the methods
      reach.
    - [fs.clock.Now()] is the argument [now] of a method: the reading of
      the clock while the method runs. *)

From Stdlib Require Import ZArith Lia String.
From Stdlib.Strings Require Import Byte.
From stdpp Require Import base list strings gmap.

Local Open Scope Z_scope.

(** ** Outcomes of a call *)

(** A call returns normally, stops the process with a panic, or waits for
    ever on a lock. *)
Inductive outcome (A : Type) : Type :=
  | Done (a : A)
  | Panic (msg : string)
  | Blocked.
Arguments Done {A} a.
Arguments Panic {A} msg.
Arguments Blocked {A}.

#[global] Instance outcome_ret : MRet outcome := fun A a => Done a.
#[global] Instance outcome_bind : MBind outcome := fun A B k m =>
  match m with
  | Done a => k a
  | Panic msg => Panic msg
  | Blocked => Blocked
  end.

(** ** Plain data *)

(** [fuseops.InodeID] (an unsigned integer) is only ever an index into
    [fs.inodes]. *)
Abbreviation InodeID := nat (only parsing).

(** [time.Time] and [time.Duration], in nanoseconds; [0] is the zero
    [Time] of a freshly declared variable. *)
Abbreviation Time := Z (only parsing).
Abbreviation Duration := Z (only parsing).
Definition Hour : Duration := 3600 * 1000000000.
Definition zeroTime : Time := 0.

(** [os.FileMode]: a 32-bit set of flags. *)
Abbreviation FileMode := Z (only parsing).
Definition ModeDir : FileMode := Z.shiftl 1 31.
Definition ModeSymlink : FileMode := Z.shiftl 1 27.

(** The errors the methods return: the errno values of package [fuse] and
    [io.EOF]. A Go error that is [nil] is [None]. *)
Inductive error : Type := ENOENT | EEXIST | ENOTEMPTY | EOF.

#[global] Instance error_eq_dec : EqDecision error.
Proof. solve_decision. Defined.

(** [fuseutil.DirentType]. *)
Inductive DirentType : Type := DT_Unknown | DT_Directory | DT_File | DT_Link.

(** [fuseops.InodeAttributes]. *)
Record InodeAttributes : Type := mkAttrs {
  Size : nat;
  Nlink : Z;
  Mode : FileMode;
  Atime : Time;
  Mtime : Time;
  Ctime : Time;
  Crtime : Time;
  Uid : Z;
  Gid : Z
}.

(** The zero value of the struct, what a composite literal leaves in the
    fields it does not name. *)
Definition zeroAttrs : InodeAttributes := mkAttrs 0 0 0 0 0 0 0 0 0.

Definition withSize (a : InodeAttributes) (n : nat) : InodeAttributes :=
  mkAttrs n (Nlink a) (Mode a) (Atime a) (Mtime a) (Ctime a) (Crtime a)
          (Uid a) (Gid a).
Definition withNlink (a : InodeAttributes) (n : Z) : InodeAttributes :=
  mkAttrs (Size a) n (Mode a) (Atime a) (Mtime a) (Ctime a) (Crtime a)
          (Uid a) (Gid a).
Definition withMode (a : InodeAttributes) (m : FileMode) : InodeAttributes :=
  mkAttrs (Size a) (Nlink a) m (Atime a) (Mtime a) (Ctime a) (Crtime a)
          (Uid a) (Gid a).
Definition withMtime (a : InodeAttributes) (t : Time) : InodeAttributes :=
  mkAttrs (Size a) (Nlink a) (Mode a) (Atime a) t (Ctime a) (Crtime a)
          (Uid a) (Gid a).
Definition withCtime (a : InodeAttributes) (t : Time) : InodeAttributes :=
  mkAttrs (Size a) (Nlink a) (Mode a) (Atime a) (Mtime a) t (Crtime a)
          (Uid a) (Gid a).

(** ** Inodes

    The inode type and its methods live in a file of the package that is
    not at hand; they are modelled from the specification. *)

(** Modelled from the spec: the kind of an inode (section 3, "kind
    (Directory | File | Symlink)"). *)
Inductive Kind : Type := Directory | File | Symlink.

#[global] Instance Kind_eq_dec : EqDecision Kind.
Proof. solve_decision. Defined.

(** Modelled from the spec: a directory entry (section 3), "(name, child,
    type)". *)
Record Dirent : Type := mkDirent {
  dInode : InodeID;
  dName : string;
  dType : DirentType
}.

(** Modelled from the spec: the struct [inode] (section 3): a kind,
    attributes and the content of the kind. The fields [attrs] and
    [target] are the ones [memfs.go] reads and writes directly. *)
Record inode : Type := mkInode {
  kind : Kind;
  attrs : InodeAttributes;
  entries : list Dirent;
  contents : list byte;
  target : string
}.

Definition withAttrs (i : inode) (a : InodeAttributes) : inode :=
  mkInode (kind i) a (entries i) (contents i) (target i).
Definition withEntries (i : inode) (es : list Dirent) : inode :=
  mkInode (kind i) (attrs i) es (contents i) (target i).
Definition withContents (i : inode) (bs : list byte) : inode :=
  mkInode (kind i) (attrs i) (entries i) bs (target i).
Definition withTarget (i : inode) (t : string) : inode :=
  mkInode (kind i) (attrs i) (entries i) (contents i) t.

(** Modelled from the spec: the kind is read off the type bits of the mode
    ("mode bits including type") when the inode is created. *)
Definition kindOfMode (m : FileMode) : Kind :=
  if Z.testbit m 31 then Directory
  else if Z.testbit m 27 then Symlink
  else File.

(** Modelled from the spec: [newInode], "creates a new Inode with the given
    initial attributes" (section 4.1); its content is empty. *)
Definition newInode (now : Time) (a : InodeAttributes) : inode :=
  mkInode (kindOfMode (Mode a)) a [] [] "".

(** Modelled from the spec: the kind predicates of section 4.2. *)
Definition isDir (i : inode) : bool := bool_decide (kind i = Directory).
Definition isFile (i : inode) : bool := bool_decide (kind i = File).
Definition isSymlink (i : inode) : bool := bool_decide (kind i = Symlink).

(** *** Directory content (section 4.3) *)

(** Modelled from the spec: the entries are kept in insertion order; the
    lookup and the removal take the first entry of the name. *)
Fixpoint findChild (es : list Dirent) (name : string) : option InodeID :=
  match es with
  | [] => None
  | e :: rest =>
      if decide (dName e = name) then Some (dInode e) else findChild rest name
  end.

Fixpoint removeEntry (es : list Dirent) (name : string) : list Dirent :=
  match es with
  | [] => []
  | e :: rest =>
      if decide (dName e = name) then rest else e :: removeEntry rest name
  end.

(** Modelled from the spec: "directory operations on a file" are a fatal
    violation (section 7); every directory method starts with this check. *)
Definition requireDir {A : Type} (i : inode) (k : outcome A) : outcome A :=
  if isDir i then k else Panic "directory operation on a non-directory".

(** Modelled from the spec: [lookup(name)], "exact-match lookup". *)
Definition LookUpChild (i : inode) (name : string) : outcome (option InodeID) :=
  requireDir i (Done (findChild (entries i) name)).

(** Modelled from the spec: [add(id, name, type)], "appends an entry". *)
Definition AddChild (i : inode) (id : InodeID) (name : string)
    (dt : DirentType) : outcome inode :=
  requireDir i (Done (withEntries i (entries i ++ [mkDirent id name dt]))).

(** Modelled from the spec: [remove(name)], "deletes the entry" and
    touches nothing else. The entry deleted is the one [lookup] finds. *)
Definition RemoveChild (i : inode) (name : string) : outcome inode :=
  requireDir i (Done (withEntries i (removeEntry (entries i) name))).

(** Modelled from the spec: [len()], the "entry count". *)
Definition Len (i : inode) : outcome nat :=
  requireDir i (Done (length (entries i))).

(** *** File content (section 4.4) *)

Definition zeroByte : byte := x00.

(** Go's [copy(dst, src)]: overwrite the front of [dst]; the number of
    bytes copied is the shorter length. *)
Definition copy (dst src : list byte) : list byte * nat :=
  let n := Nat.min (length dst) (length src) in
  (take n src ++ drop n dst, n).

(** Modelled from the spec: [read_at(buffer, offset)], "copies the overlap
    between [offset, offset+len(buffer)) and [0, size) into buffer" and
    "signals an end-of-data condition when any part of the requested range
    lies at or beyond the current size". Returns the buffer, the count
    and the error. *)
Definition ReadAt (i : inode) (p : list byte) (off : nat)
    : outcome (list byte * nat * option error) :=
  if isFile i then
    let '(p', n) := copy p (drop off (contents i)) in
    Done (p', n,
          if decide (0 < length p ∧ length (contents i) < off + length p)%nat
          then Some EOF else None)
  else Panic "file operation on a non-file".

(** Modelled from the spec: [write_at(data, offset)], "always writes the
    full data length. If offset + len(data) exceeds current size, the
    buffer grows to that new size; any gap between the old size and offset
    that is not covered by data is filled with zero bytes". The size
    attribute follows the buffer. *)
Definition WriteAt (i : inode) (p : list byte) (off : nat)
    : outcome (inode * nat * option error) :=
  if isFile i then
    let newLen := (off + length p)%nat in
    let grown :=
      if decide (length (contents i) < newLen)%nat
      then contents i ++ replicate (newLen - length (contents i)) zeroByte
      else contents i in
    let i1 :=
      if decide (length (contents i) < newLen)%nat
      then withAttrs (withContents i grown) (withSize (attrs i) newLen)
      else i in
    let '(tail, n) := copy (drop off grown) p in
    Done (withContents i1 (take off grown ++ tail), n, None)
  else Panic "file operation on a non-file".

(** Modelled from the spec: [resize(new_size)], "truncates (discarding
    trailing bytes) or grows (zero-filling the new region) to exactly
    new_size". *)
Definition resize (bs : list byte) (n : nat) : list byte :=
  take n bs ++ replicate (n - length bs) zeroByte.

(** Modelled from the spec: [set_attributes(size?, mode?, mtime?)], which
    "updates only the fields provided, always refreshes ctime, and if size
    is provided on a File, forwards to the File Content resize". *)
Definition SetAttributes (now : Time) (i : inode) (size : option nat)
    (mode : option FileMode) (mtime : option Time) : inode :=
  let i1 :=
    match size with
    | Some n =>
        withAttrs
          (if isFile i then withContents i (resize (contents i) n) else i)
          (withSize (attrs i) n)
    | None => i
    end in
  let i2 :=
    match mode with
    | Some m => withAttrs i1 (withMode (attrs i1) m)
    | None => i1
    end in
  let i3 :=
    match mtime with
    | Some t => withAttrs i2 (withMtime (attrs i2) t)
    | None => i2
    end in
  withAttrs i3 (withCtime (attrs i3) now).

(** ** The file system *)

(** [memFS]: the table of inodes, [nil] for a vacant slot, and the IDs
    available for reuse. ([clock] is the argument [now] of the methods;
    [mu] is the serialisation of the methods.) *)
Record memFS : Type := mkMemFS {
  inodes : list (option inode);
  freeInodes : list InodeID
}.

(** [fs.inodes[id] = v], a fault outside the slice. *)
Definition setSlot (fs : memFS) (id : InodeID) (v : option inode)
    : outcome memFS :=
  if decide (id < length (inodes fs))%nat
  then Done (mkMemFS (<[id := v]> (inodes fs)) (freeInodes fs))
  else Panic "index out of range".

(** The write of an inode through the pointer taken from slot [id]. *)
Definition store (fs : memFS) (id : InodeID) (i : inode) : memFS :=
  mkMemFS (<[id := Some i]> (inodes fs)) (freeInodes fs).

(** The requests and responses of package [fuseops], with the fields the
    methods use. [opUid] and [opGid] are [op.Header().Uid] and
    [op.Header().Gid]. *)
Record ChildInodeEntry : Type := mkEntry {
  Child : InodeID;
  Attributes : InodeAttributes;
  AttributesExpiration : Time;
  EntryExpiration : Time
}.

Definition zeroEntry : ChildInodeEntry := mkEntry 0%nat zeroAttrs zeroTime zeroTime.

Definition withChild (e : ChildInodeEntry) (c : InodeID) : ChildInodeEntry :=
  mkEntry c (Attributes e) (AttributesExpiration e) (EntryExpiration e).
Definition withAttributes (e : ChildInodeEntry) (a : InodeAttributes)
    : ChildInodeEntry :=
  mkEntry (Child e) a (AttributesExpiration e) (EntryExpiration e).
Definition withAttributesExpiration (e : ChildInodeEntry) (t : Time)
    : ChildInodeEntry :=
  mkEntry (Child e) (Attributes e) t (EntryExpiration e).
Definition withEntryExpiration (e : ChildInodeEntry) (t : Time)
    : ChildInodeEntry :=
  mkEntry (Child e) (Attributes e) (AttributesExpiration e) t.

Record LookUpInodeOp : Type := mkLookUpInodeOp {
  luParent : InodeID;
  luName : string;
  luEntry : ChildInodeEntry
}.

Record GetInodeAttributesOp : Type := mkGetInodeAttributesOp {
  gaInode : InodeID;
  gaAttributes : InodeAttributes;
  gaAttributesExpiration : Time
}.

Record SetInodeAttributesOp : Type := mkSetInodeAttributesOp {
  saInode : InodeID;
  saSize : option nat;
  saMode : option FileMode;
  saMtime : option Time;
  saAttributes : InodeAttributes;
  saAttributesExpiration : Time
}.

Record MkDirOp : Type := mkMkDirOp {
  mdParent : InodeID;
  mdName : string;
  mdMode : FileMode;
  mdUid : Z;
  mdGid : Z;
  mdEntry : ChildInodeEntry
}.

Record CreateFileOp : Type := mkCreateFileOp {
  cfParent : InodeID;
  cfName : string;
  cfMode : FileMode;
  cfUid : Z;
  cfGid : Z;
  cfEntry : ChildInodeEntry
}.

Record CreateSymlinkOp : Type := mkCreateSymlinkOp {
  csParent : InodeID;
  csName : string;
  csTarget : string;
  csUid : Z;
  csGid : Z;
  csEntry : ChildInodeEntry
}.

Record RmDirOp : Type := mkRmDirOp {
  rdParent : InodeID;
  rdName : string
}.

Record UnlinkOp : Type := mkUnlinkOp {
  ulParent : InodeID;
  ulName : string
}.

(** The offsets and sizes of the requests are lengths: they are never
    negative. *)
Record ReadFileOp : Type := mkReadFileOp {
  rfInode : InodeID;
  rfOffset : nat;
  rfSize : nat;
  rfData : list byte
}.

Record WriteFileOp : Type := mkWriteFileOp {
  wfInode : InodeID;
  wfOffset : nat;
  wfData : list byte
}.

Record ReadSymlinkOp : Type := mkReadSymlinkOp {
  rsInode : InodeID;
  rsTarget : string
}.

(** [365 * 24 * time.Hour]. *)
Definition cacheFor : Duration := 365 * 24 * Hour.

(** The decrement of an unsigned field of [bits] bits. *)
Definition decrement (bits : Z) (n : Z) : Z := (n - 1) mod 2 ^ bits.

Section MemFS.

(** [fuseops.RootInodeID] and the width of the field [Nlink] of
    [fuseops.InodeAttributes] are declared outside [memfs.go]; the
    development holds for every value of them. *)
Variable RootInodeID : InodeID.
Variable NlinkBits : Z.

(** [NewMemFS]: a table of [RootInodeID + 1] vacant slots, then the root
    in its slot. The literal names [Mode], [Uid] and [Gid] only. *)
Definition NewMemFS (uid gid : Z) (now : Time) : memFS :=
  let fs := mkMemFS (replicate (RootInodeID + 1) None) [] in
  let rootAttrs :=
    mkAttrs 0 0 (Z.lor 448 (* 0700 *) ModeDir) zeroTime zeroTime zeroTime
            zeroTime uid gid in
  store fs RootInodeID (newInode now rootAttrs).

(** *** [checkInvariants] *)

(** The first loop, over the IDs below [RootInodeID]. *)
Fixpoint checkReserved (tbl : list (option inode)) (ids : list nat)
    : outcome unit :=
  match ids with
  | [] => Done tt
  | i :: rest =>
      match tbl !! i with
      | None => Panic "index out of range"
      | Some (Some _) => Panic "Non-nil inode for ID"
      | Some None => checkReserved tbl rest
      end
  end.

(** The second loop: the set [freeIDsEncountered] of the vacant slots
    above the root. *)
Definition freeIDsEncountered (tbl : list (option inode)) : gset InodeID :=
  foldl (fun seen i =>
           match tbl !! i with
           | Some None => {[ i ]} ∪ seen
           | _ => seen
           end)
        ∅ (seq (RootInodeID + 1) (length tbl - (RootInodeID + 1))).

(** The last loop, over [fs.freeInodes]. *)
Fixpoint checkFree (seen : gset InodeID) (ids : list InodeID)
    : outcome unit :=
  match ids with
  | [] => Done tt
  | id :: rest =>
      if decide (id ∈ seen) then checkFree seen rest
      else Panic "Unexected free inode ID"
  end.

Definition checkInvariants (fs : memFS) : outcome unit :=
  checkReserved (inodes fs) (seq 0 RootInodeID);;
  root ← match inodes fs !! RootInodeID with
         | None => Panic "index out of range"
         | Some None => Panic "nil pointer dereference"
         | Some (Some r) => Done r
         end;
  if negb (isDir root) then Panic "Expected root to be a directory."
  else
    let seen := freeIDsEncountered (inodes fs) in
    if decide (length (freeInodes fs) ≠ size seen)
    then Panic "Length mismatch"
    else checkFree seen (freeInodes fs).

(** *** Helpers *)

(** [getInodeForModifyingOrDie] and [getInodeForReadingOrDie]: the inode
    at [id], with its lock taken. [held] lists the inodes whose lock the
    running method holds already. *)
Definition getInodeForModifyingOrDie (held : list InodeID) (fs : memFS)
    (id : InodeID) : outcome inode :=
  match inodes fs !! id with
  | None => Panic "index out of range"
  | Some None => Panic "Unknown inode"
  | Some (Some i) => if decide (id ∈ held) then Blocked else Done i
  end.

Definition getInodeForReadingOrDie (held : list InodeID) (fs : memFS)
    (id : InodeID) : outcome inode :=
  match inodes fs !! id with
  | None => Panic "index out of range"
  | Some None => Panic "Unknown inode"
  | Some (Some i) => if decide (id ∈ held) then Blocked else Done i
  end.

(** [allocateInode]: the last ID of the free list if there is one, a new
    slot at the end of the table otherwise. *)
Definition allocateInode (now : Time) (fs : memFS) (a : InodeAttributes)
    : outcome (InodeID * inode * memFS) :=
  let inode := newInode now a in
  let numFree := length (freeInodes fs) in
  if decide (numFree ≠ 0%nat) then
    match freeInodes fs !! (numFree - 1)%nat with
    | None => Panic "index out of range"
    | Some id =>
        fs' ← setSlot (mkMemFS (inodes fs)
                               (take (numFree - 1) (freeInodes fs)))
                      id (Some inode);
        Done (id, inode, fs')
    end
  else
    Done (length (inodes fs), inode,
          mkMemFS (inodes fs ++ [Some inode]) (freeInodes fs)).

(** [deallocateInode]: the ID goes to the end of the free list and the
    slot is emptied. *)
Definition deallocateInode (fs : memFS) (id : InodeID) : outcome memFS :=
  setSlot (mkMemFS (inodes fs) (freeInodes fs ++ [id])) id None.

(** The write of the parent after an allocation. Were the new inode put
    in the slot of the parent (an ID wrongly on the free list), the parent
    would be out of the table and the write would be lost. *)
Definition storeParent (fs : memFS) (parentID childID : InodeID)
    (parent : inode) : memFS :=
  if decide (childID = parentID) then fs else store fs parentID parent.

(** The common end of the creating methods: the response entry. The last
    assignment is the one of the source, [op.Entry.EntryExpiration =
    op.Entry.EntryExpiration]. *)
Definition fillEntry (now : Time) (e : ChildInodeEntry) (childID : InodeID)
    (child : inode) : ChildInodeEntry :=
  let e1 := withChild e childID in
  let e2 := withAttributes e1 (attrs child) in
  let e3 := withAttributesExpiration e2 (now + cacheFor) in
  withEntryExpiration e3 (EntryExpiration e3).

(** *** The methods of the file system *)

Definition Init (fs : memFS) : outcome (memFS * option error) :=
  Done (fs, None).

Definition LookUpInode (now : Time) (fs : memFS) (op : LookUpInodeOp)
    : outcome (memFS * LookUpInodeOp * option error) :=
  inode ← getInodeForReadingOrDie [] fs (luParent op);
  found ← LookUpChild inode (luName op);
  match found with
  | None => Done (fs, op, Some ENOENT)
  | Some childID =>
      child ← getInodeForReadingOrDie [luParent op] fs childID;
      Done (fs,
            mkLookUpInodeOp (luParent op) (luName op)
                            (fillEntry now (luEntry op) childID child),
            None)
  end.

Definition GetInodeAttributes (now : Time) (fs : memFS)
    (op : GetInodeAttributesOp)
    : outcome (memFS * GetInodeAttributesOp * option error) :=
  inode ← getInodeForReadingOrDie [] fs (gaInode op);
  Done (fs, mkGetInodeAttributesOp (gaInode op) (attrs inode)
                                   (now + cacheFor), None).

Definition SetInodeAttributes (now : Time) (fs : memFS)
    (op : SetInodeAttributesOp)
    : outcome (memFS * SetInodeAttributesOp * option error) :=
  inode ← getInodeForModifyingOrDie [] fs (saInode op);
  let inode' := SetAttributes now inode (saSize op) (saMode op) (saMtime op) in
  Done (store fs (saInode op) inode',
        mkSetInodeAttributesOp (saInode op) (saSize op) (saMode op)
                               (saMtime op) (attrs inode') (now + cacheFor),
        None).

Definition MkDir (now : Time) (fs : memFS) (op : MkDirOp)
    : outcome (memFS * MkDirOp * option error) :=
  parent ← getInodeForModifyingOrDie [] fs (mdParent op);
  let childAttrs :=
    mkAttrs 0 1 (mdMode op) zeroTime zeroTime zeroTime zeroTime
            (mdUid op) (mdGid op) in
  '(childID, child, fs1) ← allocateInode now fs childAttrs;
  parent' ← AddChild parent childID (mdName op) DT_Directory;
  Done (storeParent fs1 (mdParent op) childID parent',
        mkMkDirOp (mdParent op) (mdName op) (mdMode op) (mdUid op) (mdGid op)
                  (fillEntry now (mdEntry op) childID child),
        None).

Definition CreateFile (now : Time) (fs : memFS) (op : CreateFileOp)
    : outcome (memFS * CreateFileOp * option error) :=
  parent ← getInodeForModifyingOrDie [] fs (cfParent op);
  found ← LookUpChild parent (cfName op);
  match found with
  | Some _ => Done (fs, op, Some EEXIST)
  | None =>
      let childAttrs :=
        mkAttrs 0 1 (cfMode op) now now now now (cfUid op) (cfGid op) in
      '(childID, child, fs1) ← allocateInode now fs childAttrs;
      parent' ← AddChild parent childID (cfName op) DT_File;
      Done (storeParent fs1 (cfParent op) childID parent',
            mkCreateFileOp (cfParent op) (cfName op) (cfMode op) (cfUid op)
                           (cfGid op)
                           (fillEntry now (cfEntry op) childID child),
            None)
  end.

Definition CreateSymlink (now : Time) (fs : memFS) (op : CreateSymlinkOp)
    : outcome (memFS * CreateSymlinkOp * option error) :=
  parent ← getInodeForModifyingOrDie [] fs (csParent op);
  let childAttrs :=
    mkAttrs 0 1 (Z.lor 292 (* 0444 *) ModeSymlink) now now now now
            (csUid op) (csGid op) in
  '(childID, child0, fs1) ← allocateInode now fs childAttrs;
  let child := withTarget child0 (csTarget op) in
  let fs2 := store fs1 childID child in
  parent' ← AddChild parent childID (csName op) DT_Link;
  Done (storeParent fs2 (csParent op) childID parent',
        mkCreateSymlinkOp (csParent op) (csName op) (csTarget op) (csUid op)
                          (csGid op)
                          (fillEntry now (csEntry op) childID child),
        None).

(** [child.attrs.Nlink--]. *)
Definition unlinked (child : inode) : inode :=
  withAttrs child
            (withNlink (attrs child) (decrement NlinkBits (Nlink (attrs child)))).

Definition RmDir (now : Time) (fs : memFS) (op : RmDirOp)
    : outcome (memFS * RmDirOp * option error) :=
  parent ← getInodeForModifyingOrDie [] fs (rdParent op);
  found ← LookUpChild parent (rdName op);
  match found with
  | None => Done (fs, op, Some ENOENT)
  | Some childID =>
      child ← getInodeForModifyingOrDie [rdParent op] fs childID;
      n ← Len child;
      if decide (n ≠ 0%nat) then Done (fs, op, Some ENOTEMPTY)
      else
        parent' ← RemoveChild parent (rdName op);
        let fs1 := store fs (rdParent op) parent' in
        Done (store fs1 childID (unlinked child), op, None)
  end.

Definition Unlink (now : Time) (fs : memFS) (op : UnlinkOp)
    : outcome (memFS * UnlinkOp * option error) :=
  parent ← getInodeForModifyingOrDie [] fs (ulParent op);
  found ← LookUpChild parent (ulName op);
  match found with
  | None => Done (fs, op, Some ENOENT)
  | Some childID =>
      child ← getInodeForModifyingOrDie [ulParent op] fs childID;
      parent' ← RemoveChild parent (ulName op);
      let fs1 := store fs (ulParent op) parent' in
      Done (store fs1 childID (unlinked child), op, None)
  end.

Definition OpenDir (fs : memFS) (id : InodeID)
    : outcome (memFS * option error) :=
  inode ← getInodeForReadingOrDie [] fs id;
  if negb (isDir inode) then Panic "Found non-dir." else Done (fs, None).

Definition OpenFile (fs : memFS) (id : InodeID)
    : outcome (memFS * option error) :=
  inode ← getInodeForReadingOrDie [] fs id;
  if negb (isFile inode) then Panic "Found non-file." else Done (fs, None).

Definition ReadFile (now : Time) (fs : memFS) (op : ReadFileOp)
    : outcome (memFS * ReadFileOp * option error) :=
  inode ← getInodeForReadingOrDie [] fs (rfInode op);
  let data := replicate (rfSize op) zeroByte in
  '(data', n, err) ← ReadAt inode data (rfOffset op);
  Done (fs,
        mkReadFileOp (rfInode op) (rfOffset op) (rfSize op) (take n data'),
        if decide (err = Some EOF) then None else err).

Definition WriteFile (now : Time) (fs : memFS) (op : WriteFileOp)
    : outcome (memFS * WriteFileOp * option error) :=
  inode ← getInodeForModifyingOrDie [] fs (wfInode op);
  '(inode', _, err) ← WriteAt inode (wfData op) (wfOffset op);
  Done (store fs (wfInode op) inode', op, err).

Definition ReadSymlink (fs : memFS) (op : ReadSymlinkOp)
    : outcome (memFS * ReadSymlinkOp * option error) :=
  inode ← getInodeForReadingOrDie [] fs (rsInode op);
  Done (fs, mkReadSymlinkOp (rsInode op) (target inode), None).

(** [fuseutil.WriteDirent], the serialisation of an entry, is declared
    outside the package. *)
Variable WriteDirent : Dirent -> list byte.

(** Modelled from the spec: [list(start_offset, size_budget)], which
    "produces entries starting at start_offset (an index into insertion
    order) up to a caller-provided byte budget". *)
Fixpoint listEntries (es : list Dirent) (budget : nat) : list byte :=
  match es with
  | [] => []
  | e :: rest =>
      let b := WriteDirent e in
      if decide (length b ≤ budget)%nat
      then b ++ listEntries rest (budget - length b)
      else []
  end.

(** Modelled from the spec: the listing is a directory operation. *)
Definition ReadDirContent (i : inode) (offset size : nat)
    : outcome (list byte * option error) :=
  requireDir i (Done (listEntries (drop offset (entries i)) size, None)).

Record ReadDirOp : Type := mkReadDirOp {
  rdiInode : InodeID;
  rdiOffset : nat;
  rdiSize : nat;
  rdiData : list byte
}.

Definition ReadDir (now : Time) (fs : memFS) (op : ReadDirOp)
    : outcome (memFS * ReadDirOp * option error) :=
  inode ← getInodeForReadingOrDie [] fs (rdiInode op);
  '(data, err) ← ReadDirContent inode (rdiOffset op) (rdiSize op);
  Done (fs, mkReadDirOp (rdiInode op) (rdiOffset op) (rdiSize op) data, err).

(** *** The server: one call after the other *)

Inductive call : Type :=
  | CallInit
  | CallLookUpInode (op : LookUpInodeOp)
  | CallGetInodeAttributes (op : GetInodeAttributesOp)
  | CallSetInodeAttributes (op : SetInodeAttributesOp)
  | CallMkDir (op : MkDirOp)
  | CallCreateFile (op : CreateFileOp)
  | CallCreateSymlink (op : CreateSymlinkOp)
  | CallRmDir (op : RmDirOp)
  | CallUnlink (op : UnlinkOp)
  | CallOpenDir (id : InodeID)
  | CallReadDir (op : ReadDirOp)
  | CallOpenFile (id : InodeID)
  | CallReadFile (op : ReadFileOp)
  | CallWriteFile (op : WriteFileOp)
  | CallReadSymlink (op : ReadSymlinkOp).

(** A call with the response written in it, and the error it responds. *)
Definition exec (now : Time) (fs : memFS) (c : call)
    : outcome (memFS * call * option error) :=
  match c with
  | CallInit =>
      '(fs', err) ← Init fs; Done (fs', CallInit, err)
  | CallLookUpInode op =>
      '(fs', op', err) ← LookUpInode now fs op;
      Done (fs', CallLookUpInode op', err)
  | CallGetInodeAttributes op =>
      '(fs', op', err) ← GetInodeAttributes now fs op;
      Done (fs', CallGetInodeAttributes op', err)
  | CallSetInodeAttributes op =>
      '(fs', op', err) ← SetInodeAttributes now fs op;
      Done (fs', CallSetInodeAttributes op', err)
  | CallMkDir op =>
      '(fs', op', err) ← MkDir now fs op; Done (fs', CallMkDir op', err)
  | CallCreateFile op =>
      '(fs', op', err) ← CreateFile now fs op;
      Done (fs', CallCreateFile op', err)
  | CallCreateSymlink op =>
      '(fs', op', err) ← CreateSymlink now fs op;
      Done (fs', CallCreateSymlink op', err)
  | CallRmDir op =>
      '(fs', op', err) ← RmDir now fs op; Done (fs', CallRmDir op', err)
  | CallUnlink op =>
      '(fs', op', err) ← Unlink now fs op; Done (fs', CallUnlink op', err)
  | CallOpenDir id =>
      '(fs', err) ← OpenDir fs id; Done (fs', CallOpenDir id, err)
  | CallReadDir op =>
      '(fs', op', err) ← ReadDir now fs op; Done (fs', CallReadDir op', err)
  | CallOpenFile id =>
      '(fs', err) ← OpenFile fs id; Done (fs', CallOpenFile id, err)
  | CallReadFile op =>
      '(fs', op', err) ← ReadFile now fs op;
      Done (fs', CallReadFile op', err)
  | CallWriteFile op =>
      '(fs', op', err) ← WriteFile now fs op;
      Done (fs', CallWriteFile op', err)
  | CallReadSymlink op =>
      '(fs', op', err) ← ReadSymlink fs op;
      Done (fs', CallReadSymlink op', err)
  end.

(** The states the server goes through: the one of [NewMemFS], and the
    state after a call that returned. No method calls [deallocateInode],
    so the free list of these states is empty. *)
Inductive served : memFS -> Prop :=
  | served_new uid gid now : served (NewMemFS uid gid now)
  | served_call fs now c fs' c' err :
      served fs -> exec now fs c = Done (fs', c', err) -> served fs'.

(** A sequence of calls, each with the reading of the clock during it;
    the responses are dropped. *)
Fixpoint serve (fs : memFS) (cs : list (Time * call)) : outcome memFS :=
  match cs with
  | [] => Done fs
  | (now, c) :: rest => '(fs', _, _) ← exec now fs c; serve fs' rest
  end.

(** Calls of the two table helpers, in any order and on any ID. *)
Inductive tableCall : Type :=
  | Allocate (now : Time) (a : InodeAttributes)
  | Deallocate (id : InodeID).

Definition tableStep (fs : memFS) (c : tableCall) : outcome memFS :=
  match c with
  | Allocate now a => '(_, _, fs') ← allocateInode now fs a; Done fs'
  | Deallocate id => deallocateInode fs id
  end.

Fixpoint tableRun (fs : memFS) (cs : list tableCall) : outcome memFS :=
  match cs with
  | [] => Done fs
  | c :: rest => fs' ← tableStep fs c; tableRun fs' rest
  end.

(** The states reached by the methods together with the two helpers, when
    [deallocateInode] is given the ID of an occupied slot above the root. *)
Inductive reachable : memFS -> Prop :=
  | reach_new uid gid now : reachable (NewMemFS uid gid now)
  | reach_call fs now c fs' c' err :
      reachable fs -> exec now fs c = Done (fs', c', err) -> reachable fs'
  | reach_allocate fs now a id i fs' :
      reachable fs -> allocateInode now fs a = Done (id, i, fs') ->
      reachable fs'
  | reach_deallocate fs id i fs' :
      reachable fs -> (RootInodeID < id)%nat ->
      inodes fs !! id = Some (Some i) ->
      deallocateInode fs id = Done fs' -> reachable fs'.

(** ** The invariants of the table *)

(** The four INVARIANT comments of [inodes] and the one of [freeInodes]:
    "all and only indices i of 'inodes' such that i > fuseops.RootInodeID
    and inodes[i] == nil", each index once. *)
Record Invariants (fs : memFS) : Prop := mkInvariants {
  inv_length : (RootInodeID < length (inodes fs))%nat;
  inv_reserved :
    forall i, (i < RootInodeID)%nat -> inodes fs !! i = Some None;
  inv_root :
    exists r, inodes fs !! RootInodeID = Some (Some r) /\ isDir r = true;
  inv_free :
    forall i, i ∈ freeInodes fs <->
              (RootInodeID < i)%nat /\ inodes fs !! i = Some None;
  inv_free_nodup : NoDup (freeInodes fs)
}.

(** The IDs a slot refers to, and all of them along the table. *)
Definition childrenOf (o : option inode) : list InodeID :=
  match o with
  | Some i => dInode <$> entries i
  | None => []
  end.

Definition allChildren (tbl : list (option inode)) : list InodeID :=
  concat (childrenOf <$> tbl).

(** What holds of the entries in the states of the server: no slot is
    free for reuse, no inode is referred to twice, and an entry refers to
    another, live inode whose link count is one. *)
Record Linked (fs : memFS) : Prop := mkLinked {
  lk_free : freeInodes fs = [];
  lk_nodup : NoDup (allChildren (inodes fs));
  lk_child :
    forall p d e,
      inodes fs !! p = Some (Some d) -> e ∈ entries d ->
      dInode e ≠ p /\
      exists ch, inodes fs !! dInode e = Some (Some ch) /\
                 Nlink (attrs ch) = 1
}.


(** The four ways in which a method changes the state: not at all; an
    inode rewritten in its slot, with its kind, entries and link count; a
    new inode with its entry in the parent; an entry removed and its
    inode unlinked. *)
Inductive moves (fs : memFS) : memFS -> Prop :=
  | moves_none : moves fs fs
  | moves_update id i i' :
      inodes fs !! id = Some (Some i) ->
      kind i' = kind i -> entries i' = entries i ->
      Nlink (attrs i') = Nlink (attrs i) ->
      moves fs (store fs id i')
  | moves_create now a p parent id child fs1 name dt t :
      inodes fs !! p = Some (Some parent) -> Nlink a = 1 ->
      allocateInode now fs a = Done (id, child, fs1) ->
      moves fs (storeParent (store fs1 id (withTarget child t)) p id
                  (withEntries parent
                     (entries parent ++ [mkDirent id name dt])))
  | moves_remove p parent name c child :
      inodes fs !! p = Some (Some parent) ->
      findChild (entries parent) name = Some c -> c ≠ p ->
      inodes fs !! c = Some (Some child) ->
      moves fs (store (store fs p
                         (withEntries parent
                            (removeEntry (entries parent) name)))
                      c (unlinked child)).

(** A table whose free list names one vacant slot twice and the other
    not at all. *)
Definition twiceFree (root : inode) : memFS :=
  mkMemFS (replicate RootInodeID None ++ [Some root; None; None])
          [S RootInodeID; S RootInodeID].

(** ** Example states, with the root at ID 1 *)

(** The root of [NewMemFS 0 0], a directory made by [MkDir] with mode
    0755, and a file made by [CreateFile] at time 1 with mode 0644 and
    later written. *)
Definition exRoot (es : list Dirent) : inode :=
  mkInode Directory (mkAttrs 0 0 (Z.lor 448 ModeDir) 0 0 0 0 0 0) es [] "".
Definition exDir (es : list Dirent) : inode :=
  mkInode Directory (mkAttrs 0 1 (Z.lor 493 ModeDir) 0 0 0 0 0 0) es [] "".
Definition exFile (bs : list byte) : inode :=
  mkInode File (mkAttrs (length bs) 1 420 1 1 1 1 0 0) [] bs "".

Definition exMkDirOp (parent : InodeID) (name : string) : MkDirOp :=
  mkMkDirOp parent name (Z.lor 493 ModeDir) 0 0 zeroEntry.
Definition exCreateFileOp (name : string) : CreateFileOp :=
  mkCreateFileOp 1 name 420 0 0 zeroEntry.
Definition exCreateSymlinkOp (name : string) : CreateSymlinkOp :=
  mkCreateSymlinkOp 1 name "t" 0 0 zeroEntry.

(** The state of [NewMemFS]; the state after [MkDir] of "a" in the root;
    after a second [MkDir] of "a"; after [MkDir] of "b" in "a"; and a
    root with the file "f" holding "taco". *)
Definition exNew : memFS := mkMemFS [None; Some (exRoot [])] [].
Definition exOneDir : memFS :=
  mkMemFS [None; Some (exRoot [mkDirent 2 "a" DT_Directory]);
           Some (exDir [])] [].
Definition exTwoDirs : memFS :=
  mkMemFS [None;
           Some (exRoot [mkDirent 2 "a" DT_Directory;
                         mkDirent 3 "a" DT_Directory]);
           Some (exDir []); Some (exDir [])] [].
Definition exNested : memFS :=
  mkMemFS [None; Some (exRoot [mkDirent 2 "a" DT_Directory]);
           Some (exDir [mkDirent 3 "b" DT_Directory]); Some (exDir [])] [].
Definition exTaco : memFS :=
  mkMemFS [None; Some (exRoot [mkDirent 2 "f" DT_File]);
           Some (exFile (list_byte_of_string "taco"))] [].

(** The file "f", new and then truncated to 4 bytes at time 2. *)
Definition exTruncated : memFS :=
  mkMemFS [None; Some (exRoot [mkDirent 2 "f" DT_File]);
           Some (mkInode File (mkAttrs 4 1 420 1 1 2 1 0 0) []
                         (replicate 4 zeroByte) "")] [].

(** ** The states of any run *)

(** The states reached from [NewMemFS] by the methods and by the two
    helpers, [deallocateInode] on any ID for which it returns. *)
Inductive anyrun : memFS -> Prop :=
  | any_new uid gid now : anyrun (NewMemFS uid gid now)
  | any_call fs now c fs' c' err :
      anyrun fs -> exec now fs c = Done (fs', c', err) -> anyrun fs'
  | any_allocate fs now a id i fs' :
      anyrun fs -> allocateInode now fs a = Done (id, i, fs') -> anyrun fs'
  | any_deallocate fs id fs' :
      anyrun fs -> deallocateInode fs id = Done fs' -> anyrun fs'.

(** Every vacant slot above the root is on the free list. *)
Definition Covered (fs : memFS) : Prop :=
  forall i, (RootInodeID < i)%nat -> inodes fs !! i = Some None ->
            i ∈ freeInodes fs.

(** ** Vocabulary of the further properties *)

(** The inode a method resolves first, with [getInodeForReadingOrDie] or
    [getInodeForModifyingOrDie]; [Init] resolves none. *)
Definition firstInode (c : call) : option InodeID :=
  match c with
  | CallInit => None
  | CallLookUpInode op => Some (luParent op)
  | CallGetInodeAttributes op => Some (gaInode op)
  | CallSetInodeAttributes op => Some (saInode op)
  | CallMkDir op => Some (mdParent op)
  | CallCreateFile op => Some (cfParent op)
  | CallCreateSymlink op => Some (csParent op)
  | CallRmDir op => Some (rdParent op)
  | CallUnlink op => Some (ulParent op)
  | CallOpenDir id => Some id
  | CallReadDir op => Some (rdiInode op)
  | CallOpenFile id => Some id
  | CallReadFile op => Some (rfInode op)
  | CallWriteFile op => Some (wfInode op)
  | CallReadSymlink op => Some (rsInode op)
  end.

(** The methods whose body assigns to no inode and calls neither
    [allocateInode] nor a mutating method of an inode. *)
Definition readOnly (c : call) : bool :=
  match c with
  | CallInit | CallLookUpInode _ | CallGetInodeAttributes _ | CallOpenDir _
  | CallReadDir _ | CallOpenFile _ | CallReadFile _ | CallReadSymlink _ => true
  | _ => false
  end.

(** A run of [allocateInode], one call for each request, with the IDs it
    returns in the order of the calls. *)
Fixpoint allocateAll (fs : memFS) (reqs : list (Time * InodeAttributes))
    : outcome (list InodeID * memFS) :=
  match reqs with
  | [] => Done ([], fs)
  | (now, a) :: rest =>
      '(id, _, fs1) ← allocateInode now fs a;
      '(ids, fs2) ← allocateAll fs1 rest;
      Done (id :: ids, fs2)
  end.

(** The link counts against the entries: an ID that an entry refers to is
    above the root, and an inode that no entry refers to has a link count
    of zero. *)
Record Counted (fs : memFS) : Prop := mkCounted {
  ct_above :
    forall c, c ∈ allChildren (inodes fs) -> (RootInodeID < c)%nat;
  ct_zero :
    forall c ch, inodes fs !! c = Some (Some ch) ->
                 c ∉ allChildren (inodes fs) -> Nlink (attrs ch) = 0
}.

(** The root with the file "f", new and empty, made at time 1. *)
Definition exCreated : memFS :=
  mkMemFS [None; Some (exRoot [mkDirent 2 "f" DT_File]); Some (exFile [])] [].

(** * Properties *)

(** ** Outcomes *)

Lemma bind_Done {A B : Type} (m : outcome A) (k : A -> outcome B) (b : B) :
  m ≫= k = Done b <-> exists a, m = Done a /\ k a = Done b.
Proof.
  destruct m as [a | msg | ]; simpl; split.
  - intros H. exists a. split; [reflexivity | exact H].
  - intros (a' & Ha & Hk). injection Ha as ->. exact Hk.
  - discriminate.
  - intros (a' & Ha & _). discriminate.
  - discriminate.
  - intros (a' & Ha & _). discriminate.
Qed.

(** ** The consistency check *)

Lemma checkReserved_Done (tbl : list (option inode)) (ids : list nat) :
  checkReserved tbl ids = Done tt <->
  forall i, i ∈ ids -> tbl !! i = Some None.
Proof.
  induction ids as [| i rest IH]; simpl.
  - split; [intros _ i Hi; inversion Hi | reflexivity].
  - destruct (tbl !! i) as [[x |] |] eqn:Hi.
    + split; [discriminate |].
      intros H. specialize (H i (list_elem_of_here _ _)). congruence.
    + rewrite IH. split.
      * intros H j Hj. apply elem_of_cons in Hj as [-> | Hj]; auto.
      * intros H j Hj. apply H. now apply list_elem_of_further.
    + split; [discriminate |].
      intros H. specialize (H i (list_elem_of_here _ _)). congruence.
Qed.

Lemma checkFree_Done (seen : gset InodeID) (ids : list InodeID) :
  checkFree seen ids = Done tt <-> forall id, id ∈ ids -> id ∈ seen.
Proof.
  induction ids as [| id rest IH]; simpl.
  - split; [intros _ i Hi; inversion Hi | reflexivity].
  - case_decide as Hid.
    + rewrite IH. split.
      * intros H j Hj. apply elem_of_cons in Hj as [-> | Hj]; auto.
      * intros H j Hj. apply H. now apply list_elem_of_further.
    + split; [discriminate |].
      intros H. exfalso. apply Hid, H, list_elem_of_here.
Qed.

Lemma elem_of_foldl_seen (tbl : list (option inode)) (ids : list nat)
    (seen : gset InodeID) (i : InodeID) :
  i ∈ foldl (fun seen i =>
               match tbl !! i with
               | Some None => {[ i ]} ∪ seen
               | _ => seen
               end) seen ids <->
  i ∈ seen \/ (i ∈ ids /\ tbl !! i = Some None).
Proof.
  revert seen. induction ids as [| j rest IH]; intros seen; simpl.
  - split; [auto | intros [H | [H _]]; [exact H | inversion H]].
  - rewrite IH. destruct (tbl !! j) as [[x |] |] eqn:Hj.
    + rewrite elem_of_cons. split; [tauto |].
      intros [H | [[-> | H] Hi]]; [tauto | congruence | tauto].
    + rewrite elem_of_union, elem_of_singleton, elem_of_cons. split.
      * intros [[-> | H] | H]; tauto.
      * intros [H | [[-> | H] Hi]]; tauto.
    + rewrite elem_of_cons. split; [tauto |].
      intros [H | [[-> | H] Hi]]; [tauto | congruence | tauto].
Qed.

Lemma elem_of_freeIDsEncountered (tbl : list (option inode)) (i : InodeID) :
  i ∈ freeIDsEncountered tbl <->
  (RootInodeID < i)%nat /\ tbl !! i = Some None.
Proof.
  unfold freeIDsEncountered. rewrite elem_of_foldl_seen, elem_of_seq.
  split.
  - intros [H | [H Hi]]; [now apply not_elem_of_empty in H |].
    split; [lia | exact Hi].
  - intros [H Hi]. right. split; [| exact Hi].
    apply lookup_lt_Some in Hi. lia.
Qed.

Lemma checkInvariants_Done (fs : memFS) :
  checkInvariants fs = Done tt <->
  (forall i, (i < RootInodeID)%nat -> inodes fs !! i = Some None) /\
  (exists r, inodes fs !! RootInodeID = Some (Some r) /\ isDir r = true) /\
  length (freeInodes fs) = size (freeIDsEncountered (inodes fs)) /\
  (forall id, id ∈ freeInodes fs -> id ∈ freeIDsEncountered (inodes fs)).
Proof.
  unfold checkInvariants. rewrite bind_Done. split.
  - intros ([] & Hres & Hrest).
    pose proof (proj1 (checkReserved_Done _ _) Hres) as Hres'.
    apply bind_Done in Hrest as (r & Hr & Hrest).
    destruct (inodes fs !! RootInodeID) as [[r' |] |] eqn:Hroot;
      try discriminate.
    injection Hr as ->.
    destruct (isDir r) eqn:Hdir; simpl in Hrest; [| discriminate].
    case_decide as Hlen; [discriminate |].
    pose proof (proj1 (checkFree_Done _ _) Hrest) as Hfree.
    split; [| split; [| split]].
    + intros i Hi. apply Hres', elem_of_seq. lia.
    + exists r. auto.
    + destruct (decide (length (freeInodes fs)
                        = size (freeIDsEncountered (inodes fs)))); tauto.
    + exact Hfree.
  - intros (Hres & (r & Hroot & Hdir) & Hlen & Hfree).
    exists tt. split.
    + apply checkReserved_Done. intros i Hi. apply Hres.
      apply elem_of_seq in Hi. lia.
    + rewrite Hroot. simpl. rewrite Hdir. simpl.
      case_decide as Hne; [congruence |].
      now apply checkFree_Done.
Qed.

Lemma Invariants_check (fs : memFS) :
  Invariants fs -> checkInvariants fs = Done tt.
Proof.
  intros [Hlen Hres Hroot Hfree Hnodup].
  apply checkInvariants_Done. split; [exact Hres |]. split; [exact Hroot |].
  assert (Heq : freeIDsEncountered (inodes fs) = list_to_set (freeInodes fs)).
  { apply set_eq. intros i.
    rewrite elem_of_freeIDsEncountered, elem_of_list_to_set. symmetry.
    apply Hfree. }
  split.
  - rewrite Heq. symmetry. now apply size_list_to_set.
  - intros id Hid. rewrite Heq. now apply elem_of_list_to_set.
Qed.

(** With each ID at most once on the free list, the check accepts the
    states of the invariants only. *)
Lemma check_NoDup_Invariants (fs : memFS) :
  NoDup (freeInodes fs) -> checkInvariants fs = Done tt -> Invariants fs.
Proof.
  intros Hnodup Hcheck.
  apply checkInvariants_Done in Hcheck
    as (Hres & (r & Hroot & Hdir) & Hlen & Hfree).
  assert (Hsub : list_to_set (freeInodes fs) ⊆ freeIDsEncountered (inodes fs)).
  { intros i Hi. apply elem_of_list_to_set in Hi. auto. }
  assert (Heq : freeIDsEncountered (inodes fs) = list_to_set (freeInodes fs)).
  { symmetry. apply set_subseteq_size_eq; [exact Hsub |].
    rewrite size_list_to_set by exact Hnodup. lia. }
  constructor.
  - now apply lookup_lt_Some in Hroot.
  - exact Hres.
  - now exists r.
  - intros i. rewrite <- elem_of_freeIDsEncountered, Heq.
    now rewrite elem_of_list_to_set.
  - exact Hnodup.
Qed.

(** ** The helpers of the table *)

Lemma getInodeForModifyingOrDie_Done held fs id i :
  getInodeForModifyingOrDie held fs id = Done i <->
  inodes fs !! id = Some (Some i) /\ id ∉ held.
Proof.
  unfold getInodeForModifyingOrDie.
  destruct (inodes fs !! id) as [[x |] |]; [| split; [discriminate | intros [? _]; discriminate] ..].
  case_decide as Hheld; split.
  - discriminate.
  - intros [_ H]. contradiction.
  - intros H. injection H as ->. auto.
  - intros [H _]. injection H as ->. reflexivity.
Qed.

(** The first lock a method takes. *)
Lemma getInode_first fs id i :
  inodes fs !! id = Some (Some i) ->
  getInodeForModifyingOrDie [] fs id = Done i /\
  getInodeForReadingOrDie [] fs id = Done i.
Proof.
  intros H. unfold getInodeForModifyingOrDie, getInodeForReadingOrDie.
  rewrite H. split; reflexivity.
Qed.

Lemma getInodeForReadingOrDie_Done held fs id i :
  getInodeForReadingOrDie held fs id = Done i <->
  inodes fs !! id = Some (Some i) /\ id ∉ held.
Proof. apply getInodeForModifyingOrDie_Done. Qed.

Lemma setSlot_Done fs id v fs' :
  setSlot fs id v = Done fs' <->
  (id < length (inodes fs))%nat /\
  fs' = mkMemFS (<[id := v]> (inodes fs)) (freeInodes fs).
Proof.
  unfold setSlot. case_decide as Hlt; split.
  - intros H. injection H as <-. auto.
  - intros [_ ->]. reflexivity.
  - discriminate.
  - intros [H _]. contradiction.
Qed.

(** The two branches of [allocateInode]. *)
Lemma allocateInode_reuse now fs a l id :
  freeInodes fs = l ++ [id] -> (id < length (inodes fs))%nat ->
  allocateInode now fs a =
    Done (id, newInode now a,
          mkMemFS (<[id := Some (newInode now a)]> (inodes fs)) l).
Proof.
  intros Hfree Hlt. unfold allocateInode. rewrite Hfree.
  rewrite length_app. simpl. case_decide as Hn; [| lia].
  replace (length l + 1 - 1)%nat with (length l) by lia.
  rewrite lookup_app_r by lia. rewrite Nat.sub_diag. simpl.
  rewrite take_app_length. unfold setSlot. simpl.
  case_decide; [reflexivity | contradiction].
Qed.

Lemma allocateInode_fresh now fs a :
  freeInodes fs = [] ->
  allocateInode now fs a =
    Done (length (inodes fs), newInode now a,
          mkMemFS (inodes fs ++ [Some (newInode now a)]) []).
Proof.
  intros Hfree. unfold allocateInode. rewrite Hfree. reflexivity.
Qed.

Lemma allocateInode_Done now fs a id i fs' :
  allocateInode now fs a = Done (id, i, fs') ->
  i = newInode now a /\
  ((exists l, freeInodes fs = l ++ [id] /\ (id < length (inodes fs))%nat /\
              fs' = mkMemFS (<[id := Some i]> (inodes fs)) l) \/
   (freeInodes fs = [] /\ id = length (inodes fs) /\
    fs' = mkMemFS (inodes fs ++ [Some i]) [])).
Proof.
  intros H.
  assert (Hcases : freeInodes fs = [] \/ exists l x, freeInodes fs = l ++ [x]).
  { destruct (freeInodes fs) as [| x l _] using rev_ind; eauto. }
  destruct Hcases as [Hfree | (l & x & Hfree)].
  - rewrite allocateInode_fresh in H by exact Hfree.
    injection H as <- <- <-. auto.
  - unfold allocateInode in H. rewrite Hfree in H.
    rewrite length_app in H. simpl in H.
    case_decide as Hn; [| lia].
    replace (length l + 1 - 1)%nat with (length l) in H by lia.
    rewrite lookup_app_r in H by lia. rewrite Nat.sub_diag in H.
    simpl in H. rewrite take_app_length in H.
    apply bind_Done in H as (fs1 & Hset & H).
    apply setSlot_Done in Hset as [Hlt ->]. simpl in *.
    injection H as <- <- <-. split; [reflexivity |]. left. exists l. auto.
Qed.

Lemma deallocateInode_Done fs id fs' :
  deallocateInode fs id = Done fs' <->
  (id < length (inodes fs))%nat /\
  fs' = mkMemFS (<[id := None]> (inodes fs)) (freeInodes fs ++ [id]).
Proof. unfold deallocateInode. rewrite setSlot_Done. reflexivity. Qed.

(** ** The invariants along the calls *)

Lemma isDir_newInode_root now uid gid :
  isDir (newInode now (mkAttrs 0 0 (Z.lor 448 ModeDir) zeroTime zeroTime
                               zeroTime zeroTime uid gid)) = true.
Proof. reflexivity. Qed.

Lemma Invariants_NewMemFS uid gid now : Invariants (NewMemFS uid gid now).
Proof.
  unfold NewMemFS, store. simpl. constructor; simpl.
  - rewrite length_insert, length_replicate. lia.
  - intros i Hi. rewrite list_lookup_insert_ne by lia.
    apply lookup_replicate. split; [reflexivity | lia].
  - eexists. split; [| apply (isDir_newInode_root now uid gid)].
    apply list_lookup_insert_eq. rewrite length_replicate. lia.
  - intros i. split; [intros H; inversion H |].
    intros [Hi H]. exfalso.
    assert (Hlt : (i < RootInodeID + 1)%nat).
    { apply lookup_lt_Some in H.
      now rewrite length_insert, length_replicate in H. }
    lia.
  - constructor.
Qed.

(** Writing an inode of the same kind in an occupied slot. *)
Lemma Invariants_store fs id i i' :
  Invariants fs -> inodes fs !! id = Some (Some i) -> kind i' = kind i ->
  Invariants (store fs id i').
Proof.
  intros [Hlen Hres Hroot Hfree Hnodup] Hid Hkind.
  assert (Hlt : (id < length (inodes fs))%nat) by now apply lookup_lt_Some in Hid.
  constructor; simpl.
  - now rewrite length_insert.
  - intros j Hj. destruct (decide (j = id)) as [-> | Hne].
    + rewrite Hres in Hid by exact Hj. discriminate.
    + rewrite list_lookup_insert_ne by auto. auto.
  - destruct Hroot as (r & Hr & Hdir).
    destruct (decide (RootInodeID = id)) as [-> | Hne].
    + exists i'. split; [now apply list_lookup_insert_eq |].
      rewrite Hid in Hr. injection Hr as ->.
      unfold isDir in *. now rewrite Hkind.
    + exists r. rewrite list_lookup_insert_ne by auto. auto.
  - intros j. rewrite Hfree. destruct (decide (j = id)) as [-> | Hne].
    + rewrite list_lookup_insert_eq by exact Hlt. rewrite Hid.
      split; intros [_ H]; discriminate.
    + now rewrite list_lookup_insert_ne by auto.
  - exact Hnodup.
Qed.

Lemma Invariants_allocateInode now fs a id i fs' :
  Invariants fs -> allocateInode now fs a = Done (id, i, fs') ->
  Invariants fs' /\ (RootInodeID < id)%nat /\
  inodes fs' !! id = Some (Some i) /\
  (forall j, j ≠ id -> (j < length (inodes fs))%nat ->
             inodes fs' !! j = inodes fs !! j) /\
  ~ (exists x, inodes fs !! id = Some (Some x)).
Proof.
  intros [Hlen Hres Hroot Hfree Hnodup] Halloc.
  apply allocateInode_Done in Halloc
    as [-> [(l & Hl & Hlt & ->) | (Hl & -> & ->)]]; simpl.
  - rewrite Hl in Hnodup. apply NoDup_app in Hnodup as (Hnl & Hnotin & _).
    assert (Hin : id ∈ freeInodes fs).
    { rewrite Hl, elem_of_app, list_elem_of_singleton. auto. }
    apply Hfree in Hin as [Hgt Hvac].
    split; [| split; [exact Hgt | split; [| split]]].
    + constructor; simpl.
      * now rewrite length_insert.
      * intros j Hj. rewrite list_lookup_insert_ne by lia. auto.
      * destruct Hroot as (r & Hr & Hdir). exists r.
        rewrite list_lookup_insert_ne by lia. auto.
      * intros j. destruct (decide (j = id)) as [-> | Hne].
        -- rewrite list_lookup_insert_eq by exact Hlt. split.
           ++ intros Hj. exfalso. apply (Hnotin id Hj).
              now apply list_elem_of_singleton.
           ++ intros [_ H]. discriminate.
        -- rewrite list_lookup_insert_ne by auto. rewrite <- Hfree, Hl.
           rewrite elem_of_app, list_elem_of_singleton. tauto.
      * exact Hnl.
    + now apply list_lookup_insert_eq.
    + intros j Hne _. now apply list_lookup_insert_ne.
    + intros (x & Hx). rewrite Hx in Hvac. discriminate.
  - split; [| split; [exact Hlen | split; [| split]]].
    + constructor; simpl.
      * rewrite length_app. simpl. lia.
      * intros j Hj. rewrite lookup_app_l by lia. auto.
      * destruct Hroot as (r & Hr & Hdir). exists r.
        rewrite lookup_app_l by lia. auto.
      * intros j. split; [intros H; inversion H |].
        intros [Hj H]. exfalso.
        destruct (decide (j < length (inodes fs))%nat) as [Hlt | Hge].
        -- rewrite lookup_app_l in H by exact Hlt.
           assert (Hin : j ∈ freeInodes fs) by (apply Hfree; auto).
           rewrite Hl in Hin. inversion Hin.
        -- rewrite lookup_app_r in H by lia.
           destruct (j - length (inodes fs))%nat; simpl in H; discriminate.
      * constructor.
    + rewrite lookup_app_r by lia. now rewrite Nat.sub_diag.
    + intros j _ Hlt. now apply lookup_app_l.
    + intros (x & Hx). apply lookup_lt_Some in Hx. lia.
Qed.

Lemma Invariants_deallocateInode fs id i fs' :
  Invariants fs -> (RootInodeID < id)%nat ->
  inodes fs !! id = Some (Some i) ->
  deallocateInode fs id = Done fs' -> Invariants fs'.
Proof.
  intros [Hlen Hres Hroot Hfree Hnodup] Hgt Hid Hdealloc.
  apply deallocateInode_Done in Hdealloc as [Hlt ->].
  constructor; simpl.
  - now rewrite length_insert.
  - intros j Hj. rewrite list_lookup_insert_ne by lia. auto.
  - destruct Hroot as (r & Hr & Hdir). exists r.
    rewrite list_lookup_insert_ne by lia. auto.
  - intros j. rewrite elem_of_app, list_elem_of_singleton.
    destruct (decide (j = id)) as [-> | Hne].
    + rewrite list_lookup_insert_eq by exact Hlt. tauto.
    + rewrite list_lookup_insert_ne by auto. rewrite Hfree. tauto.
  - apply NoDup_app. split; [exact Hnodup |]. split; [| apply NoDup_singleton].
    intros j Hj Hj'. apply list_elem_of_singleton in Hj' as ->.
    apply Hfree in Hj as [_ Hvac]. rewrite Hvac in Hid. discriminate.
Qed.

(** ** The methods, one by one *)

Lemma requireDir_Done {A : Type} (i : inode) (k : outcome A) (a : A) :
  requireDir i k = Done a <-> isDir i = true /\ k = Done a.
Proof.
  unfold requireDir. destruct (isDir i); split.
  - auto.
  - now intros [_ H].
  - discriminate.
  - intros [H _]. discriminate.
Qed.

Lemma LookUpChild_Done i name r :
  LookUpChild i name = Done r <->
  isDir i = true /\ r = findChild (entries i) name.
Proof.
  unfold LookUpChild. rewrite requireDir_Done.
  split; intros [Hd H]; split; congruence.
Qed.

Lemma AddChild_Done i id name dt i' :
  AddChild i id name dt = Done i' <->
  isDir i = true /\
  i' = withEntries i (entries i ++ [mkDirent id name dt]).
Proof.
  unfold AddChild. rewrite requireDir_Done.
  split; intros [Hd H]; split; congruence.
Qed.

Lemma RemoveChild_Done i name i' :
  RemoveChild i name = Done i' <->
  isDir i = true /\ i' = withEntries i (removeEntry (entries i) name).
Proof.
  unfold RemoveChild. rewrite requireDir_Done.
  split; intros [Hd H]; split; congruence.
Qed.

Lemma Len_Done i n :
  Len i = Done n <-> isDir i = true /\ n = length (entries i).
Proof.
  unfold Len. rewrite requireDir_Done.
  split; intros [Hd H]; split; congruence.
Qed.

Lemma store_same fs id i :
  inodes fs !! id = Some (Some i) -> store fs id i = fs.
Proof.
  intros H. unfold store. rewrite list_insert_id by exact H.
  now destruct fs.
Qed.

Lemma withTarget_same i : withTarget i (target i) = i.
Proof. now destruct i. Qed.

Lemma WriteAt_kept i p off i' n err :
  WriteAt i p off = Done (i', n, err) ->
  kind i' = kind i /\ entries i' = entries i /\
  Nlink (attrs i') = Nlink (attrs i).
Proof.
  unfold WriteAt. destruct (isFile i); [| discriminate].
  destruct (copy _ p) as [tl m]. intros H. injection H as <- _ _.
  case_decide; simpl; auto.
Qed.

Lemma SetAttributes_kept now i size mode mtime :
  kind (SetAttributes now i size mode mtime) = kind i /\
  entries (SetAttributes now i size mode mtime) = entries i /\
  Nlink (attrs (SetAttributes now i size mode mtime)) = Nlink (attrs i).
Proof.
  unfold SetAttributes.
  destruct size, mode, mtime, (isFile i); simpl; auto.
Qed.

(** The removal common to [RmDir] and [Unlink]. *)
Lemma Unlink_Done now fs op fs' op' err :
  Unlink now fs op = Done (fs', op', err) <->
  op' = op /\
  exists parent,
    inodes fs !! ulParent op = Some (Some parent) /\ isDir parent = true /\
    match findChild (entries parent) (ulName op) with
    | None => fs' = fs /\ err = Some ENOENT
    | Some c =>
        c ≠ ulParent op /\
        exists child,
          inodes fs !! c = Some (Some child) /\ err = None /\
          fs' = store (store fs (ulParent op)
                         (withEntries parent
                            (removeEntry (entries parent) (ulName op))))
                      c (unlinked child)
    end.
Proof.
  unfold Unlink. rewrite bind_Done. split.
  - intros (parent & Hp & H).
    apply getInodeForModifyingOrDie_Done in Hp as [Hp _].
    apply bind_Done in H as (found & Hf & H).
    apply LookUpChild_Done in Hf as [Hd ->].
    destruct (findChild (entries parent) (ulName op)) as [c |] eqn:Hc.
    + apply bind_Done in H as (child & Hch & H).
      apply getInodeForModifyingOrDie_Done in Hch as [Hch Hne].
      apply bind_Done in H as (parent' & Hrm & H).
      apply RemoveChild_Done in Hrm as [_ ->].
      injection H as <- <- <-. split; [reflexivity |].
      exists parent. rewrite Hc. repeat split; auto.
      * intros ->. apply Hne, list_elem_of_here.
      * eauto.
    + injection H as <- <- <-. split; [reflexivity |].
      exists parent. rewrite Hc. auto.
  - intros (-> & parent & Hp & Hd & H). exists parent. split.
    { now apply getInode_first. }
    unfold LookUpChild, requireDir. rewrite Hd. simpl.
    destruct (findChild (entries parent) (ulName op)) as [c |].
    + destruct H as (Hne & child & Hch & -> & ->).
      unfold getInodeForModifyingOrDie. rewrite Hch.
      case_decide as Hin.
      { apply list_elem_of_singleton in Hin. contradiction. }
      simpl. unfold RemoveChild, requireDir. rewrite Hd. reflexivity.
    + destruct H as [-> ->]. reflexivity.
Qed.

Lemma RmDir_Done now fs op fs' op' err :
  RmDir now fs op = Done (fs', op', err) <->
  op' = op /\
  exists parent,
    inodes fs !! rdParent op = Some (Some parent) /\ isDir parent = true /\
    match findChild (entries parent) (rdName op) with
    | None => fs' = fs /\ err = Some ENOENT
    | Some c =>
        c ≠ rdParent op /\
        exists child,
          inodes fs !! c = Some (Some child) /\ isDir child = true /\
          match entries child with
          | _ :: _ => fs' = fs /\ err = Some ENOTEMPTY
          | [] =>
              err = None /\
              fs' = store (store fs (rdParent op)
                             (withEntries parent
                                (removeEntry (entries parent) (rdName op))))
                          c (unlinked child)
          end
    end.
Proof.
  unfold RmDir. rewrite bind_Done. split.
  - intros (parent & Hp & H).
    apply getInodeForModifyingOrDie_Done in Hp as [Hp _].
    apply bind_Done in H as (found & Hf & H).
    apply LookUpChild_Done in Hf as [Hd ->].
    destruct (findChild (entries parent) (rdName op)) as [c |] eqn:Hc.
    + apply bind_Done in H as (child & Hch & H).
      apply getInodeForModifyingOrDie_Done in Hch as [Hch Hne].
      apply bind_Done in H as (n & Hn & H).
      apply Len_Done in Hn as [Hdc ->].
      split; [destruct (entries child); simpl in H;
              [apply bind_Done in H as (? & _ & H) |]; congruence |].
      exists parent. rewrite Hc. repeat split; auto.
      { intros ->. apply Hne, list_elem_of_here. }
      exists child. repeat split; auto.
      destruct (entries child) as [| e es]; simpl in H.
      * apply bind_Done in H as (parent' & Hrm & H).
        apply RemoveChild_Done in Hrm as [_ ->].
        injection H as <- _ <-. auto.
      * injection H as <- _ <-. auto.
    + injection H as <- <- <-. split; [reflexivity |].
      exists parent. rewrite Hc. auto.
  - intros (-> & parent & Hp & Hd & H). exists parent. split.
    { now apply getInode_first. }
    unfold LookUpChild, requireDir. rewrite Hd. simpl.
    destruct (findChild (entries parent) (rdName op)) as [c |].
    + destruct H as (Hne & child & Hch & Hdc & H).
      unfold getInodeForModifyingOrDie. rewrite Hch.
      case_decide as Hin.
      { apply list_elem_of_singleton in Hin. contradiction. }
      simpl. unfold Len, requireDir. rewrite Hdc. simpl.
      destruct (entries child) as [| e es]; simpl.
      * destruct H as [-> ->].
        unfold RemoveChild, requireDir. rewrite Hd. reflexivity.
      * destruct H as [-> ->]. reflexivity.
    + destruct H as [-> ->]. reflexivity.
Qed.

(** The creating methods: an allocation, then the entry in the parent. *)
Lemma MkDir_Done now fs op fs' op' err :
  MkDir now fs op = Done (fs', op', err) <->
  exists parent id fs1,
    let a := mkAttrs 0 1 (mdMode op) zeroTime zeroTime zeroTime zeroTime
                     (mdUid op) (mdGid op) in
    inodes fs !! mdParent op = Some (Some parent) /\ isDir parent = true /\
    allocateInode now fs a = Done (id, newInode now a, fs1) /\
    fs' = storeParent fs1 (mdParent op) id
            (withEntries parent
               (entries parent ++ [mkDirent id (mdName op) DT_Directory])) /\
    op' = mkMkDirOp (mdParent op) (mdName op) (mdMode op) (mdUid op)
                    (mdGid op)
                    (fillEntry now (mdEntry op) id (newInode now a)) /\
    err = None.
Proof.
  unfold MkDir. rewrite bind_Done. split.
  - intros (parent & Hp & H).
    apply getInodeForModifyingOrDie_Done in Hp as [Hp _].
    apply bind_Done in H as ([[id child] fs1] & Halloc & H).
    apply bind_Done in H as (parent' & Hadd & H).
    apply AddChild_Done in Hadd as [Hd ->].
    injection H as <- <- <-.
    pose proof (allocateInode_Done _ _ _ _ _ _ Halloc) as [-> _].
    exists parent, id, fs1. simpl. auto 10.
  - intros (parent & id & fs1 & Hp & Hd & Halloc & -> & -> & ->).
    exists parent. split.
    { now apply getInode_first. }
    rewrite Halloc. simpl. unfold AddChild, requireDir. rewrite Hd.
    reflexivity.
Qed.

Lemma CreateFile_Done now fs op fs' op' err :
  CreateFile now fs op = Done (fs', op', err) <->
  exists parent,
    inodes fs !! cfParent op = Some (Some parent) /\ isDir parent = true /\
    match findChild (entries parent) (cfName op) with
    | Some _ => fs' = fs /\ op' = op /\ err = Some EEXIST
    | None =>
        exists id fs1,
          let a := mkAttrs 0 1 (cfMode op) now now now now
                           (cfUid op) (cfGid op) in
          allocateInode now fs a = Done (id, newInode now a, fs1) /\
          fs' = storeParent fs1 (cfParent op) id
                  (withEntries parent
                     (entries parent ++ [mkDirent id (cfName op) DT_File])) /\
          op' = mkCreateFileOp (cfParent op) (cfName op) (cfMode op)
                               (cfUid op) (cfGid op)
                               (fillEntry now (cfEntry op) id
                                          (newInode now a)) /\
          err = None
    end.
Proof.
  unfold CreateFile. rewrite bind_Done. split.
  - intros (parent & Hp & H).
    apply getInodeForModifyingOrDie_Done in Hp as [Hp _].
    apply bind_Done in H as (found & Hf & H).
    apply LookUpChild_Done in Hf as [Hd ->].
    exists parent. split; [exact Hp |]. split; [exact Hd |].
    destruct (findChild (entries parent) (cfName op)) as [c |].
    + injection H as <- <- <-. auto.
    + apply bind_Done in H as ([[id child] fs1] & Halloc & H).
      apply bind_Done in H as (parent' & Hadd & H).
      apply AddChild_Done in Hadd as [_ ->].
      injection H as <- <- <-.
      pose proof (allocateInode_Done _ _ _ _ _ _ Halloc) as [-> _].
      exists id, fs1. simpl. auto.
  - intros (parent & Hp & Hd & H). exists parent. split.
    { now apply getInode_first. }
    unfold LookUpChild, requireDir. rewrite Hd. simpl.
    destruct (findChild (entries parent) (cfName op)) as [c |].
    + destruct H as (-> & -> & ->). reflexivity.
    + destruct H as (id & fs1 & Halloc & -> & -> & ->).
      rewrite Halloc. simpl. unfold AddChild, requireDir. rewrite Hd.
      reflexivity.
Qed.

Lemma CreateSymlink_Done now fs op fs' op' err :
  CreateSymlink now fs op = Done (fs', op', err) <->
  exists parent id fs1,
    let a := mkAttrs 0 1 (Z.lor 292 ModeSymlink) now now now now
                     (csUid op) (csGid op) in
    let child := withTarget (newInode now a) (csTarget op) in
    inodes fs !! csParent op = Some (Some parent) /\ isDir parent = true /\
    allocateInode now fs a = Done (id, newInode now a, fs1) /\
    fs' = storeParent (store fs1 id child) (csParent op) id
            (withEntries parent
               (entries parent ++ [mkDirent id (csName op) DT_Link])) /\
    op' = mkCreateSymlinkOp (csParent op) (csName op) (csTarget op)
                            (csUid op) (csGid op)
                            (fillEntry now (csEntry op) id child) /\
    err = None.
Proof.
  unfold CreateSymlink. rewrite bind_Done. split.
  - intros (parent & Hp & H).
    apply getInodeForModifyingOrDie_Done in Hp as [Hp _].
    apply bind_Done in H as ([[id child] fs1] & Halloc & H).
    apply bind_Done in H as (parent' & Hadd & H).
    apply AddChild_Done in Hadd as [Hd ->].
    injection H as <- <- <-.
    pose proof (allocateInode_Done _ _ _ _ _ _ Halloc) as [-> _].
    exists parent, id, fs1. simpl. auto 10.
  - intros (parent & id & fs1 & Hp & Hd & Halloc & -> & -> & ->).
    exists parent. split.
    { now apply getInode_first. }
    rewrite Halloc. simpl. unfold AddChild, requireDir. rewrite Hd.
    reflexivity.
Qed.

Lemma allocateInode_slot now fs a id i fs' :
  allocateInode now fs a = Done (id, i, fs') ->
  inodes fs' !! id = Some (Some i).
Proof.
  intros H. apply allocateInode_Done in H
    as [_ [(l & _ & Hlt & ->) | (_ & -> & ->)]]; simpl.
  - now apply list_lookup_insert_eq.
  - rewrite lookup_app_r by lia. now rewrite Nat.sub_diag.
Qed.

(** The step of [exec] around a method: [Hop] is the run of the method,
    and the state after it is the one of the goal. *)
Ltac method_run H Hop :=
  let fs1 := fresh "fs1" in
  let op1 := fresh "op1" in
  let e1 := fresh "e1" in
  first [ apply bind_Done in H as ([[fs1 op1] e1] & Hop & H)
        | apply bind_Done in H as ([fs1 e1] & Hop & H) ];
  first [ injection H as <- _ _ | injection H as <- _ ].

(** Every method makes one of the four moves. *)
Lemma exec_moves now fs c fs' c' err :
  exec now fs c = Done (fs', c', err) -> moves fs fs'.
Proof.
  destruct c; simpl; intros H.
  - injection H as <- _ _. constructor.
  - method_run H Hop. unfold LookUpInode in Hop.
    apply bind_Done in Hop as (i & _ & Hop).
    apply bind_Done in Hop as (found & _ & Hop).
    destruct found as [c |].
    + apply bind_Done in Hop as (ch & _ & Hop).
      injection Hop as <- _ _. constructor.
    + injection Hop as <- _ _. constructor.
  - method_run H Hop. unfold GetInodeAttributes in Hop.
    apply bind_Done in Hop as (i & _ & Hop).
    injection Hop as <- _ _. constructor.
  - method_run H Hop. unfold SetInodeAttributes in Hop.
    apply bind_Done in Hop as (i & Hi & Hop).
    apply getInodeForModifyingOrDie_Done in Hi as [Hi _].
    injection Hop as <- _ _.
    apply (moves_update fs _ i); [exact Hi | apply SetAttributes_kept ..].
  - method_run H Hop.
    apply MkDir_Done in Hop
      as (parent & id & fs2 & Hp & Hd & Halloc & -> & _ & _).
    pose proof (allocateInode_slot _ _ _ _ _ _ Halloc) as Hid.
    rewrite <- (store_same fs2 id _ Hid) at 1.
    rewrite <- (withTarget_same (newInode now _)) at 1.
    eapply moves_create; [exact Hp | | exact Halloc]. reflexivity.
  - method_run H Hop.
    apply CreateFile_Done in Hop as (parent & Hp & Hd & Hop).
    destruct (findChild (entries parent) (cfName op)) as [c |].
    + destruct Hop as (-> & _). constructor.
    + destruct Hop as (id & fs2 & Halloc & -> & _ & _).
      pose proof (allocateInode_slot _ _ _ _ _ _ Halloc) as Hid.
      rewrite <- (store_same fs2 id _ Hid) at 1.
      rewrite <- (withTarget_same (newInode now _)) at 1.
      eapply moves_create; [exact Hp | | exact Halloc]. reflexivity.
  - method_run H Hop.
    apply CreateSymlink_Done in Hop
      as (parent & id & fs2 & Hp & Hd & Halloc & -> & _ & _).
    eapply moves_create; [exact Hp | | exact Halloc]. reflexivity.
  - method_run H Hop.
    apply RmDir_Done in Hop as (_ & parent & Hp & Hd & Hop).
    destruct (findChild (entries parent) (rdName op)) as [c |] eqn:Hc.
    + destruct Hop as (Hne & child & Hch & Hdc & Hop).
      destruct (entries child).
      * destruct Hop as [_ ->]. now apply moves_remove.
      * destruct Hop as [-> _]. constructor.
    + destruct Hop as [-> _]. constructor.
  - method_run H Hop.
    apply Unlink_Done in Hop as (_ & parent & Hp & Hd & Hop).
    destruct (findChild (entries parent) (ulName op)) as [c |] eqn:Hc.
    + destruct Hop as (Hne & child & Hch & _ & ->). now apply moves_remove.
    + destruct Hop as [-> _]. constructor.
  - method_run H Hop. unfold OpenDir in Hop.
    apply bind_Done in Hop as (i & _ & Hop).
    destruct (negb (isDir i)); [discriminate |].
    injection Hop as <- _. constructor.
  - method_run H Hop. unfold ReadDir in Hop.
    apply bind_Done in Hop as (i & _ & Hop).
    apply bind_Done in Hop as ([data e2] & _ & Hop).
    injection Hop as <- _ _. constructor.
  - method_run H Hop. unfold OpenFile in Hop.
    apply bind_Done in Hop as (i & _ & Hop).
    destruct (negb (isFile i)); [discriminate |].
    injection Hop as <- _. constructor.
  - method_run H Hop. unfold ReadFile in Hop.
    apply bind_Done in Hop as (i & _ & Hop).
    apply bind_Done in Hop as ([[data n] e2] & _ & Hop).
    injection Hop as <- _ _. constructor.
  - method_run H Hop. unfold WriteFile in Hop.
    apply bind_Done in Hop as (i & Hi & Hop).
    apply getInodeForModifyingOrDie_Done in Hi as [Hi _].
    apply bind_Done in Hop as ([[i' n] e2] & Hw & Hop).
    injection Hop as <- _ _.
    apply (moves_update fs _ i); [exact Hi | eapply WriteAt_kept; eauto ..].
  - method_run H Hop. unfold ReadSymlink in Hop.
    apply bind_Done in Hop as (i & _ & Hop).
    injection Hop as <- _ _. constructor.
Qed.

Lemma store_lookup_ne fs id i j :
  j ≠ id -> inodes (store fs id i) !! j = inodes fs !! j.
Proof. intros H. simpl. now apply list_lookup_insert_ne. Qed.

Lemma store_lookup_eq fs id i :
  (id < length (inodes fs))%nat -> inodes (store fs id i) !! id = Some (Some i).
Proof. intros H. simpl. now apply list_lookup_insert_eq. Qed.

Lemma moves_Invariants fs fs' : Invariants fs -> moves fs fs' -> Invariants fs'.
Proof.
  intros Hinv Hmv.
  destruct Hmv as [| id i i' Hi Hk _ _
                   | now a p parent id child fs1 name dt t Hp _ Halloc
                   | p parent name c child Hp _ Hne Hc].
  - exact Hinv.
  - now apply (Invariants_store fs id i).
  - destruct (Invariants_allocateInode _ _ _ _ _ _ Hinv Halloc)
      as (Hinv1 & Hgt & Hid & Hsame & _).
    assert (Hinv2 : Invariants (store fs1 id (withTarget child t))).
    { now apply (Invariants_store fs1 id child). }
    unfold storeParent. case_decide as Hidp; [exact Hinv2 |].
    apply (Invariants_store _ p parent); [exact Hinv2 | | reflexivity].
    rewrite store_lookup_ne by auto. rewrite Hsame; auto.
    now apply lookup_lt_Some in Hp.
  - apply (Invariants_store _ c child); [| | reflexivity].
    + now apply (Invariants_store fs p parent).
    + rewrite store_lookup_ne by auto. exact Hc.
Qed.

(** ** C1: the invariants of the table *)

(** C1 (as amended). From the state of [NewMemFS], after every method
    that returns, after every [allocateInode], and after every
    [deallocateInode] of an occupied slot above the root, the table
    invariants hold (the table is longer than [RootInodeID], the slots
    below it are vacant, the root slot holds a directory, the free list is
    the list without repetition of the vacant slots above the root), and
    [checkInvariants] returns without a panic. *)
Theorem reachable_Invariants (fs : memFS) :
  reachable fs -> Invariants fs /\ checkInvariants fs = Done tt.
Proof.
  intros Hreach.
  assert (Hinv : Invariants fs).
  { induction Hreach as [uid gid now
                        | fs now c fs' c' err _ IH Hexec
                        | fs now a id i fs' _ IH Halloc
                        | fs id i fs' _ IH Hgt Hid Hdealloc].
    - apply Invariants_NewMemFS.
    - apply (moves_Invariants fs); [exact IH |].
      now apply exec_moves in Hexec.
    - now destruct (Invariants_allocateInode _ _ _ _ _ _ IH Halloc).
    - now apply (Invariants_deallocateInode fs id i). }
  split; [exact Hinv | now apply Invariants_check].
Qed.

(** The states of the server are among them. *)
Lemma served_reachable fs : served fs -> reachable fs.
Proof.
  induction 1 as [uid gid now | fs now c fs' c' err _ IH Hexec].
  - constructor.
  - now apply (reach_call fs now c fs' c' err).
Qed.

(** ** The entries in the states of the server *)

Lemma allChildren_app l1 l2 :
  allChildren (l1 ++ l2) = allChildren l1 ++ allChildren l2.
Proof. unfold allChildren. now rewrite fmap_app, concat_app. Qed.

Lemma allChildren_cons o l : allChildren (o :: l) = childrenOf o ++ allChildren l.
Proof. reflexivity. Qed.

Lemma allChildren_split tbl p o :
  tbl !! p = Some o ->
  allChildren tbl =
    allChildren (take p tbl) ++ childrenOf o ++ allChildren (drop (S p) tbl).
Proof.
  intros H. rewrite <- (take_drop_middle tbl p o H) at 1.
  now rewrite allChildren_app, allChildren_cons.
Qed.

Lemma allChildren_insert tbl p o o' :
  tbl !! p = Some o ->
  allChildren (<[p := o']> tbl) =
    allChildren (take p tbl) ++ childrenOf o' ++ allChildren (drop (S p) tbl).
Proof.
  intros H. rewrite insert_take_drop by now apply lookup_lt_Some in H.
  now rewrite allChildren_app, allChildren_cons.
Qed.

Lemma allChildren_insert_same tbl p o o' :
  tbl !! p = Some o -> childrenOf o' = childrenOf o ->
  allChildren (<[p := o']> tbl) = allChildren tbl.
Proof.
  intros H Heq.
  now rewrite (allChildren_insert tbl p o o' H), (allChildren_split tbl p o H), Heq.
Qed.

Lemma elem_of_allChildren tbl c :
  c ∈ allChildren tbl <->
  exists p d e, tbl !! p = Some (Some d) /\ e ∈ entries d /\ dInode e = c.
Proof.
  induction tbl as [| o tbl IH].
  - split; [intros H; inversion H | intros (p & d & e & H & _); discriminate].
  - rewrite allChildren_cons, elem_of_app, IH. split.
    + intros [H | (p & d & e & Hp & He & Hc)].
      * destruct o as [d |]; [| inversion H].
        apply list_elem_of_fmap in H as (e & -> & He).
        exists 0%nat, d, e. auto.
      * exists (S p), d, e. auto.
    + intros (p & d & e & Hp & He & Hc). destruct p as [| p].
      * left. injection Hp as ->. simpl.
        apply list_elem_of_fmap. exists e. auto.
      * right. exists p, d, e. auto.
Qed.

Lemma removeEntry_sublist es name : removeEntry es name `sublist_of` es.
Proof.
  induction es as [| e es IH]; simpl; [constructor |].
  case_decide.
  - now apply sublist_cons.
  - now apply sublist_skip.
Qed.

Lemma findChild_elem es name c :
  findChild es name = Some c -> c ∈ dInode <$> es.
Proof.
  induction es as [| e es IH]; simpl; [discriminate |].
  case_decide.
  - intros Hc. injection Hc as <-. apply list_elem_of_here.
  - intros Hc. apply list_elem_of_further. auto.
Qed.


Lemma removeEntry_gone es name c :
  findChild es name = Some c -> NoDup (dInode <$> es) ->
  c ∉ dInode <$> removeEntry es name.
Proof.
  induction es as [| e es IH]; simpl; [discriminate |].
  intros Hc Hnd. apply NoDup_cons in Hnd as [Hnotin Hnd].
  case_decide.
  - injection Hc as <-. exact Hnotin.
  - simpl. rewrite not_elem_of_cons. split; [| auto].
    intros ->. apply Hnotin. now apply (findChild_elem es name).
Qed.

Lemma Linked_NewMemFS uid gid now : Linked (NewMemFS uid gid now).
Proof.
  assert (Hempty : allChildren (inodes (NewMemFS uid gid now)) = []).
  { apply elem_of_nil_inv. intros c Hc.
    apply elem_of_allChildren in Hc as (p & d & e & Hp & He & _).
    simpl in Hp. destruct (decide (p = RootInodeID)) as [-> | Hne].
    - rewrite list_lookup_insert_eq in Hp
        by (rewrite length_replicate; lia).
      injection Hp as <-. inversion He.
    - rewrite list_lookup_insert_ne in Hp by auto.
      apply lookup_replicate in Hp as [? _]. discriminate. }
  constructor.
  - reflexivity.
  - rewrite Hempty. constructor.
  - intros p d e Hp He. exfalso.
    assert (Hin : dInode e ∈ allChildren (inodes (NewMemFS uid gid now))).
    { apply elem_of_allChildren. exists p, d, e. auto. }
    rewrite Hempty in Hin. inversion Hin.
Qed.

Lemma decrement_one : decrement NlinkBits 1 = 0.
Proof. unfold decrement. apply Zmod_0_l. Qed.

(** A table whose entries are among the former ones, and in which the
    inodes still referred to kept their link count. *)
Lemma Linked_shrink fs fs' :
  Linked fs -> freeInodes fs' = [] -> NoDup (allChildren (inodes fs')) ->
  (forall q d' e, inodes fs' !! q = Some (Some d') -> e ∈ entries d' ->
     exists d, inodes fs !! q = Some (Some d) /\ e ∈ entries d) ->
  (forall c ch, inodes fs !! c = Some (Some ch) -> Nlink (attrs ch) = 1 ->
     c ∈ allChildren (inodes fs') ->
     exists ch', inodes fs' !! c = Some (Some ch') /\ Nlink (attrs ch') = 1) ->
  Linked fs'.
Proof.
  intros [_ _ Hch] Hfree Hnd Hold Hkeep. constructor; auto.
  intros q d' e Hq He.
  destruct (Hold q d' e Hq He) as (d & Hd & Hed).
  destruct (Hch q d e Hd Hed) as (Hne & ch & Hc & Hn).
  split; [exact Hne |]. apply (Hkeep _ ch Hc Hn).
  apply elem_of_allChildren. exists q, d', e. auto.
Qed.

Lemma moves_Linked fs fs' : Linked fs -> moves fs fs' -> Linked fs'.
Proof.
  intros Hlk Hmv. pose proof Hlk as [Hfree Hnd Hch].
  destruct Hmv as [| id i i' Hi Hk He Hn
                   | now a p parent id child fs1 name dt t Hp Ha Halloc
                   | p parent name c child Hp Hfind Hne Hc].
  - exact Hlk.
  - assert (Hlt : (id < length (inodes fs))%nat) by now apply lookup_lt_Some in Hi.
    apply (Linked_shrink fs); simpl; auto.
    + rewrite (allChildren_insert_same _ id (Some i)); auto.
      simpl. now rewrite He.
    + intros q d' e Hq Hin. destruct (decide (q = id)) as [-> | Hq'].
      * rewrite list_lookup_insert_eq in Hq by exact Hlt.
        injection Hq as <-. exists i. rewrite <- He. auto.
      * rewrite list_lookup_insert_ne in Hq by auto. eauto.
    + intros c ch Hc Hn1 _. destruct (decide (c = id)) as [-> | Hc'].
      * rewrite list_lookup_insert_eq by exact Hlt. exists i'.
        split; [reflexivity |]. rewrite Hi in Hc. injection Hc as ->.
        congruence.
      * rewrite list_lookup_insert_ne by auto. eauto.
  - assert (Hpl : (p < length (inodes fs))%nat) by now apply lookup_lt_Some in Hp.
    apply allocateInode_Done in Halloc
      as [-> [(l & Hl & _) | (_ & -> & ->)]].
    { rewrite Hfree in Hl. now apply app_cons_not_nil in Hl. }
    unfold storeParent. case_decide as Hidp; [lia |].
    set (child' := withTarget (newInode now a) t).
    set (parent' := withEntries parent _).
    assert (Htbl : inodes (store (store (mkMemFS (inodes fs ++ [Some (newInode now a)]) [])
                                   (length (inodes fs)) child') p parent')
                   = <[p := Some parent']> (inodes fs) ++ [Some child']).
    { simpl. rewrite insert_app_r_alt by lia. rewrite Nat.sub_diag. simpl.
      now rewrite insert_app_l by exact Hpl. }
    assert (Hfresh : length (inodes fs) ∉ allChildren (inodes fs)).
    { intros Hin. apply elem_of_allChildren in Hin as (q & d & e & Hq & He & Hlen).
      destruct (Hch q d e Hq He) as (_ & ch & Hc & _).
      apply lookup_lt_Some in Hc. lia. }
    rewrite (allChildren_split _ p _ Hp) in Hnd, Hfresh.
    constructor.
    + reflexivity.
    + rewrite Htbl, allChildren_app, (allChildren_insert _ p _ _ Hp).
      unfold allChildren at 3. simpl. rewrite app_nil_r.
      unfold parent'. simpl. rewrite fmap_app. simpl.
      apply NoDup_app in Hnd as (HA & HAX & HXB).
      apply NoDup_app in HXB as (HX & HXB & HB).
      rewrite !not_elem_of_app in Hfresh. destruct Hfresh as (HfA & HfX & HfB).
      apply NoDup_app. split; [exact HA |]. split.
      * intros x HxA. rewrite !elem_of_app, list_elem_of_singleton.
        intros [[Hx | ->] | Hx]; [| contradiction |];
          apply (HAX x HxA); rewrite elem_of_app; auto.
      * apply NoDup_app. split; [| split; [| exact HB]].
        -- apply NoDup_app. split; [exact HX |]. split; [| apply NoDup_singleton].
           intros x Hx Hx'. apply list_elem_of_singleton in Hx' as ->. contradiction.
        -- intros x. rewrite elem_of_app, list_elem_of_singleton.
           intros [Hx | ->]; [now apply HXB | exact HfB].
    + rewrite Htbl. intros q d e Hq He.
      assert (Hkeep : forall c ch, inodes fs !! c = Some (Some ch) ->
                Nlink (attrs ch) = 1 ->
                exists ch', (<[p:=Some parent']> (inodes fs) ++ [Some child']) !! c
                            = Some (Some ch') /\ Nlink (attrs ch') = 1).
      { intros c ch Hc Hn.
        assert (Hcl : (c < length (inodes fs))%nat) by now apply lookup_lt_Some in Hc.
        rewrite lookup_app_l by now rewrite length_insert.
        destruct (decide (c = p)) as [-> | Hcp].
        - rewrite list_lookup_insert_eq by exact Hpl. exists parent'.
          split; [reflexivity |]. rewrite Hp in Hc. now injection Hc as ->.
        - rewrite list_lookup_insert_ne by auto. eauto. }
      destruct (decide (q < length (inodes fs))%nat) as [Hql | Hql].
      * rewrite lookup_app_l in Hq by now rewrite length_insert.
        destruct (decide (q = p)) as [-> | Hqp].
        -- rewrite list_lookup_insert_eq in Hq by exact Hpl.
           injection Hq as <-. unfold parent' in He. simpl in He.
           apply elem_of_app in He as [He | He].
           ++ destruct (Hch p parent e Hp He) as (Hne & ch & Hc & Hn).
              split; [exact Hne |]. now apply (Hkeep _ ch).
           ++ apply list_elem_of_singleton in He as ->. simpl.
              split; [lia |]. exists child'.
              rewrite lookup_app_r by now rewrite length_insert.
              rewrite length_insert, Nat.sub_diag. split; [reflexivity |].
              exact Ha.
        -- rewrite list_lookup_insert_ne in Hq by auto.
           destruct (Hch q d e Hq He) as (Hne & ch & Hc & Hn).
           split; [exact Hne |]. now apply (Hkeep _ ch).
      * rewrite lookup_app_r in Hq by (rewrite length_insert; lia).
        rewrite length_insert in Hq.
        destruct (q - length (inodes fs))%nat as [| k]; simpl in Hq.
        -- injection Hq as <-. inversion He.
        -- discriminate.
  - assert (Hpl : (p < length (inodes fs))%nat) by now apply lookup_lt_Some in Hp.
    assert (Hcl : (c < length (inodes fs))%nat) by now apply lookup_lt_Some in Hc.
    set (parent' := withEntries parent (removeEntry (entries parent) name)).
    assert (Hc1 : <[p := Some parent']> (inodes fs) !! c = Some (Some child)).
    { now rewrite list_lookup_insert_ne by auto. }
    assert (Hall : allChildren (inodes (store (store fs p parent') c (unlinked child)))
                   = allChildren (take p (inodes fs)) ++
                     (dInode <$> removeEntry (entries parent) name) ++
                     allChildren (drop (S p) (inodes fs))).
    { simpl. rewrite (allChildren_insert_same _ c (Some child)); auto.
      now rewrite (allChildren_insert _ p _ _ Hp). }
    rewrite (allChildren_split _ p _ Hp) in Hnd. simpl in Hnd.
    assert (Hgone : c ∉ allChildren (inodes (store (store fs p parent') c (unlinked child)))).
    { rewrite Hall. apply findChild_elem in Hfind as Hin.
      apply NoDup_app in Hnd as (HA & HAX & HXB).
      apply NoDup_app in HXB as (HX & HXB & HB).
      rewrite !not_elem_of_app. split; [| split].
      - intros HcA. apply (HAX c HcA). rewrite elem_of_app. auto.
      - now apply removeEntry_gone.
      - now apply HXB. }
    apply (Linked_shrink fs); auto.
    + rewrite Hall. eapply sublist_NoDup; [exact Hnd |].
      apply sublist_app; [reflexivity |].
      apply sublist_app; [| reflexivity].
      apply fmap_sublist, removeEntry_sublist.
    + simpl. intros q d' e Hq He. destruct (decide (q = c)) as [-> | Hqc].
      * rewrite list_lookup_insert_eq in Hq by now rewrite length_insert.
        injection Hq as <-. exists child. auto.
      * rewrite list_lookup_insert_ne in Hq by auto.
        destruct (decide (q = p)) as [-> | Hqp].
        -- rewrite list_lookup_insert_eq in Hq by exact Hpl.
           injection Hq as <-. exists parent. split; [exact Hp |].
           simpl in He. eapply elem_of_sublist; [exact He |].
           apply removeEntry_sublist.
        -- rewrite list_lookup_insert_ne in Hq by auto. eauto.
    + intros c0 ch Hc0 Hn Hin. simpl.
      destruct (decide (c0 = c)) as [-> | Hc0c]; [contradiction |].
      rewrite list_lookup_insert_ne by auto.
      destruct (decide (c0 = p)) as [-> | Hc0p].
      * rewrite list_lookup_insert_eq by exact Hpl. exists parent'.
        split; [reflexivity |]. rewrite Hp in Hc0. now injection Hc0 as ->.
      * rewrite list_lookup_insert_ne by auto. eauto.
Qed.

Lemma served_Linked fs : served fs -> Linked fs.
Proof.
  induction 1 as [uid gid now | fs now c fs' c' err _ IH Hexec].
  - apply Linked_NewMemFS.
  - apply (moves_Linked fs); [exact IH |]. now apply exec_moves in Hexec.
Qed.

Lemma serve_served fs cs fs' :
  served fs -> serve fs cs = Done fs' -> served fs'.
Proof.
  revert fs. induction cs as [| [now c] rest IH]; intros fs Hs H; simpl in H.
  - now injection H as <-.
  - apply bind_Done in H as ([[fs1 c1] e1] & Hexec & H).
    apply (IH fs1); [| exact H].
    now apply (served_call fs now c fs1 c1 e1).
Qed.

(** ** C2: reuse of IDs, last in first out *)

(** C2. [allocateInode] returns the last ID of a non-empty free list, the
    one freed most recently, and takes it off the list; with an empty
    free list it returns the length of the table and appends a slot.
    After [deallocateInode] of 5 and then of 7, the next allocation
    returns 7 and the one after returns 5. *)
Theorem allocateInode_LIFO (now : Time) (fs : memFS) (a : InodeAttributes) :
  (forall l id,
     freeInodes fs = l ++ [id] -> (id < length (inodes fs))%nat ->
     allocateInode now fs a =
       Done (id, newInode now a,
             mkMemFS (<[id := Some (newInode now a)]> (inodes fs)) l)) /\
  (freeInodes fs = [] ->
   allocateInode now fs a =
     Done (length (inodes fs), newInode now a,
           mkMemFS (inodes fs ++ [Some (newInode now a)]) [])) /\
  (forall id fs1,
     deallocateInode fs id = Done fs1 ->
     exists fs2,
       allocateInode now fs1 a = Done (id, newInode now a, fs2) /\
       freeInodes fs2 = freeInodes fs) /\
  (forall fs2 now' a',
     tableRun fs [Deallocate 5; Deallocate 7] = Done fs2 ->
     exists fs3 fs4,
       allocateInode now fs2 a = Done (7%nat, newInode now a, fs3) /\
       allocateInode now' fs3 a' = Done (5%nat, newInode now' a', fs4) /\
       freeInodes fs4 = freeInodes fs).
Proof.
  split; [| split; [| split]].
  - intros l id. apply allocateInode_reuse.
  - apply allocateInode_fresh.
  - intros id fs1 Hd. apply deallocateInode_Done in Hd as [Hlt ->].
    eexists. split.
    + apply allocateInode_reuse; simpl; [reflexivity |].
      now rewrite length_insert.
    + reflexivity.
  - intros fs2 now' a' Hrun. simpl in Hrun.
    apply bind_Done in Hrun as (fs1 & H5 & Hrun).
    apply bind_Done in Hrun as (fs2' & H7 & Hrun).
    injection Hrun as ->.
    apply deallocateInode_Done in H5 as [Hlt5 ->].
    apply deallocateInode_Done in H7 as [Hlt7 ->]. simpl in *.
    rewrite length_insert in Hlt7.
    eexists. eexists. split; [| split].
    + apply allocateInode_reuse; simpl; [reflexivity |].
      now rewrite !length_insert.
    + apply allocateInode_reuse; simpl; [reflexivity |].
      now rewrite !length_insert.
    + reflexivity.
Qed.

(** ** C3: the creating methods and a name that exists *)

(** [CreateFile] refuses a name that the parent has, and changes
    nothing. *)
Lemma CreateFile_existing now fs op parent c :
  inodes fs !! cfParent op = Some (Some parent) -> isDir parent = true ->
  findChild (entries parent) (cfName op) = Some c ->
  CreateFile now fs op = Done (fs, op, Some EEXIST).
Proof.
  intros Hp Hd Hc. apply CreateFile_Done. exists parent.
  rewrite Hc. auto.
Qed.

(** [MkDir] and [CreateSymlink] never respond with an error: whatever the
    parent contains, they allocate and add the entry. *)
Lemma MkDir_no_error now fs op fs' op' err :
  MkDir now fs op = Done (fs', op', err) -> err = None.
Proof.
  intros H. apply MkDir_Done in H.
  now destruct H as (parent & id & fs1 & _ & _ & _ & _ & _ & ->).
Qed.

Lemma CreateSymlink_no_error now fs op fs' op' err :
  CreateSymlink now fs op = Done (fs', op', err) -> err = None.
Proof.
  intros H. apply CreateSymlink_Done in H.
  now destruct H as (parent & id & fs1 & _ & _ & _ & _ & _ & ->).
Qed.

Lemma MkDir_existing now fs op parent c :
  freeInodes fs = [] ->
  inodes fs !! mdParent op = Some (Some parent) -> isDir parent = true ->
  findChild (entries parent) (mdName op) = Some c ->
  exists fs' op',
    MkDir now fs op = Done (fs', op', None) /\
    length (inodes fs') = S (length (inodes fs)) /\
    inodes fs' !! mdParent op =
      Some (Some (withEntries parent
                    (entries parent ++
                     [mkDirent (length (inodes fs)) (mdName op) DT_Directory]))).
Proof.
  intros Hfree Hp Hd Hc.
  assert (Hpl : (mdParent op < length (inodes fs))%nat)
    by now apply lookup_lt_Some in Hp.
  eexists. eexists. split; [| split].
  - apply MkDir_Done. exists parent. eexists. eexists. simpl.
    split; [exact Hp |]. split; [exact Hd |].
    split; [now apply allocateInode_fresh |]. auto.
  - unfold storeParent. case_decide; [lia |]. simpl.
    rewrite length_insert, length_app. simpl. lia.
  - unfold storeParent. case_decide; [lia |]. simpl.
    apply list_lookup_insert_eq. rewrite length_app. lia.
Qed.

Lemma CreateSymlink_existing now fs op parent c :
  freeInodes fs = [] ->
  inodes fs !! csParent op = Some (Some parent) -> isDir parent = true ->
  findChild (entries parent) (csName op) = Some c ->
  exists fs' op',
    CreateSymlink now fs op = Done (fs', op', None) /\
    length (inodes fs') = S (length (inodes fs)) /\
    inodes fs' !! csParent op =
      Some (Some (withEntries parent
                    (entries parent ++
                     [mkDirent (length (inodes fs)) (csName op) DT_Link]))).
Proof.
  intros Hfree Hp Hd Hc.
  assert (Hpl : (csParent op < length (inodes fs))%nat)
    by now apply lookup_lt_Some in Hp.
  eexists. eexists. split; [| split].
  - apply CreateSymlink_Done. exists parent. eexists. eexists. simpl.
    split; [exact Hp |]. split; [exact Hd |].
    split; [now apply allocateInode_fresh |]. auto.
  - unfold storeParent. case_decide; [lia |]. simpl.
    rewrite !length_insert, length_app. simpl. lia.
  - unfold storeParent. case_decide; [lia |]. simpl.
    apply list_lookup_insert_eq. rewrite length_insert, length_app. lia.
Qed.

(** ** C4: removal keeps the slot *)



(** ** C5: the refusals of [RmDir] *)

(** C5. In the states of the server, [RmDir] on a name whose inode is a
    directory with entries responds [ENOTEMPTY], and on a name the parent
    does not have responds [ENOENT]; in both cases the state, and so the
    entries of the parent and the attributes of the child, is the one
    before. *)
Theorem RmDir_refusals (fs : memFS) (now : Time) (op : RmDirOp)
    (parent : inode) :
  served fs ->
  inodes fs !! rdParent op = Some (Some parent) -> isDir parent = true ->
  (forall c child,
     findChild (entries parent) (rdName op) = Some c ->
     inodes fs !! c = Some (Some child) -> isDir child = true ->
     entries child ≠ [] ->
     RmDir now fs op = Done (fs, op, Some ENOTEMPTY)) /\
  (findChild (entries parent) (rdName op) = None ->
   RmDir now fs op = Done (fs, op, Some ENOENT)).
Proof.
  intros Hs Hp Hd. apply served_Linked in Hs as Hlk. split.
  - intros c child Hc Hch Hdc Hne.
    pose proof (findChild_elem _ _ _ Hc) as Hin.
    apply list_elem_of_fmap in Hin as (e & He & Hin).
    destruct (lk_child fs Hlk _ _ e Hp Hin) as (Hcp & _).
    rewrite <- He in Hcp.
    apply RmDir_Done. split; [reflexivity |]. exists parent.
    rewrite Hc. split; [exact Hp |]. split; [exact Hd |].
    split; [exact Hcp |]. exists child.
    split; [exact Hch |]. split; [exact Hdc |].
    destruct (entries child); [contradiction | auto].
  - intros Hnone. apply RmDir_Done. split; [reflexivity |].
    exists parent. rewrite Hnone. auto.
Qed.

(** ** C6: reading up to the end of a file *)

Lemma copy_front (dst src : list byte) :
  take (copy dst src).2 (copy dst src).1 = take (length dst) src.
Proof.
  unfold copy. simpl.
  rewrite take_app_length' by (rewrite length_take; lia).
  destruct (decide (length dst ≤ length src)%nat) as [Hle | Hgt].
  - now rewrite Nat.min_l by exact Hle.
  - rewrite Nat.min_r by lia. rewrite !take_ge by lia. reflexivity.
Qed.

Lemma ReadAt_file (i : inode) (p : list byte) (off : nat) :
  isFile i = true ->
  exists p' n,
    ReadAt i p off =
      Done (p', n,
            if decide (0 < length p /\ length (contents i) < off + length p)%nat
            then Some EOF else None) /\
    take n p' = take (length p) (drop off (contents i)).
Proof.
  intros Hf. unfold ReadAt. rewrite Hf.
  pose proof (copy_front p (drop off (contents i))) as Hcopy.
  destruct (copy p (drop off (contents i))) as [p' n]. simpl in Hcopy.
  exists p', n. auto.
Qed.

(** C6. [ReadFile] on a file responds without error, whatever the range:
    the data are the bytes of the file in the range, none when the range
    starts at or after the end of the file, and the bytes from the offset
    to the end when the range runs over the end. The content layer signals
    [EOF] for such ranges, and the method responds with no error. *)
Theorem ReadFile_no_EOF (now : Time) (fs : memFS) (op : ReadFileOp)
    (f : inode) :
  inodes fs !! rfInode op = Some (Some f) -> isFile f = true ->
  let data := take (rfSize op) (drop (rfOffset op) (contents f)) in
  ReadFile now fs op =
    Done (fs, mkReadFileOp (rfInode op) (rfOffset op) (rfSize op) data, None) /\
  ((length (contents f) <= rfOffset op)%nat -> data = []) /\
  ((rfOffset op < length (contents f) < rfOffset op + rfSize op)%nat ->
   data = drop (rfOffset op) (contents f) /\
   length data = (length (contents f) - rfOffset op)%nat) /\
  ((0 < rfSize op)%nat ->
   (length (contents f) < rfOffset op + rfSize op)%nat ->
   exists p' n,
     ReadAt f (replicate (rfSize op) zeroByte) (rfOffset op) =
       Done (p', n, Some EOF)).
Proof.
  intros Hi Hf data.
  destruct (ReadAt_file f (replicate (rfSize op) zeroByte) (rfOffset op) Hf)
    as (p' & n & Hread & Hdata).
  rewrite length_replicate in Hread, Hdata.
  split; [| split; [| split]].
  - unfold ReadFile.
    pose proof (proj2 (getInode_first fs (rfInode op) f Hi)) as Hget.
    rewrite Hget. simpl. rewrite Hread. simpl. rewrite Hdata.
    fold data. f_equal. f_equal.
    repeat case_decide; congruence.
  - intros Hle. unfold data. rewrite drop_ge by exact Hle. apply take_nil.
  - intros [Hlt Hover]. unfold data.
    rewrite take_ge by (rewrite length_drop; lia).
    split; [reflexivity | apply length_drop].
  - intros Hpos Hover. exists p', n. rewrite Hread.
    case_decide as Hc; [reflexivity |]. exfalso. apply Hc. lia.
Qed.

(** [ReadFile] never responds with an error. *)
Lemma ReadFile_error_free now fs op fs' op' err :
  ReadFile now fs op = Done (fs', op', err) -> err = None.
Proof.
  unfold ReadFile. intros H.
  apply bind_Done in H as (f & Hf & H).
  apply bind_Done in H as ([[p' n] e] & Hr & H).
  injection H as _ _ <-.
  unfold ReadAt in Hr. destruct (isFile f); [| discriminate].
  destruct (copy _ _) as [p1 n1]. injection Hr as _ _ <-.
  repeat case_decide; congruence.
Qed.

(** ** C7: writing, with a gap of zeros *)

Lemma WriteAt_file (i : inode) (p : list byte) (off : nat) :
  isFile i = true ->
  let g := contents i ++
           replicate (off + length p - length (contents i)) zeroByte in
  exists i',
    WriteAt i p off = Done (i', length p, None) /\
    contents i' = take off g ++ p ++ drop (off + length p) g /\
    kind i' = kind i.
Proof.
  intros Hf g. unfold WriteAt. rewrite Hf.
  assert (Hg : (if decide (length (contents i) < off + length p)%nat
                then contents i ++
                     replicate (off + length p - length (contents i)) zeroByte
                else contents i) = g).
  { unfold g. case_decide as Hlt; [reflexivity |].
    replace (off + length p - length (contents i))%nat with 0%nat by lia.
    simpl. now rewrite app_nil_r. }
  rewrite Hg.
  assert (Hlen : (off + length p <= length g)%nat).
  { unfold g. rewrite length_app, length_replicate. lia. }
  unfold copy. rewrite length_drop.
  replace (Nat.min (length g - off) (length p)) with (length p) by lia.
  rewrite firstn_all, drop_drop.
  eexists. split; [reflexivity |].
  case_decide; simpl; auto.
Qed.

(** C7. [WriteFile] on a file writes all the data at the offset and
    responds without error: the content is as long as the larger of its
    former length and offset + len(data), it holds the data from the
    offset on, zeros between the former end and the offset, and the
    former bytes everywhere else. *)
Theorem WriteFile_full (now : Time) (fs : memFS) (op : WriteFileOp)
    (f : inode) :
  inodes fs !! wfInode op = Some (Some f) -> isFile f = true ->
  exists f',
    WriteFile now fs op = Done (store fs (wfInode op) f', op, None) /\
    length (contents f') =
      Nat.max (length (contents f)) (wfOffset op + length (wfData op)) /\
    (forall i, (i < length (wfData op))%nat ->
               contents f' !! (wfOffset op + i)%nat = wfData op !! i) /\
    (forall i, (length (contents f) <= i < wfOffset op)%nat ->
               contents f' !! i = Some zeroByte) /\
    (forall i, (i < wfOffset op)%nat -> (i < length (contents f))%nat ->
               contents f' !! i = contents f !! i) /\
    (forall i, (wfOffset op + length (wfData op) <= i)%nat ->
               contents f' !! i = contents f !! i).
Proof.
  intros Hi Hf.
  destruct (WriteAt_file f (wfData op) (wfOffset op) Hf)
    as (f' & Hw & Hc & _).
  set (off := wfOffset op) in *. set (p := wfData op) in *.
  set (c := contents f) in *.
  set (g := c ++ replicate (off + length p - length c) zeroByte) in *.
  assert (Hlen : length g = Nat.max (length c) (off + length p)).
  { unfold g. rewrite length_app, length_replicate. lia. }
  assert (Htake : length (take off g) = off).
  { rewrite length_take. lia. }
  exists f'. split; [| split; [| split; [| split; [| split]]]].
  - unfold WriteFile.
    pose proof (proj1 (getInode_first fs (wfInode op) f Hi)) as Hget.
    rewrite Hget. simpl. fold off p. rewrite Hw. reflexivity.
  - rewrite Hc, !length_app, Htake, length_drop. lia.
  - intros i Hlt. rewrite Hc.
    rewrite lookup_app_r by lia. rewrite Htake.
    replace (off + i - off)%nat with i by lia.
    now rewrite lookup_app_l by exact Hlt.
  - intros i [Hge Hlt]. rewrite Hc.
    rewrite lookup_app_l by lia. rewrite lookup_take_lt by exact Hlt.
    unfold g. rewrite lookup_app_r by exact Hge.
    apply lookup_replicate_2. lia.
  - intros i Hlt Hlc. rewrite Hc.
    rewrite lookup_app_l by lia. rewrite lookup_take_lt by exact Hlt.
    unfold g. now rewrite lookup_app_l by exact Hlc.
  - intros i Hge. rewrite Hc.
    rewrite lookup_app_r by lia. rewrite Htake.
    rewrite lookup_app_r by lia. rewrite lookup_drop.
    replace (off + length p + (i - off - length p))%nat with i by lia.
    unfold g. destruct (decide (i < length c)%nat) as [Hlc | Hlc].
    + now rewrite lookup_app_l by exact Hlc.
    + rewrite lookup_app_r by lia.
      rewrite (lookup_ge_None_2 c) by lia.
      apply lookup_replicate_None. lia.
Qed.

(** ** C8: what the consistency check lets through *)

Lemma twiceFree_lookup root i :
  inodes (twiceFree root) !! (RootInodeID + i)%nat
  = [Some root; None; None] !! i.
Proof.
  unfold twiceFree. simpl. rewrite lookup_app_r by (rewrite length_replicate; lia).
  rewrite length_replicate. f_equal. lia.
Qed.

Lemma twiceFree_seen root :
  freeIDsEncountered (inodes (twiceFree root))
  = list_to_set [S RootInodeID; S (S RootInodeID)].
Proof.
  apply set_eq. intros i.
  rewrite elem_of_freeIDsEncountered, elem_of_list_to_set.
  rewrite !elem_of_cons, elem_of_nil. split.
  - intros [Hgt Hvac].
    replace i with (RootInodeID + (i - RootInodeID))%nat in Hvac by lia.
    rewrite twiceFree_lookup in Hvac.
    destruct (i - RootInodeID)%nat as [| [| [| k]]] eqn:Hk;
      simpl in Hvac; try discriminate; lia.
  - intros [-> | [-> | []]].
    + split; [lia |].
      replace (S RootInodeID) with (RootInodeID + 1)%nat by lia.
      now rewrite twiceFree_lookup.
    + split; [lia |].
      replace (S (S RootInodeID)) with (RootInodeID + 2)%nat by lia.
      now rewrite twiceFree_lookup.
Qed.

(** A table that passes the check without the invariants. On the table
    whose slots [RootInodeID + 1] and [RootInodeID + 2] are vacant and
    whose free list is [RootInodeID + 1] twice, [checkInvariants] returns
    without a panic,
    although the free list is not the set of the vacant slots above the
    root: slot [RootInodeID + 2] is vacant and not on the list, and the
    invariants do not hold. *)
Lemma checkInvariants_misses_duplicates (now : Time) :
  let root := newInode now (withMode zeroAttrs (Z.lor 448 ModeDir)) in
  let fs := twiceFree root in
  checkInvariants fs = Done tt /\
  inodes fs !! S (S RootInodeID) = Some None /\
  (S (S RootInodeID) ∉ freeInodes fs) /\
  ~ NoDup (freeInodes fs) /\
  ~ Invariants fs.
Proof.
  intros root fs.
  assert (Hvac : inodes fs !! S (S RootInodeID) = Some None).
  { replace (S (S RootInodeID)) with (RootInodeID + 2)%nat by lia.
    unfold fs. now rewrite twiceFree_lookup. }
  assert (Hnotin : S (S RootInodeID) ∉ freeInodes fs).
  { unfold fs. simpl. rewrite !not_elem_of_cons. repeat split; try lia.
    apply not_elem_of_nil. }
  split; [| split; [exact Hvac | split; [exact Hnotin | split]]].
  - apply checkInvariants_Done. split; [| split; [| split]].
    + intros i Hi. unfold fs, twiceFree. simpl.
      rewrite lookup_app_l by (rewrite length_replicate; lia).
      now apply lookup_replicate_2.
    + exists root. split; [| reflexivity].
      replace RootInodeID with (RootInodeID + 0)%nat at 1 by lia.
      unfold fs. now rewrite twiceFree_lookup.
    + unfold fs. rewrite twiceFree_seen. rewrite size_list_to_set.
      * reflexivity.
      * apply NoDup_cons. split; [| apply NoDup_singleton].
        rewrite list_elem_of_singleton. lia.
    + intros id Hid. unfold fs in *. rewrite twiceFree_seen.
      apply elem_of_list_to_set. simpl in Hid.
      rewrite !elem_of_cons in Hid. rewrite !elem_of_cons.
      destruct Hid as [-> | [-> | Hid]]; auto.
  - unfold fs. simpl. intros Hnd. apply NoDup_cons in Hnd as [Hnd _].
    apply Hnd, list_elem_of_here.
  - intros Hinv. apply Hnotin. apply (inv_free fs Hinv).
    split; [lia | exact Hvac].
Qed.

(** ** C9: the response of [LookUpInode] *)

Lemma LookUpInode_missing now fs op parent :
  inodes fs !! luParent op = Some (Some parent) -> isDir parent = true ->
  findChild (entries parent) (luName op) = None ->
  LookUpInode now fs op = Done (fs, op, Some ENOENT).
Proof.
  intros Hp Hd Hnone. unfold LookUpInode.
  pose proof (proj2 (getInode_first fs (luParent op) parent Hp)) as Hget.
  rewrite Hget. simpl. unfold LookUpChild, requireDir. rewrite Hd. simpl.
  now rewrite Hnone.
Qed.

(** When the name is found, the entry of the response has the child, its
    attributes and the expiration of the attributes; its
    [EntryExpiration] is the one the request came with. *)
Lemma LookUpInode_found now fs op parent c child :
  inodes fs !! luParent op = Some (Some parent) -> isDir parent = true ->
  findChild (entries parent) (luName op) = Some c -> c ≠ luParent op ->
  inodes fs !! c = Some (Some child) ->
  LookUpInode now fs op =
    Done (fs,
          mkLookUpInodeOp (luParent op) (luName op)
            (mkEntry c (attrs child) (now + cacheFor)
                     (EntryExpiration (luEntry op))),
          None).
Proof.
  intros Hp Hd Hc Hne Hch. unfold LookUpInode.
  pose proof (proj2 (getInode_first fs (luParent op) parent Hp)) as Hget.
  rewrite Hget. simpl. unfold LookUpChild, requireDir. rewrite Hd. simpl.
  rewrite Hc.
  assert (Hget' : getInodeForReadingOrDie [luParent op] fs c = Done child).
  { apply getInodeForReadingOrDie_Done. split; [exact Hch |].
    intros Hin. apply list_elem_of_singleton in Hin. contradiction. }
  rewrite Hget'. reflexivity.
Qed.

(** ** C10: the root inode *)

(** C10. The root made by [NewMemFS] has mode 0700 with the directory
    bit, the owner given to the constructor and a link count of zero, and
    [GetInodeAttributes] on [RootInodeID] reports these; the inode of a
    directory made by [MkDir] has a link count of one. *)
Theorem root_attributes (uid gid : Z) (now now' : Time) :
  let rootAttrs :=
    mkAttrs 0 0 (Z.lor 448 ModeDir) zeroTime zeroTime zeroTime zeroTime
            uid gid in
  inodes (NewMemFS uid gid now) !! RootInodeID
    = Some (Some (newInode now rootAttrs)) /\
  Z.land (Mode rootAttrs) 511 = 448 /\
  Z.land (Mode rootAttrs) ModeDir = ModeDir /\
  isDir (newInode now rootAttrs) = true /\
  Uid rootAttrs = uid /\ Gid rootAttrs = gid /\ Nlink rootAttrs = 0 /\
  (forall op,
     gaInode op = RootInodeID ->
     GetInodeAttributes now' (NewMemFS uid gid now) op =
       Done (NewMemFS uid gid now,
             mkGetInodeAttributesOp RootInodeID rootAttrs (now' + cacheFor),
             None)) /\
  (forall fs op fs' op' err,
     MkDir now' fs op = Done (fs', op', err) ->
     Nlink (Attributes (mdEntry op')) = 1 /\
     exists child, inodes fs' !! Child (mdEntry op') = Some (Some child) /\
                   Nlink (attrs child) = 1).
Proof.
  intros rootAttrs.
  assert (Hroot : inodes (NewMemFS uid gid now) !! RootInodeID
                  = Some (Some (newInode now rootAttrs))).
  { unfold NewMemFS. simpl. apply list_lookup_insert_eq.
    rewrite length_replicate. lia. }
  split; [exact Hroot |].
  repeat (split; [reflexivity |]).
  split.
  - intros op Hop. unfold GetInodeAttributes.
    assert (Hget : getInodeForReadingOrDie [] (NewMemFS uid gid now)
                     (gaInode op) = Done (newInode now rootAttrs)).
    { apply getInodeForReadingOrDie_Done. rewrite Hop.
      split; [exact Hroot | apply not_elem_of_nil]. }
    rewrite Hget. simpl. now rewrite Hop.
  - intros fs op fs' op' err H.
    apply MkDir_Done in H
      as (parent & id & fs1 & Hp & Hd & Halloc & -> & -> & _). simpl.
    split; [reflexivity |].
    pose proof (allocateInode_slot _ _ _ _ _ _ Halloc) as Hid.
    unfold storeParent. case_decide as Hidp.
    + eexists. split; [exact Hid | reflexivity].
    + eexists. rewrite store_lookup_ne by auto.
      split; [exact Hid | reflexivity].
Qed.


(** * Further properties of the table and of the methods *)

(** ** The consistency check, exactly *)

(** X1. [checkInvariants] returns without a panic exactly when the slots
    below the root are vacant, the root slot holds a directory, the free
    list is as long as the set of vacant slots above the root, and every
    ID on it is such a slot. When no ID is twice on the free list, this is
    exactly the invariants of the table. *)
Theorem checkInvariants_exact (fs : memFS) :
  (checkInvariants fs = Done tt <->
   (forall i, (i < RootInodeID)%nat -> inodes fs !! i = Some None) /\
   (exists r, inodes fs !! RootInodeID = Some (Some r) /\ isDir r = true) /\
   length (freeInodes fs) = size (freeIDsEncountered (inodes fs)) /\
   (forall id, id ∈ freeInodes fs ->
               (RootInodeID < id)%nat /\ inodes fs !! id = Some None)) /\
  (NoDup (freeInodes fs) ->
   (checkInvariants fs = Done tt <-> Invariants fs)).
Proof.
  split.
  - rewrite checkInvariants_Done. split.
    + intros (Hres & Hroot & Hlen & Hfree).
      split; [exact Hres |]. split; [exact Hroot |]. split; [exact Hlen |].
      intros id Hid. now apply elem_of_freeIDsEncountered, Hfree.
    + intros (Hres & Hroot & Hlen & Hfree).
      split; [exact Hres |]. split; [exact Hroot |]. split; [exact Hlen |].
      intros id Hid. now apply elem_of_freeIDsEncountered, Hfree.
  - intros Hnd. split.
    + now apply check_NoDup_Invariants.
    + apply Invariants_check.
Qed.

(** ** Allocation *)

(** X2. Under the invariants [allocateInode] always returns; the ID it
    returns is above the root and was not in use (a vacant slot, or the
    end of the table); the new inode is in that slot, every other slot is
    as before, and the invariants hold after it. *)
Theorem allocateInode_unused (now : Time) (fs : memFS) (a : InodeAttributes) :
  Invariants fs ->
  exists id fs',
    allocateInode now fs a = Done (id, newInode now a, fs') /\
    (RootInodeID < id)%nat /\
    (inodes fs !! id = Some None \/ id = length (inodes fs)) /\
    inodes fs' !! id = Some (Some (newInode now a)) /\
    (forall j, j ≠ id -> (j < length (inodes fs))%nat ->
               inodes fs' !! j = inodes fs !! j) /\
    Invariants fs'.
Proof.
  intros Hinv.
  assert (Hdone : exists id fs',
            allocateInode now fs a = Done (id, newInode now a, fs') /\
            (inodes fs !! id = Some None \/ id = length (inodes fs))).
  { assert (Hcases : freeInodes fs = [] \/
                     exists l x, freeInodes fs = l ++ [x]).
    { destruct (freeInodes fs) as [| x l _] using rev_ind; eauto. }
    destruct Hcases as [Hfree | (l & x & Hfree)].
    - eexists. eexists. split; [now apply allocateInode_fresh | auto].
    - assert (Hx : x ∈ freeInodes fs).
      { rewrite Hfree, elem_of_app, list_elem_of_singleton. auto. }
      apply (inv_free fs Hinv) in Hx as [_ Hvac].
      eexists. eexists. split; [| left; exact Hvac].
      apply allocateInode_reuse; [exact Hfree |].
      now apply lookup_lt_Some in Hvac. }
  destruct Hdone as (id & fs' & Hdone & Hwas).
  destruct (Invariants_allocateInode _ _ _ _ _ _ Hinv Hdone)
    as (Hinv' & Hgt & Hid & Hsame & _).
  exists id, fs'. auto 10.
Qed.

Lemma tableRun_deallocate fs ids fs1 :
  tableRun fs (Deallocate <$> ids) = Done fs1 ->
  freeInodes fs1 = freeInodes fs ++ ids /\
  length (inodes fs1) = length (inodes fs) /\
  Forall (fun id => (id < length (inodes fs))%nat) ids.
Proof.
  revert fs. induction ids as [| id ids IH]; intros fs H; simpl in H.
  - injection H as <-. rewrite app_nil_r. auto.
  - apply bind_Done in H as (fs0 & Hd & H).
    apply deallocateInode_Done in Hd as [Hlt ->].
    apply IH in H as (Hfree & Hlen & Hall). simpl in *.
    rewrite length_insert in Hlen, Hall.
    rewrite Hfree, <- app_assoc. auto.
Qed.

Lemma allocateAll_pops ids : forall fs1 l reqs,
  freeInodes fs1 = l ++ ids ->
  Forall (fun id => (id < length (inodes fs1))%nat) ids ->
  length reqs = length ids ->
  exists fs2,
    allocateAll fs1 reqs = Done (rev ids, fs2) /\
    freeInodes fs2 = l /\ length (inodes fs2) = length (inodes fs1).
Proof.
  induction ids as [| x ids IH] using rev_ind; intros fs1 l reqs Hfree Hall Hlen.
  - destruct reqs; [| discriminate]. rewrite app_nil_r in Hfree.
    exists fs1. auto.
  - rewrite length_app in Hlen. simpl in Hlen.
    destruct reqs as [| [now a] reqs]; [simpl in Hlen; lia |].
    apply Forall_app in Hall as [Hall Hx].
    apply Forall_inv in Hx.
    rewrite app_assoc in Hfree.
    pose proof (allocateInode_reuse now fs1 a _ x Hfree Hx) as Halloc.
    destruct (IH (mkMemFS (<[x := Some (newInode now a)]> (inodes fs1))
                          (l ++ ids)) l reqs) as (fs2 & Hrun & Hf2 & Hl2).
    + reflexivity.
    + simpl. rewrite length_insert. exact Hall.
    + simpl in Hlen. lia.
    + exists fs2. simpl. rewrite Halloc. simpl. rewrite Hrun. simpl.
      rewrite rev_app_distr. simpl in *. rewrite length_insert in Hl2. auto.
Qed.

(** X3. IDs come back in the reverse of the order in which they were
    freed: after [deallocateInode] of the IDs of a list, one after the
    other, as many calls of [allocateInode] return the list reversed, and
    leave the free list and the length of the table as they were. *)
Theorem allocateAll_reverse (fs fs1 : memFS) (ids : list InodeID)
    (reqs : list (Time * InodeAttributes)) :
  tableRun fs (Deallocate <$> ids) = Done fs1 ->
  length reqs = length ids ->
  exists fs2,
    allocateAll fs1 reqs = Done (rev ids, fs2) /\
    freeInodes fs2 = freeInodes fs /\
    length (inodes fs2) = length (inodes fs).
Proof.
  intros Hrun Hlen.
  apply tableRun_deallocate in Hrun as (Hfree & Hl & Hall).
  rewrite <- Hl in Hall.
  destruct (allocateAll_pops ids fs1 (freeInodes fs) reqs Hfree Hall Hlen)
    as (fs2 & Hrun & Hf & Hl2).
  exists fs2. rewrite Hl2, Hl. auto.
Qed.

(** ** What no method does *)

Lemma moves_keeps fs fs' :
  moves fs fs' ->
  (length (inodes fs) <= length (inodes fs') <= S (length (inodes fs)))%nat /\
  (forall id i, inodes fs !! id = Some (Some i) ->
                exists i', inodes fs' !! id = Some (Some i')).
Proof.
  intros Hmv.
  destruct Hmv as [| id i i' Hi Hk _ _
                   | now a p parent id child fs1 name dt t Hp _ Halloc
                   | p parent name c child Hp _ Hne Hc].
  - split; [lia | eauto].
  - simpl. rewrite length_insert. split; [lia |].
    intros j x Hj. destruct (decide (j = id)) as [-> | Hne].
    + rewrite list_lookup_insert_eq by now apply lookup_lt_Some in Hj. eauto.
    + rewrite list_lookup_insert_ne by auto. eauto.
  - assert (Hstep : (length (inodes fs) <= length (inodes fs1)
                     <= S (length (inodes fs)))%nat /\
                    forall j x, inodes fs !! j = Some (Some x) ->
                                exists x', inodes fs1 !! j = Some (Some x')).
    { apply allocateInode_Done in Halloc
        as [_ [(l & _ & Hlt & ->) | (_ & -> & ->)]]; simpl.
      - rewrite length_insert. split; [lia |].
        intros j x Hj. destruct (decide (j = id)) as [-> | Hne].
        + rewrite list_lookup_insert_eq by exact Hlt. eauto.
        + rewrite list_lookup_insert_ne by auto. eauto.
      - rewrite length_app. simpl. split; [lia |].
        intros j x Hj. rewrite lookup_app_l by now apply lookup_lt_Some in Hj.
        eauto. }
    destruct Hstep as [Hlen Hocc].
    assert (Hst : forall (g : memFS) k (x : inode),
              length (inodes (store g k x)) = length (inodes g) /\
              forall j y, inodes g !! j = Some (Some y) ->
                          exists y', inodes (store g k x) !! j = Some (Some y')).
    { intros g k x. simpl. rewrite length_insert. split; [reflexivity |].
      intros j y Hj. destruct (decide (j = k)) as [-> | Hne].
      - rewrite list_lookup_insert_eq by now apply lookup_lt_Some in Hj. eauto.
      - rewrite list_lookup_insert_ne by auto. eauto. }
    unfold storeParent. case_decide.
    + destruct (Hst fs1 id (withTarget child t)) as [Hl1 Ho1].
      rewrite Hl1. split; [exact Hlen |].
      intros j x Hj. destruct (Hocc j x Hj) as (x' & Hx'). eauto.
    + destruct (Hst fs1 id (withTarget child t)) as [Hl1 Ho1].
      destruct (Hst (store fs1 id (withTarget child t)) p
                    (withEntries parent
                       (entries parent ++ [mkDirent id name dt])))
        as [Hl2 Ho2].
      rewrite Hl2, Hl1. split; [exact Hlen |].
      intros j x Hj. destruct (Hocc j x Hj) as (x' & Hx').
      destruct (Ho1 j x' Hx') as (x'' & Hx''). eauto.
  - simpl. rewrite !length_insert. split; [lia |].
    intros j x Hj. destruct (decide (j = c)) as [-> | Hjc].
    + rewrite list_lookup_insert_eq
        by (rewrite length_insert; now apply lookup_lt_Some in Hj). eauto.
    + rewrite list_lookup_insert_ne by auto.
      destruct (decide (j = p)) as [-> | Hjp].
      * rewrite list_lookup_insert_eq by now apply lookup_lt_Some in Hj. eauto.
      * rewrite list_lookup_insert_ne by auto. eauto.
Qed.

(** X4. No method takes an inode out of the table: after a method that
    returns, the table is as long as before or one slot longer, and every
    ID that resolved to an inode before the call resolves to one after
    it. *)
Theorem exec_keeps_inodes (now : Time) (fs fs' : memFS) (c c' : call)
    (err : option error) :
  exec now fs c = Done (fs', c', err) ->
  (length (inodes fs) <= length (inodes fs') <= S (length (inodes fs)))%nat /\
  (forall id i, inodes fs !! id = Some (Some i) ->
                exists i', inodes fs' !! id = Some (Some i')).
Proof. intros H. apply moves_keeps. now apply exec_moves in H. Qed.

(** X5. A method given the ID of a vacant slot stops the process with
    "Unknown inode", and one given an ID beyond the table stops it with
    the index fault of the run time; no method responds with an error for
    an inode that does not exist. *)
Theorem exec_unknown_inode (now : Time) (fs : memFS) (c : call) (id : InodeID) :
  firstInode c = Some id ->
  (inodes fs !! id = Some None -> exec now fs c = Panic "Unknown inode") /\
  (inodes fs !! id = None -> exec now fs c = Panic "index out of range").
Proof.
  intros Hc. split; intros Hid; destruct c; simpl in Hc; try discriminate;
    injection Hc as <-; simpl;
    unfold LookUpInode, GetInodeAttributes, SetInodeAttributes, MkDir,
           CreateFile, CreateSymlink, RmDir, Unlink, OpenDir, ReadDir,
           OpenFile, ReadFile, WriteFile, ReadSymlink,
           getInodeForReadingOrDie, getInodeForModifyingOrDie;
    rewrite Hid; reflexivity.
Qed.

(** X6. The reading methods ([Init], [LookUpInode], [GetInodeAttributes],
    [OpenDir], [ReadDir], [OpenFile], [ReadFile], [ReadSymlink]) leave the
    state as it is. *)
Theorem readOnly_same_state (now : Time) (fs fs' : memFS) (c c' : call)
    (err : option error) :
  readOnly c = true -> exec now fs c = Done (fs', c', err) -> fs' = fs.
Proof.
  intros Hro H. destruct c; simpl in Hro; try discriminate; simpl in H.
  - now injection H as <- _ _.
  - method_run H Hop. unfold LookUpInode in Hop.
    apply bind_Done in Hop as (i & _ & Hop).
    apply bind_Done in Hop as (found & _ & Hop).
    destruct found as [ch |].
    + apply bind_Done in Hop as (x & _ & Hop). now injection Hop as <- _ _.
    + now injection Hop as <- _ _.
  - method_run H Hop. unfold GetInodeAttributes in Hop.
    apply bind_Done in Hop as (i & _ & Hop). now injection Hop as <- _ _.
  - method_run H Hop. unfold OpenDir in Hop.
    apply bind_Done in Hop as (i & _ & Hop).
    destruct (negb (isDir i)); [discriminate |]. now injection Hop as <- _.
  - method_run H Hop. unfold ReadDir in Hop.
    apply bind_Done in Hop as (i & _ & Hop).
    apply bind_Done in Hop as ([data e2] & _ & Hop).
    now injection Hop as <- _ _.
  - method_run H Hop. unfold OpenFile in Hop.
    apply bind_Done in Hop as (i & _ & Hop).
    destruct (negb (isFile i)); [discriminate |]. now injection Hop as <- _.
  - method_run H Hop. unfold ReadFile in Hop.
    apply bind_Done in Hop as (i & _ & Hop).
    apply bind_Done in Hop as ([[data n] e2] & _ & Hop).
    now injection Hop as <- _ _.
  - method_run H Hop. unfold ReadSymlink in Hop.
    apply bind_Done in Hop as (i & _ & Hop). now injection Hop as <- _ _.
Qed.

Lemma WriteAt_no_error i p off i' n err :
  WriteAt i p off = Done (i', n, err) -> err = None.
Proof.
  unfold WriteAt. destruct (isFile i); [| discriminate].
  destruct (copy _ p) as [tl m]. intros H. now injection H as _ _ <-.
Qed.

(** X7. A method that responds with an error has changed nothing: the
    state and the request are the ones before the call, and the error is
    [ENOENT], [EEXIST] or [ENOTEMPTY]. *)
Theorem exec_error_same_state (now : Time) (fs fs' : memFS) (c c' : call)
    (e : error) :
  exec now fs c = Done (fs', c', Some e) ->
  fs' = fs /\ c' = c /\ (e = ENOENT \/ e = EEXIST \/ e = ENOTEMPTY).
Proof.
  intros H. destruct c; simpl in H.
  - discriminate.
  - apply bind_Done in H as ([[fs1 op1] e1] & Hop & H).
    injection H as <- <- ->. unfold LookUpInode in Hop.
    apply bind_Done in Hop as (i & _ & Hop).
    apply bind_Done in Hop as (found & _ & Hop).
    destruct found as [ch |].
    + apply bind_Done in Hop as (x & _ & Hop). discriminate.
    + injection Hop as <- <- <-. auto.
  - apply bind_Done in H as ([[fs1 op1] e1] & Hop & H).
    injection H as <- <- ->. unfold GetInodeAttributes in Hop.
    apply bind_Done in Hop as (i & _ & Hop). discriminate.
  - apply bind_Done in H as ([[fs1 op1] e1] & Hop & H).
    injection H as <- <- ->. unfold SetInodeAttributes in Hop.
    apply bind_Done in Hop as (i & _ & Hop). discriminate.
  - apply bind_Done in H as ([[fs1 op1] e1] & Hop & H).
    injection H as <- <- ->. apply MkDir_no_error in Hop. discriminate.
  - apply bind_Done in H as ([[fs1 op1] e1] & Hop & H).
    injection H as <- <- ->.
    apply CreateFile_Done in Hop as (parent & _ & _ & Hop).
    destruct (findChild (entries parent) (cfName op)) as [ch |].
    + destruct Hop as (-> & -> & He). injection He as <-. auto.
    + destruct Hop as (id & fs2 & _ & _ & _ & He). discriminate.
  - apply bind_Done in H as ([[fs1 op1] e1] & Hop & H).
    injection H as <- <- ->. apply CreateSymlink_no_error in Hop.
    discriminate.
  - apply bind_Done in H as ([[fs1 op1] e1] & Hop & H).
    injection H as <- <- ->.
    apply RmDir_Done in Hop as (-> & parent & _ & _ & Hop).
    destruct (findChild (entries parent) (rdName op)) as [ch |].
    + destruct Hop as (_ & child & _ & _ & Hop).
      destruct (entries child).
      * destruct Hop as [He _]. discriminate.
      * destruct Hop as [-> He]. injection He as <-. auto.
    + destruct Hop as [-> He]. injection He as <-. auto.
  - apply bind_Done in H as ([[fs1 op1] e1] & Hop & H).
    injection H as <- <- ->.
    apply Unlink_Done in Hop as (-> & parent & _ & _ & Hop).
    destruct (findChild (entries parent) (ulName op)) as [ch |].
    + destruct Hop as (_ & child & _ & He & _). discriminate.
    + destruct Hop as [-> He]. injection He as <-. auto.
  - apply bind_Done in H as ([fs1 e1] & Hop & H).
    injection H as <- <- ->. unfold OpenDir in Hop.
    apply bind_Done in Hop as (i & _ & Hop).
    destruct (negb (isDir i)); discriminate.
  - apply bind_Done in H as ([[fs1 op1] e1] & Hop & H).
    injection H as <- <- ->. unfold ReadDir in Hop.
    apply bind_Done in Hop as (i & _ & Hop).
    apply bind_Done in Hop as ([data e2] & Hrd & Hop).
    injection Hop as _ _ ->. unfold ReadDirContent in Hrd.
    apply requireDir_Done in Hrd as [_ Hrd]. discriminate.
  - apply bind_Done in H as ([fs1 e1] & Hop & H).
    injection H as <- <- ->. unfold OpenFile in Hop.
    apply bind_Done in Hop as (i & _ & Hop).
    destruct (negb (isFile i)); discriminate.
  - apply bind_Done in H as ([[fs1 op1] e1] & Hop & H).
    injection H as <- <- ->. apply ReadFile_error_free in Hop. discriminate.
  - apply bind_Done in H as ([[fs1 op1] e1] & Hop & H).
    injection H as <- <- ->. unfold WriteFile in Hop.
    apply bind_Done in Hop as (i & _ & Hop).
    apply bind_Done in Hop as ([[i' n] e2] & Hw & Hop).
    injection Hop as _ _ ->. apply WriteAt_no_error in Hw. discriminate.
  - apply bind_Done in H as ([[fs1 op1] e1] & Hop & H).
    injection H as <- <- ->. unfold ReadSymlink in Hop.
    apply bind_Done in Hop as (i & _ & Hop). discriminate.
Qed.

(** ** The IDs the server hands out *)

Lemma served_Invariants fs : served fs -> Invariants fs.
Proof.
  induction 1 as [uid gid now | fs now c fs' c' err _ IH Hexec].
  - apply Invariants_NewMemFS.
  - apply (moves_Invariants fs); [exact IH |]. now apply exec_moves in Hexec.
Qed.

(** X8. In the states of the server the free list is empty and every
    slot from the root on is occupied, so a creating method that returns
    (without error, for [CreateFile]) gives its child the ID that is the
    length of the table before the call, and makes the table one slot
    longer: IDs are handed out in increasing order and never again. *)
Theorem served_fresh_ids (fs : memFS) (now : Time) :
  served fs ->
  freeInodes fs = [] /\
  (forall i, (RootInodeID <= i < length (inodes fs))%nat ->
             exists ino, inodes fs !! i = Some (Some ino)) /\
  (forall op fs' op' err,
     MkDir now fs op = Done (fs', op', err) ->
     Child (mdEntry op') = length (inodes fs) /\
     length (inodes fs') = S (length (inodes fs))) /\
  (forall op fs' op',
     CreateFile now fs op = Done (fs', op', None) ->
     Child (cfEntry op') = length (inodes fs) /\
     length (inodes fs') = S (length (inodes fs))) /\
  (forall op fs' op' err,
     CreateSymlink now fs op = Done (fs', op', err) ->
     Child (csEntry op') = length (inodes fs) /\
     length (inodes fs') = S (length (inodes fs))).
Proof.
  intros Hs.
  pose proof (lk_free fs (served_Linked fs Hs)) as Hfree.
  pose proof (served_Invariants fs Hs) as Hinv.
  assert (Hfresh : forall now' a id i fs1 p parent,
            allocateInode now' fs a = Done (id, i, fs1) ->
            inodes fs !! p = Some (Some parent) ->
            id = length (inodes fs) /\
            forall x y, length (inodes (storeParent (store fs1 id x) p id y))
                        = S (length (inodes fs)) /\
                        length (inodes (storeParent fs1 p id y))
                        = S (length (inodes fs))).
  { intros now' a id i fs1 p parent Halloc Hp.
    apply allocateInode_Done in Halloc
      as [_ [(l & Hl & _) | (_ & -> & ->)]].
    { rewrite Hfree in Hl. now apply app_cons_not_nil in Hl. }
    split; [reflexivity |]. intros x y. unfold storeParent.
    apply lookup_lt_Some in Hp.
    case_decide; [lia |]. simpl.
    rewrite !length_insert, length_app. simpl. lia. }
  split; [exact Hfree |]. split; [| split; [| split]].
  - intros i [Hge Hlt].
    destruct (decide (i = RootInodeID)) as [-> | Hne].
    + destruct (inv_root fs Hinv) as (r & Hr & _). eauto.
    + destruct (lookup_lt_is_Some_2 (inodes fs) i Hlt) as ([ino |] & Hi);
        [eauto |].
      assert (Hin : i ∈ freeInodes fs).
      { apply (inv_free fs Hinv). split; [lia | exact Hi]. }
      rewrite Hfree in Hin. inversion Hin.
  - intros op fs' op' err H.
    apply MkDir_Done in H
      as (parent & id & fs1 & Hp & _ & Halloc & -> & -> & _).
    destruct (Hfresh _ _ _ _ _ _ _ Halloc Hp) as [-> Hlen].
    split; [reflexivity |]. apply (Hlen parent).
  - intros op fs' op' H.
    apply CreateFile_Done in H as (parent & Hp & _ & H).
    destruct (findChild (entries parent) (cfName op)).
    + destruct H as (_ & _ & H). discriminate.
    + destruct H as (id & fs1 & Halloc & -> & -> & _).
      destruct (Hfresh _ _ _ _ _ _ _ Halloc Hp) as [-> Hlen].
      split; [reflexivity |]. apply (Hlen parent).
  - intros op fs' op' err H.
    apply CreateSymlink_Done in H
      as (parent & id & fs1 & Hp & _ & Halloc & -> & -> & _).
    destruct (Hfresh _ _ _ _ _ _ _ Halloc Hp) as [-> Hlen].
    split; [reflexivity |]. simpl. apply Hlen.
Qed.

(** ** The responses *)

(** X9. Every method that fills attributes in its response lets them
    expire 365 days after the reading of the clock; the creating methods,
    like [LookUpInode], leave [EntryExpiration] as the request had it. *)
Theorem attributes_expiration (now : Time) (fs fs' : memFS) :
  (forall op op',
     GetInodeAttributes now fs op = Done (fs', op', None) ->
     gaAttributesExpiration op' = now + 365 * 24 * Hour) /\
  (forall op op',
     SetInodeAttributes now fs op = Done (fs', op', None) ->
     saAttributesExpiration op' = now + 365 * 24 * Hour) /\
  (forall op op',
     MkDir now fs op = Done (fs', op', None) ->
     AttributesExpiration (mdEntry op') = now + 365 * 24 * Hour /\
     EntryExpiration (mdEntry op') = EntryExpiration (mdEntry op)) /\
  (forall op op',
     CreateFile now fs op = Done (fs', op', None) ->
     AttributesExpiration (cfEntry op') = now + 365 * 24 * Hour /\
     EntryExpiration (cfEntry op') = EntryExpiration (cfEntry op)) /\
  (forall op op',
     CreateSymlink now fs op = Done (fs', op', None) ->
     AttributesExpiration (csEntry op') = now + 365 * 24 * Hour /\
     EntryExpiration (csEntry op') = EntryExpiration (csEntry op)).
Proof.
  split; [| split; [| split; [| split]]].
  - intros op op' H. unfold GetInodeAttributes in H.
    apply bind_Done in H as (i & _ & H). now injection H as _ <-.
  - intros op op' H. unfold SetInodeAttributes in H.
    apply bind_Done in H as (i & _ & H). now injection H as _ <-.
  - intros op op' H.
    apply MkDir_Done in H as (parent & id & fs1 & _ & _ & _ & _ & -> & _).
    split; reflexivity.
  - intros op op' H.
    apply CreateFile_Done in H as (parent & _ & _ & H).
    destruct (findChild (entries parent) (cfName op)).
    + destruct H as (_ & _ & H). discriminate.
    + destruct H as (id & fs1 & _ & _ & -> & _). split; reflexivity.
  - intros op op' H.
    apply CreateSymlink_Done in H
      as (parent & id & fs1 & _ & _ & _ & _ & -> & _).
    split; reflexivity.
Qed.

Lemma storeParent_child fs1 p id x y :
  inodes fs1 !! id = Some (Some x) ->
  inodes (storeParent fs1 p id y) !! id = Some (Some x).
Proof.
  intros H. unfold storeParent. case_decide; [exact H |].
  now rewrite store_lookup_ne by auto.
Qed.

Lemma GetInodeAttributes_slot now fs id a0 t0 i :
  inodes fs !! id = Some (Some i) ->
  GetInodeAttributes now fs (mkGetInodeAttributesOp id a0 t0) =
    Done (fs, mkGetInodeAttributesOp id (attrs i) (now + cacheFor), None).
Proof.
  intros H. unfold GetInodeAttributes. simpl.
  now rewrite (proj2 (getInode_first fs id i H)).
Qed.

(** X10. The attributes in the response of a creating method are the
    ones of the new inode: [GetInodeAttributes] on the child of the
    response, in the state after the call, reports exactly them. *)
Theorem create_then_GetInodeAttributes (now now' : Time) (fs fs' : memFS)
    (a0 : InodeAttributes) (t0 : Time) :
  (forall op op',
     MkDir now fs op = Done (fs', op', None) ->
     GetInodeAttributes now' fs'
       (mkGetInodeAttributesOp (Child (mdEntry op')) a0 t0) =
     Done (fs',
           mkGetInodeAttributesOp (Child (mdEntry op'))
             (Attributes (mdEntry op')) (now' + cacheFor), None)) /\
  (forall op op',
     CreateFile now fs op = Done (fs', op', None) ->
     GetInodeAttributes now' fs'
       (mkGetInodeAttributesOp (Child (cfEntry op')) a0 t0) =
     Done (fs',
           mkGetInodeAttributesOp (Child (cfEntry op'))
             (Attributes (cfEntry op')) (now' + cacheFor), None)) /\
  (forall op op',
     CreateSymlink now fs op = Done (fs', op', None) ->
     GetInodeAttributes now' fs'
       (mkGetInodeAttributesOp (Child (csEntry op')) a0 t0) =
     Done (fs',
           mkGetInodeAttributesOp (Child (csEntry op'))
             (Attributes (csEntry op')) (now' + cacheFor), None)).
Proof.
  split; [| split].
  - intros op op' H.
    apply MkDir_Done in H
      as (parent & id & fs1 & _ & _ & Halloc & -> & -> & _).
    apply allocateInode_slot in Halloc. simpl.
    now rewrite (GetInodeAttributes_slot now' _ id a0 t0 _
                   (storeParent_child _ _ _ _ _ Halloc)).
  - intros op op' H.
    apply CreateFile_Done in H as (parent & _ & _ & H).
    destruct (findChild (entries parent) (cfName op)).
    + destruct H as (_ & _ & H). discriminate.
    + destruct H as (id & fs1 & Halloc & -> & -> & _).
      apply allocateInode_slot in Halloc. simpl.
      now rewrite (GetInodeAttributes_slot now' _ id a0 t0 _
                     (storeParent_child _ _ _ _ _ Halloc)).
  - intros op op' H.
    apply CreateSymlink_Done in H
      as (parent & id & fs1 & _ & _ & Halloc & -> & -> & _).
    apply allocateInode_slot in Halloc. simpl.
    assert (Hslot : inodes (store fs1 id
                      (withTarget (newInode now
                         (mkAttrs 0 1 (Z.lor 292 ModeSymlink) now now now now
                                  (csUid op) (csGid op))) (csTarget op)))
                    !! id = Some (Some (withTarget (newInode now
                         (mkAttrs 0 1 (Z.lor 292 ModeSymlink) now now now now
                                  (csUid op) (csGid op))) (csTarget op)))).
    { simpl. apply list_lookup_insert_eq. now apply lookup_lt_Some in Halloc. }
    now rewrite (GetInodeAttributes_slot now' _ id a0 t0 _
                   (storeParent_child _ _ _ _ _ Hslot)).
Qed.

(** X11. [SetInodeAttributes] never responds with an error; the
    attributes of its response are the ones [GetInodeAttributes] reports
    for the inode afterwards; and it touches the slot of its inode only:
    the other slots, the length of the table and the free list are the
    same. *)
Theorem SetInodeAttributes_then_Get (now now' : Time) (fs fs' : memFS)
    (op op' : SetInodeAttributesOp) (err : option error)
    (a0 : InodeAttributes) (t0 : Time) :
  SetInodeAttributes now fs op = Done (fs', op', err) ->
  err = None /\
  GetInodeAttributes now' fs' (mkGetInodeAttributesOp (saInode op) a0 t0) =
    Done (fs',
          mkGetInodeAttributesOp (saInode op) (saAttributes op')
                                 (now' + cacheFor), None) /\
  (forall j, j ≠ saInode op -> inodes fs' !! j = inodes fs !! j) /\
  length (inodes fs') = length (inodes fs) /\
  freeInodes fs' = freeInodes fs.
Proof.
  intros H. unfold SetInodeAttributes in H.
  apply bind_Done in H as (i & Hi & H).
  apply getInodeForModifyingOrDie_Done in Hi as [Hi _].
  injection H as <- <- <-. split; [reflexivity |]. split; [| split; [| split]].
  - simpl. rewrite (GetInodeAttributes_slot now' _ (saInode op) a0 t0
                      (SetAttributes now i (saSize op) (saMode op) (saMtime op))).
    + reflexivity.
    + simpl. apply list_lookup_insert_eq. now apply lookup_lt_Some in Hi.
  - intros j Hj. now apply store_lookup_ne.
  - simpl. apply length_insert.
  - reflexivity.
Qed.

(** X12. The target given to [CreateSymlink] is the one [ReadSymlink]
    responds for the child of the response. *)
Theorem CreateSymlink_then_ReadSymlink (now : Time) (fs fs' : memFS)
    (op op' : CreateSymlinkOp) (err : option error) (t0 : string) :
  CreateSymlink now fs op = Done (fs', op', err) ->
  ReadSymlink fs' (mkReadSymlinkOp (Child (csEntry op')) t0) =
    Done (fs', mkReadSymlinkOp (Child (csEntry op')) (csTarget op), None).
Proof.
  intros H.
  apply CreateSymlink_Done in H
    as (parent & id & fs1 & _ & _ & Halloc & -> & -> & _).
  apply allocateInode_slot in Halloc. simpl.
  set (child := withTarget _ (csTarget op)).
  assert (Hslot : inodes (store fs1 id child) !! id = Some (Some child)).
  { simpl. apply list_lookup_insert_eq. now apply lookup_lt_Some in Halloc. }
  apply (storeParent_child _ (csParent op) _ _
           (withEntries parent
              (entries parent ++ [mkDirent id (csName op) DT_Link])))
    in Hslot.
  unfold ReadSymlink. simpl.
  now rewrite (proj2 (getInode_first _ id child Hslot)).
Qed.

(** ** Create, then look up *)

Lemma findChild_app_new es name id dt :
  findChild es name = None ->
  findChild (es ++ [mkDirent id name dt]) name = Some id.
Proof.
  induction es as [| e es IH]; simpl.
  - intros _. case_decide; [reflexivity | contradiction].
  - case_decide; [discriminate | exact IH].
Qed.

(** X13. After a [CreateFile] that responded without error, from a state
    of the invariants, [LookUpInode] of the same name in the same parent
    responds with the child and the attributes of the creation, and a
    second [CreateFile] of that name responds [EEXIST] and changes
    nothing: of two creations of one name, one succeeds. *)
Theorem CreateFile_then_LookUp (now : Time) (fs fs' : memFS)
    (op op' : CreateFileOp) :
  Invariants fs ->
  CreateFile now fs op = Done (fs', op', None) ->
  (forall now' e0,
     LookUpInode now' fs' (mkLookUpInodeOp (cfParent op) (cfName op) e0) =
     Done (fs',
           mkLookUpInodeOp (cfParent op) (cfName op)
             (mkEntry (Child (cfEntry op')) (Attributes (cfEntry op'))
                      (now' + cacheFor) (EntryExpiration e0)),
           None)) /\
  (forall now' op2,
     cfParent op2 = cfParent op -> cfName op2 = cfName op ->
     CreateFile now' fs' op2 = Done (fs', op2, Some EEXIST)).
Proof.
  intros Hinv H.
  apply CreateFile_Done in H as (parent & Hp & Hd & H).
  destruct (findChild (entries parent) (cfName op)) eqn:Hnone.
  { destruct H as (_ & _ & H). discriminate. }
  destruct H as (id & fs1 & Halloc & -> & -> & _).
  destruct (Invariants_allocateInode _ _ _ _ _ _ Hinv Halloc)
    as (_ & _ & Hid & Hsame & Hnew).
  assert (Hne : id ≠ cfParent op).
  { intros ->. apply Hnew. eauto. }
  assert (Hpl : (cfParent op < length (inodes fs))%nat)
    by now apply lookup_lt_Some in Hp.
  assert (Hp1 : inodes fs1 !! cfParent op = Some (Some parent)).
  { rewrite Hsame by auto. exact Hp. }
  set (parent' := withEntries parent
                    (entries parent ++ [mkDirent id (cfName op) DT_File])).
  set (fs' := storeParent fs1 (cfParent op) id parent').
  assert (Hp' : inodes fs' !! cfParent op = Some (Some parent')).
  { unfold fs', storeParent. case_decide; [contradiction |].
    apply store_lookup_eq. now apply lookup_lt_Some in Hp1. }
  assert (Hid' : inodes fs' !! id = Some (Some (newInode now
              (mkAttrs 0 1 (cfMode op) now now now now (cfUid op) (cfGid op))))).
  { now apply storeParent_child. }
  assert (Hfind : findChild (entries parent') (cfName op) = Some id).
  { now apply findChild_app_new. }
  split.
  - intros now' e0.
    now rewrite (LookUpInode_found now' fs'
                   (mkLookUpInodeOp (cfParent op) (cfName op) e0)
                   parent' id _ Hp' Hd Hfind Hne Hid').
  - intros now' op2 Hpar Hname.
    apply (CreateFile_existing now' fs' op2 parent' id).
    + now rewrite Hpar.
    + exact Hd.
    + now rewrite Hname.
Qed.

(** ** When the errors come *)

(** X14. The errors come exactly from the lookups of the source: for a
    method that returns, [LookUpInode], [Unlink] and [RmDir] respond
    [ENOENT] exactly when [LookUpChild] finds no child of the name in the
    parent, [CreateFile] responds [EEXIST] exactly when it finds one, and
    [RmDir] responds [ENOTEMPTY] exactly when it finds one whose [Len] is
    not zero. *)
Theorem errors_exact (now : Time) (fs fs' : memFS) (parent : inode) :
  (forall op op' err,
     LookUpInode now fs op = Done (fs', op', err) ->
     inodes fs !! luParent op = Some (Some parent) ->
     (err = Some ENOENT <-> LookUpChild parent (luName op) = Done None)) /\
  (forall op op' err,
     CreateFile now fs op = Done (fs', op', err) ->
     inodes fs !! cfParent op = Some (Some parent) ->
     (err = Some EEXIST <->
      exists c, LookUpChild parent (cfName op) = Done (Some c))) /\
  (forall op op' err,
     Unlink now fs op = Done (fs', op', err) ->
     inodes fs !! ulParent op = Some (Some parent) ->
     (err = Some ENOENT <-> LookUpChild parent (ulName op) = Done None)) /\
  (forall op op' err,
     RmDir now fs op = Done (fs', op', err) ->
     inodes fs !! rdParent op = Some (Some parent) ->
     (err = Some ENOENT <-> LookUpChild parent (rdName op) = Done None) /\
     (err = Some ENOTEMPTY <->
      exists c child n,
        LookUpChild parent (rdName op) = Done (Some c) /\
        inodes fs !! c = Some (Some child) /\
        Len child = Done n /\ n ≠ 0%nat)).
Proof.
  split; [| split; [| split]].
  - intros op op' err H Hp. unfold LookUpInode in H.
    rewrite (proj2 (getInode_first fs _ parent Hp)) in H. simpl in H.
    apply bind_Done in H as (found & Hf & H). rewrite Hf.
    destruct found as [c |].
    + apply bind_Done in H as (x & _ & H). injection H as _ _ <-.
      split; discriminate.
    + injection H as _ _ <-. split; reflexivity.
  - intros op op' err H Hp.
    apply CreateFile_Done in H as (parent0 & Hp0 & Hd & H).
    rewrite Hp in Hp0. injection Hp0 as <-.
    unfold LookUpChild, requireDir. rewrite Hd.
    destruct (findChild (entries parent) (cfName op)) as [c |].
    + destruct H as (_ & _ & ->). split; eauto.
    + destruct H as (id & fs1 & _ & _ & _ & ->).
      split; [discriminate | intros (c & Hc); discriminate].
  - intros op op' err H Hp.
    apply Unlink_Done in H as (_ & parent0 & Hp0 & Hd & H).
    rewrite Hp in Hp0. injection Hp0 as <-.
    unfold LookUpChild, requireDir. rewrite Hd.
    destruct (findChild (entries parent) (ulName op)) as [c |].
    + destruct H as (_ & child & _ & -> & _). split; discriminate.
    + destruct H as [_ ->]. split; reflexivity.
  - intros op op' err H Hp.
    apply RmDir_Done in H as (_ & parent0 & Hp0 & Hd & H).
    rewrite Hp in Hp0. injection Hp0 as <-.
    unfold LookUpChild, requireDir. rewrite Hd.
    destruct (findChild (entries parent) (rdName op)) as [c |].
    + destruct H as (_ & child & Hch & Hdc & H). split.
      * split; [| discriminate].
        destruct (entries child); destruct H as [H1 H2]; subst; discriminate.
      * unfold Len, requireDir. split.
        -- intros ->. exists c, child, (length (entries child)).
           rewrite Hdc. repeat split; auto.
           destruct (entries child); [destruct H; discriminate | discriminate].
        -- intros (c' & child' & n & Hc' & Hch' & Hn & Hnz).
           injection Hc' as <-. rewrite Hch in Hch'. injection Hch' as <-.
           rewrite Hdc in Hn. injection Hn as <-.
           destruct (entries child); [contradiction | now destruct H].
    + destruct H as [_ ->]. split; [split; reflexivity |].
      split; [discriminate | intros (c & child & n & Hc & _); discriminate].
Qed.

(** ** Link counts *)

Lemma removeEntry_others es name c x :
  findChild es name = Some c -> x ≠ c -> x ∈ dInode <$> es ->
  x ∈ dInode <$> removeEntry es name.
Proof.
  induction es as [| e es IH]; simpl; [discriminate |].
  intros Hc Hne Hx. apply elem_of_cons in Hx as [-> | Hx].
  - case_decide; [now injection Hc as <- |]. apply list_elem_of_here.
  - case_decide; [exact Hx |]. apply list_elem_of_further. auto.
Qed.

Lemma create_table fs p parent' child0 child' :
  (p < length (inodes fs))%nat ->
  inodes (storeParent
            (store (mkMemFS (inodes fs ++ [Some child0]) [])
                   (length (inodes fs)) child')
            p (length (inodes fs)) parent')
  = <[p := Some parent']> (inodes fs) ++ [Some child'].
Proof.
  intros Hp. unfold storeParent. case_decide; [lia |]. simpl.
  rewrite insert_app_r_alt by lia. rewrite Nat.sub_diag. simpl.
  now rewrite insert_app_l by exact Hp.
Qed.

Lemma elem_of_allChildren_create tbl p parent e child' x :
  tbl !! p = Some (Some parent) -> entries child' = [] ->
  x ∈ allChildren (<[p := Some (withEntries parent (entries parent ++ [e]))]>
                     tbl ++ [Some child']) <->
  x ∈ allChildren tbl \/ x = dInode e.
Proof.
  intros Hp Hnil.
  rewrite allChildren_app, (allChildren_insert _ p _ _ Hp).
  rewrite (allChildren_split _ p _ Hp). unfold allChildren at 3. simpl.
  rewrite Hnil. simpl. rewrite fmap_app. simpl.
  rewrite !elem_of_app, list_elem_of_singleton, elem_of_nil. tauto.
Qed.

Lemma moves_Counted fs fs' :
  Invariants fs -> Linked fs -> Counted fs -> moves fs fs' -> Counted fs'.
Proof.
  intros Hinv Hlk [Hab Hz] Hmv. pose proof Hlk as [Hfree Hnd Hch].
  destruct Hmv as [| id i i' Hi Hk He Hn
                   | now a p parent id child fs1 name dt t Hp Ha Halloc
                   | p parent name c child Hp Hfind Hne Hc].
  - now constructor.
  - assert (Hall : allChildren (inodes (store fs id i'))
                   = allChildren (inodes fs)).
    { simpl. apply (allChildren_insert_same _ id (Some i)); [exact Hi |].
      simpl. now rewrite He. }
    constructor; rewrite Hall; [exact Hab |].
    intros c ch Hc Hnot. simpl in Hc.
    destruct (decide (c = id)) as [-> | Hcid].
    + rewrite list_lookup_insert_eq in Hc by now apply lookup_lt_Some in Hi.
      injection Hc as <-. rewrite Hn. now apply (Hz id).
    + rewrite list_lookup_insert_ne in Hc by auto. now apply (Hz c).
  - assert (Hpl : (p < length (inodes fs))%nat)
      by now apply lookup_lt_Some in Hp.
    apply allocateInode_Done in Halloc
      as [-> [(l & Hl & _) | (_ & -> & ->)]].
    { rewrite Hfree in Hl. now apply app_cons_not_nil in Hl. }
    constructor; rewrite create_table by exact Hpl.
    + intros c Hc.
      apply (elem_of_allChildren_create _ _ _ _ _ _ Hp) in Hc as [Hc | ->];
        [auto | | reflexivity].
      simpl. pose proof (inv_length fs Hinv). lia.
    + intros c ch Hc Hnot.
      rewrite (elem_of_allChildren_create _ _ _ _ _ _ Hp) in Hnot
        by reflexivity.
      simpl in Hnot.
      destruct (decide (c < length (inodes fs))%nat) as [Hcl | Hcl].
      * rewrite lookup_app_l in Hc by now rewrite length_insert.
        destruct (decide (c = p)) as [-> | Hcp].
        -- rewrite list_lookup_insert_eq in Hc by exact Hpl.
           injection Hc as <-. simpl. apply (Hz p parent Hp). tauto.
        -- rewrite list_lookup_insert_ne in Hc by auto.
           apply (Hz c ch Hc). tauto.
      * rewrite lookup_app_r in Hc by (rewrite length_insert; lia).
        rewrite length_insert in Hc.
        destruct (c - length (inodes fs))%nat as [| k] eqn:Hk;
          simpl in Hc; [| discriminate].
        exfalso. apply Hnot. right. lia.
  - assert (Hpl : (p < length (inodes fs))%nat)
      by now apply lookup_lt_Some in Hp.
    assert (Hcl : (c < length (inodes fs))%nat)
      by now apply lookup_lt_Some in Hc.
    set (parent' := withEntries parent (removeEntry (entries parent) name)).
    assert (Hc1 : <[p := Some parent']> (inodes fs) !! c = Some (Some child)).
    { now rewrite list_lookup_insert_ne by auto. }
    assert (Hall : allChildren (inodes (store (store fs p parent') c
                                              (unlinked child)))
                   = allChildren (take p (inodes fs)) ++
                     (dInode <$> removeEntry (entries parent) name) ++
                     allChildren (drop (S p) (inodes fs))).
    { simpl. rewrite (allChildren_insert_same _ c (Some child)); auto.
      now rewrite (allChildren_insert _ p _ _ Hp). }
    assert (Hone : Nlink (attrs child) = 1).
    { pose proof (findChild_elem _ _ _ Hfind) as Hin.
      apply list_elem_of_fmap in Hin as (e & -> & He).
      destruct (Hch p parent e Hp He) as (_ & ch & Hc' & Hn).
      rewrite Hc in Hc'. now injection Hc' as <-. }
    constructor; rewrite Hall.
    + intros x Hx. apply Hab. rewrite (allChildren_split _ p _ Hp). simpl.
      rewrite !elem_of_app in Hx. rewrite !elem_of_app.
      destruct Hx as [Hx | [Hx | Hx]]; auto.
      right. left. eapply elem_of_sublist; [exact Hx |].
      apply fmap_sublist, removeEntry_sublist.
    + intros x ch Hx Hnot. simpl in Hx.
      destruct (decide (x = c)) as [-> | Hxc].
      * rewrite list_lookup_insert_eq in Hx by now rewrite length_insert.
        injection Hx as <-. simpl. rewrite Hone. apply decrement_one.
      * rewrite list_lookup_insert_ne in Hx by auto.
        assert (Hnot0 : x ∉ allChildren (inodes fs)).
        { intros Hin. apply Hnot.
          rewrite (allChildren_split _ p _ Hp) in Hin. simpl in Hin.
          rewrite !elem_of_app in Hin. rewrite !elem_of_app.
          destruct Hin as [Hin | [Hin | Hin]]; auto.
          right. left. now apply (removeEntry_others _ _ c). }
        destruct (decide (x = p)) as [-> | Hxp].
        -- rewrite list_lookup_insert_eq in Hx by exact Hpl.
           injection Hx as <-. simpl. now apply (Hz p parent).
        -- rewrite list_lookup_insert_ne in Hx by auto. now apply (Hz x).
Qed.

Lemma NewMemFS_slot uid gid now p d :
  inodes (NewMemFS uid gid now) !! p = Some (Some d) ->
  p = RootInodeID /\ entries d = [] /\ Nlink (attrs d) = 0.
Proof.
  unfold NewMemFS. simpl. intros Hp.
  destruct (decide (p = RootInodeID)) as [-> | Hne].
  - rewrite list_lookup_insert_eq in Hp by (rewrite length_replicate; lia).
    injection Hp as <-. auto.
  - rewrite list_lookup_insert_ne in Hp by auto.
    apply lookup_replicate in Hp as [? _]. discriminate.
Qed.

Lemma Counted_NewMemFS uid gid now : Counted (NewMemFS uid gid now).
Proof.
  constructor.
  - intros c Hc. exfalso.
    apply elem_of_allChildren in Hc as (p & d & e & Hp & He & _).
    apply NewMemFS_slot in Hp as (_ & Hnil & _).
    rewrite Hnil in He. inversion He.
  - intros c ch Hc _. now apply NewMemFS_slot in Hc as (_ & _ & Hn).
Qed.

Lemma served_Counted fs : served fs -> Counted fs.
Proof.
  induction 1 as [uid gid now | fs now c fs' c' err Hs IH Hexec].
  - apply Counted_NewMemFS.
  - apply (moves_Counted fs); auto.
    + now apply served_Invariants.
    + now apply served_Linked.
    + now apply exec_moves in Hexec.
Qed.

(** X15. In the states of the server the link count of an inode is the
    number of entries that refer to it, which is one or none: no inode
    is referred to twice, an ID that an entry refers to is above the root
    and resolves, an inode that an entry refers to has a link count of
    one, and every other inode, the root among them, has a link count of
    zero. *)
Theorem served_link_counts (fs : memFS) :
  served fs ->
  NoDup (allChildren (inodes fs)) /\
  (forall c, c ∈ allChildren (inodes fs) ->
             (RootInodeID < c)%nat /\
             exists ch, inodes fs !! c = Some (Some ch)) /\
  (forall c ch, inodes fs !! c = Some (Some ch) ->
                Nlink (attrs ch)
                = if decide (c ∈ allChildren (inodes fs)) then 1 else 0) /\
  (exists r, inodes fs !! RootInodeID = Some (Some r) /\
             Nlink (attrs r) = 0).
Proof.
  intros Hs.
  pose proof (served_Linked fs Hs) as [Hfree Hnd Hch].
  pose proof (served_Counted fs Hs) as [Hab Hz].
  pose proof (served_Invariants fs Hs) as Hinv.
  assert (Hone : forall c, c ∈ allChildren (inodes fs) ->
            exists ch, inodes fs !! c = Some (Some ch) /\ Nlink (attrs ch) = 1).
  { intros c Hc.
    apply elem_of_allChildren in Hc as (p & d & e & Hp & He & <-).
    now destruct (Hch p d e Hp He) as (_ & H). }
  split; [exact Hnd |]. split; [| split].
  - intros c Hc. split; [now apply Hab |].
    destruct (Hone c Hc) as (ch & Hc' & _). eauto.
  - intros c ch Hc. case_decide as Hin.
    + destruct (Hone c Hin) as (ch' & Hc' & Hn).
      rewrite Hc in Hc'. now injection Hc' as <-.
    + now apply (Hz c).
  - destruct (inv_root fs Hinv) as (r & Hr & _). exists r.
    split; [exact Hr |]. apply (Hz RootInodeID r Hr).
    intros Hin. apply Hab in Hin. lia.
Qed.

(** ** Write, then read *)

Lemma ReadFile_file now fs op f :
  inodes fs !! rfInode op = Some (Some f) -> isFile f = true ->
  ReadFile now fs op =
    Done (fs,
          mkReadFileOp (rfInode op) (rfOffset op) (rfSize op)
            (take (rfSize op) (drop (rfOffset op) (contents f))),
          None).
Proof.
  intros Hi Hf.
  destruct (ReadAt_file f (replicate (rfSize op) zeroByte) (rfOffset op) Hf)
    as (p' & n & Hread & Hdata).
  rewrite length_replicate in Hread, Hdata.
  unfold ReadFile.
  rewrite (proj2 (getInode_first fs _ f Hi)). simpl.
  rewrite Hread. simpl. rewrite Hdata. f_equal. f_equal.
  repeat case_decide; congruence.
Qed.

Lemma WriteFile_file now fs op f :
  inodes fs !! wfInode op = Some (Some f) -> isFile f = true ->
  exists f',
    WriteFile now fs op = Done (store fs (wfInode op) f', op, None) /\
    WriteAt f (wfData op) (wfOffset op) = Done (f', length (wfData op), None).
Proof.
  intros Hi Hf.
  destruct (WriteAt_file f (wfData op) (wfOffset op) Hf) as (f' & Hw & _).
  exists f'. split; [| exact Hw]. unfold WriteFile.
  rewrite (proj1 (getInode_first fs _ f Hi)). simpl. now rewrite Hw.
Qed.

(** X16. What [WriteFile] writes, [ReadFile] reads: after a write of
    [data] at an offset to a file, a read of len(data) bytes at that
    offset responds with [data] and no error, whatever the file held and
    however far past its end the offset is. *)
Theorem WriteFile_then_ReadFile (now now' : Time) (fs : memFS)
    (id : InodeID) (off : nat) (data buf : list byte) (f : inode) :
  inodes fs !! id = Some (Some f) -> isFile f = true ->
  exists fs',
    WriteFile now fs (mkWriteFileOp id off data)
      = Done (fs', mkWriteFileOp id off data, None) /\
    ReadFile now' fs' (mkReadFileOp id off (length data) buf)
      = Done (fs', mkReadFileOp id off (length data) data, None).
Proof.
  intros Hi Hf.
  destruct (WriteFile_file now fs (mkWriteFileOp id off data) f Hi Hf)
    as (f' & Hwf & Hw). simpl in *.
  destruct (WriteAt_file f data off Hf) as (f'' & Hw' & Hc & Hk).
  rewrite Hw in Hw'. injection Hw' as <-.
  exists (store fs id f'). split; [exact Hwf |].
  assert (Hslot : inodes (store fs id f') !! id = Some (Some f')).
  { apply store_lookup_eq. now apply lookup_lt_Some in Hi. }
  assert (Hf' : isFile f' = true).
  { unfold isFile in *. now rewrite Hk. }
  rewrite (ReadFile_file now' _ (mkReadFileOp id off (length data) buf) f'
             Hslot Hf'). simpl.
  rewrite Hc.
  rewrite drop_app_length'
    by (rewrite length_take, length_app, length_replicate; lia).
  now rewrite take_app_length.
Qed.

Lemma SetInodeAttributes_slot now fs op i :
  inodes fs !! saInode op = Some (Some i) ->
  SetInodeAttributes now fs op =
    Done (store fs (saInode op)
                (SetAttributes now i (saSize op) (saMode op) (saMtime op)),
          mkSetInodeAttributesOp (saInode op) (saSize op) (saMode op)
            (saMtime op)
            (attrs (SetAttributes now i (saSize op) (saMode op) (saMtime op)))
            (now + cacheFor),
          None).
Proof.
  intros H. unfold SetInodeAttributes.
  now rewrite (proj1 (getInode_first fs _ i H)).
Qed.

Lemma SetAttributes_size now i n mode mtime :
  isFile i = true ->
  contents (SetAttributes now i (Some n) mode mtime) = resize (contents i) n /\
  Size (attrs (SetAttributes now i (Some n) mode mtime)) = n /\
  kind (SetAttributes now i (Some n) mode mtime) = kind i.
Proof.
  intros Hf. unfold SetAttributes. rewrite Hf.
  destruct mode, mtime; simpl; auto.
Qed.

Lemma WriteAt_size i p off i' n e :
  WriteAt i p off = Done (i', n, e) ->
  Size (attrs i') =
    if decide (length (contents i) < off + length p)%nat
    then (off + length p)%nat else Size (attrs i).
Proof.
  unfold WriteAt. destruct (isFile i); [| discriminate].
  destruct (copy _ p) as [tl m]. intros H. injection H as <- _ _.
  case_decide; reflexivity.
Qed.

(** X17. The three write tests of [posix_test.go], for every length: an
    empty file set to the size [n] by [SetInodeAttributes] and then
    written [data] at [off] holds [off] zeros, then [data], then zeros up
    to [n]; its size attribute is the larger of [n] and off + len(data).
    (With [n] 4, 2 or 0, "taco" and offset 2: two zeros and "taco".) *)
Theorem truncate_then_WriteFile (now now' : Time) (fs : memFS) (id : InodeID)
    (f : inode) (n off : nat) (data : list byte) (mode : option FileMode)
    (mtime : option Time) (a0 : InodeAttributes) (t0 : Time) :
  inodes fs !! id = Some (Some f) -> isFile f = true -> contents f = [] ->
  exists fs1 op1 fs2 f2,
    SetInodeAttributes now fs
      (mkSetInodeAttributesOp id (Some n) mode mtime a0 t0)
      = Done (fs1, op1, None) /\
    Size (saAttributes op1) = n /\
    WriteFile now' fs1 (mkWriteFileOp id off data)
      = Done (fs2, mkWriteFileOp id off data, None) /\
    inodes fs2 !! id = Some (Some f2) /\
    contents f2 = replicate off zeroByte ++ data ++
                  replicate (n - (off + length data)) zeroByte /\
    Size (attrs f2) = Nat.max n (off + length data).
Proof.
  intros Hi Hf Hnil.
  destruct (SetAttributes_size now f n mode mtime Hf) as (Hc1 & Hs1 & Hk1).
  remember (SetAttributes now f (Some n) mode mtime) as f1 eqn:Ef1.
  assert (Hlt : (id < length (inodes fs))%nat) by now apply lookup_lt_Some in Hi.
  assert (Hslot1 : inodes (store fs id f1) !! id = Some (Some f1)).
  { now apply store_lookup_eq. }
  assert (Hf1 : isFile f1 = true).
  { unfold isFile in *. now rewrite Hk1. }
  assert (Hc1' : contents f1 = replicate n zeroByte).
  { rewrite Hc1, Hnil. unfold resize. rewrite take_nil. simpl.
    now rewrite Nat.sub_0_r. }
  destruct (WriteFile_file now' (store fs id f1) (mkWriteFileOp id off data)
                           f1 Hslot1 Hf1) as (f2 & Hwf & Hw). simpl in *.
  destruct (WriteAt_file f1 data off Hf1) as (f2' & Hw' & Hc2 & _).
  rewrite Hw in Hw'. injection Hw' as <-.
  exists (store fs id f1),
         (mkSetInodeAttributesOp id (Some n) mode mtime (attrs f1)
                                 (now + cacheFor)),
         (store (store fs id f1) id f2), f2.
  split; [| split; [exact Hs1 | split; [exact Hwf | split; [| split]]]].
  - rewrite Ef1.
    apply (SetInodeAttributes_slot now fs
             (mkSetInodeAttributesOp id (Some n) mode mtime a0 t0) f Hi).
  - apply store_lookup_eq. simpl. now rewrite length_insert.
  - rewrite Hc2, Hc1', length_replicate, <- replicate_add.
    rewrite take_replicate, drop_replicate.
    f_equal; [f_equal; lia |]. f_equal. f_equal. lia.
  - rewrite (WriteAt_size _ _ _ _ _ _ Hw), Hc1', length_replicate, Hs1.
    case_decide; lia.
Qed.

(** ** The root, and an unlinked inode *)

Lemma reachable_inv fs : reachable fs -> Invariants fs.
Proof.
  induction 1 as [uid gid now
                 | fs now c fs' c' err _ IH Hexec
                 | fs now a id i fs' _ IH Halloc
                 | fs id i fs' _ IH Hgt Hid Hdealloc].
  - apply Invariants_NewMemFS.
  - apply (moves_Invariants fs); [exact IH |]. now apply exec_moves in Hexec.
  - now destruct (Invariants_allocateInode _ _ _ _ _ _ IH Halloc).
  - now apply (Invariants_deallocateInode fs id i).
Qed.

(** X18. In every state reached by the methods and by the helpers on
    valid IDs, the root can be opened as a directory and its attributes
    can be read, without error and without a change of state, and are
    the attributes of the directory in the root slot; opening it as a
    file stops the process. *)
Theorem root_always_opens (fs : memFS) (now : Time) (a0 : InodeAttributes)
    (t0 : Time) :
  reachable fs ->
  OpenDir fs RootInodeID = Done (fs, None) /\
  OpenFile fs RootInodeID = Panic "Found non-file." /\
  exists r,
    inodes fs !! RootInodeID = Some (Some r) /\ isDir r = true /\
    GetInodeAttributes now fs (mkGetInodeAttributesOp RootInodeID a0 t0)
    = Done (fs, mkGetInodeAttributesOp RootInodeID (attrs r)
                  (now + cacheFor), None).
Proof.
  intros Hr. destruct (inv_root fs (reachable_inv fs Hr)) as (r & Hr' & Hd).
  split; [| split].
  - unfold OpenDir. rewrite (proj2 (getInode_first fs _ r Hr')). simpl.
    now rewrite Hd.
  - unfold OpenFile. rewrite (proj2 (getInode_first fs _ r Hr')). simpl.
    unfold isFile, isDir in *. apply bool_decide_eq_true in Hd.
    rewrite Hd. reflexivity.
  - exists r. split; [exact Hr' |]. split; [exact Hd |].
    now apply GetInodeAttributes_slot.
Qed.

(** X19. An unlinked inode stays in reach of its ID: in the states of
    the server, after [Unlink] of a name, [GetInodeAttributes] on the ID
    the name referred to responds with the former attributes and a link
    count of zero, and, for a file, [ReadFile] responds with the same
    bytes as before. *)
Theorem unlinked_still_readable (fs : memFS) (now now' : Time)
    (p c : InodeID) (name : string) (parent child : inode)
    (a0 : InodeAttributes) (t0 : Time) :
  served fs ->
  inodes fs !! p = Some (Some parent) -> isDir parent = true ->
  findChild (entries parent) name = Some c ->
  inodes fs !! c = Some (Some child) ->
  exists fs',
    Unlink now fs (mkUnlinkOp p name) = Done (fs', mkUnlinkOp p name, None) /\
    GetInodeAttributes now' fs' (mkGetInodeAttributesOp c a0 t0)
      = Done (fs',
              mkGetInodeAttributesOp c (withNlink (attrs child) 0)
                                     (now' + cacheFor), None) /\
    (isFile child = true ->
     forall off size buf,
       ReadFile now' fs' (mkReadFileOp c off size buf)
         = Done (fs',
                 mkReadFileOp c off size
                   (take size (drop off (contents child))), None)).
Proof.
  intros Hs Hp Hd Hfind Hc.
  pose proof (served_Linked fs Hs) as Hlk.
  pose proof (findChild_elem _ _ _ Hfind) as Hin.
  apply list_elem_of_fmap in Hin as (e & He & Hin).
  destruct (lk_child fs Hlk _ _ e Hp Hin) as (Hne & ch & Hch & Hone).
  rewrite <- He in Hne, Hch. rewrite Hc in Hch. injection Hch as <-.
  set (fs' := store (store fs p
                       (withEntries parent (removeEntry (entries parent) name)))
                    c (unlinked child)).
  assert (Hslot : inodes fs' !! c = Some (Some (unlinked child))).
  { apply store_lookup_eq. simpl. rewrite length_insert.
    now apply lookup_lt_Some in Hc. }
  exists fs'. split; [| split].
  - apply Unlink_Done. split; [reflexivity |]. exists parent. simpl.
    rewrite Hfind. split; [exact Hp |]. split; [exact Hd |].
    split; [exact Hne |]. exists child. auto.
  - rewrite (GetInodeAttributes_slot now' fs' c a0 t0 _ Hslot).
    unfold unlinked. simpl. now rewrite Hone, decrement_one.
  - intros Hf off size buf.
    now rewrite (ReadFile_file now' fs' (mkReadFileOp c off size buf)
                   (unlinked child) Hslot Hf).
Qed.

(** ** C8: the check on the states of any run *)

Lemma Covered_store fs id x : Covered fs -> Covered (store fs id x).
Proof.
  intros Hc i Hi Hvac. simpl in *. apply Hc; [exact Hi |].
  destruct (decide (i = id)) as [-> | Hne].
  - destruct (decide (id < length (inodes fs))%nat) as [Hlt | Hge].
    + rewrite list_lookup_insert_eq in Hvac by exact Hlt. discriminate.
    + now rewrite list_insert_ge in Hvac by lia.
  - now rewrite list_lookup_insert_ne in Hvac by auto.
Qed.

Lemma Covered_allocateInode now fs a id i fs' :
  Covered fs -> allocateInode now fs a = Done (id, i, fs') -> Covered fs'.
Proof.
  intros Hc Halloc.
  apply allocateInode_Done in Halloc
    as [_ [(l & Hl & Hlt & ->) | (Hl & -> & ->)]]; intros j Hj Hvac;
    simpl in *.
  - destruct (decide (j = id)) as [-> | Hne].
    + rewrite list_lookup_insert_eq in Hvac by exact Hlt. discriminate.
    + rewrite list_lookup_insert_ne in Hvac by auto.
      pose proof (Hc j Hj Hvac) as Hin.
      rewrite Hl, elem_of_app, list_elem_of_singleton in Hin. tauto.
  - destruct (decide (j < length (inodes fs))%nat) as [Hlt | Hge].
    + rewrite lookup_app_l in Hvac by exact Hlt.
      rewrite <- Hl. now apply Hc.
    + rewrite lookup_app_r in Hvac by lia.
      destruct (j - length (inodes fs))%nat; simpl in Hvac; discriminate.
Qed.

Lemma Covered_deallocateInode fs id fs' :
  Covered fs -> deallocateInode fs id = Done fs' -> Covered fs'.
Proof.
  intros Hc Hd. apply deallocateInode_Done in Hd as [Hlt ->].
  intros j Hj Hvac. simpl in *.
  rewrite elem_of_app, list_elem_of_singleton.
  destruct (decide (j = id)) as [-> | Hne]; [auto |].
  rewrite list_lookup_insert_ne in Hvac by auto. left. now apply Hc.
Qed.

Lemma Covered_moves fs fs' : Covered fs -> moves fs fs' -> Covered fs'.
Proof.
  intros Hc Hmv.
  destruct Hmv as [| id i i' _ _ _ _
                   | now a p parent id child fs1 name dt t _ _ Halloc
                   | p parent name c child _ _ _ _].
  - exact Hc.
  - now apply Covered_store.
  - apply (Covered_allocateInode _ _ _ _ _ _ Hc) in Halloc.
    unfold storeParent. case_decide; repeat apply Covered_store; exact Halloc.
  - now repeat apply Covered_store.
Qed.

Lemma anyrun_Covered fs : anyrun fs -> Covered fs.
Proof.
  induction 1 as [uid gid now
                 | fs now c fs' c' err _ IH Hexec
                 | fs now a id i fs' _ IH Halloc
                 | fs id fs' _ IH Hdealloc].
  - intros i Hi Hvac. exfalso. unfold NewMemFS in Hvac. simpl in Hvac.
    rewrite list_lookup_insert_ne in Hvac by lia.
    apply lookup_replicate in Hvac as [_ Hlt]. lia.
  - apply (Covered_moves fs); [exact IH |]. now apply exec_moves in Hexec.
  - now apply (Covered_allocateInode now fs a id i).
  - now apply (Covered_deallocateInode fs id).
Qed.

Lemma size_list_to_set_le (l : list nat) :
  (size (list_to_set l : gset nat) <= length l)%nat.
Proof.
  induction l as [| x l IH].
  - rewrite list_to_set_nil, size_empty. simpl. lia.
  - rewrite list_to_set_cons. simpl length.
    destruct (decide (x ∈ l)) as [Hin | Hnot].
    + replace ({[x]} ∪ list_to_set l : gset nat) with (list_to_set l : gset nat).
      * lia.
      * apply set_eq. intros y.
        rewrite elem_of_union, elem_of_singleton, !elem_of_list_to_set.
        split; [auto |]. intros [-> | Hy]; auto.
    + rewrite size_union.
      * rewrite size_singleton. lia.
      * intros y Hy Hy'. apply elem_of_singleton in Hy as ->.
        now apply elem_of_list_to_set in Hy'.
Qed.

Lemma size_list_to_set_NoDup (l : list nat) :
  size (list_to_set l : gset nat) = length l -> NoDup l.
Proof.
  induction l as [| x l IH]; [constructor |].
  rewrite list_to_set_cons. simpl length.
  intros Hsize. destruct (decide (x ∈ l)) as [Hin | Hnot].
  - exfalso.
    replace ({[x]} ∪ list_to_set l : gset nat) with (list_to_set l : gset nat)
      in Hsize.
    + pose proof (size_list_to_set_le l). lia.
    + apply set_eq. intros y.
      rewrite elem_of_union, elem_of_singleton, !elem_of_list_to_set.
      split; [auto |]. intros [-> | Hy]; auto.
  - rewrite size_union in Hsize.
    + rewrite size_singleton in Hsize.
      apply NoDup_cons. split; [exact Hnot |]. apply IH. lia.
    + intros y Hy Hy'. apply elem_of_singleton in Hy as ->.
      now apply elem_of_list_to_set in Hy'.
Qed.

(** When the vacant slots above the root are all on the free list, a
    free list that passes the check has no ID twice. *)
Lemma Covered_check_Invariants fs :
  Covered fs -> checkInvariants fs = Done tt -> Invariants fs.
Proof.
  intros Hc Hcheck. apply check_NoDup_Invariants; [| exact Hcheck].
  apply checkInvariants_Done in Hcheck as (_ & _ & Hlen & Hfree).
  apply size_list_to_set_NoDup. rewrite Hlen. f_equal.
  apply set_eq. intros i. rewrite elem_of_list_to_set. split.
  - exact (Hfree i).
  - intros Hi. apply elem_of_freeIDsEncountered in Hi as [Hgt Hvac].
    now apply Hc.
Qed.

Lemma checkReserved_cases tbl ids :
  checkReserved tbl ids = Done tt \/ exists msg, checkReserved tbl ids = Panic msg.
Proof.
  induction ids as [| i ids IH]; simpl; [auto |].
  destruct (tbl !! i) as [[x |] |]; eauto.
Qed.

Lemma checkFree_cases seen ids :
  checkFree seen ids = Done tt \/ exists msg, checkFree seen ids = Panic msg.
Proof.
  induction ids as [| i ids IH]; simpl; [auto |].
  case_decide; eauto.
Qed.

(** The check returns or panics; it takes no lock. *)
Lemma checkInvariants_cases fs :
  checkInvariants fs = Done tt \/ exists msg, checkInvariants fs = Panic msg.
Proof.
  unfold checkInvariants.
  destruct (checkReserved_cases (inodes fs) (seq 0 RootInodeID))
    as [-> | (msg & ->)]; simpl; [| eauto].
  destruct (inodes fs !! RootInodeID) as [[r |] |]; simpl; [| eauto ..].
  destruct (isDir r); simpl; [| eauto].
  case_decide; [eauto |]. apply checkFree_cases.
Qed.

Lemma anyrun_check_Invariants fs :
  anyrun fs -> (checkInvariants fs = Done tt <-> Invariants fs).
Proof.
  intros Hr. split.
  - apply Covered_check_Invariants. now apply anyrun_Covered.
  - apply Invariants_check.
Qed.

(** C8 (as amended). In every state reached from [NewMemFS] by the
    methods and by [allocateInode] and [deallocateInode] on any ID,
    [checkInvariants] panics exactly when the table is inconsistent: it
    returns when the invariants hold, and it panics when a slot below the
    root is occupied, when the root slot is vacant or holds no directory,
    and when the free list is not the list without repetition of the
    vacant slots above the root. *)
Theorem checkInvariants_exact_on_runs (fs : memFS) :
  anyrun fs ->
  (checkInvariants fs = Done tt <-> Invariants fs) /\
  ((exists msg, checkInvariants fs = Panic msg) <-> ~ Invariants fs) /\
  ((exists i x, (i < RootInodeID)%nat /\ inodes fs !! i = Some (Some x)) ->
   exists msg, checkInvariants fs = Panic msg) /\
  ((forall r, inodes fs !! RootInodeID = Some (Some r) -> isDir r = false) ->
   exists msg, checkInvariants fs = Panic msg) /\
  (~ NoDup (freeInodes fs) -> exists msg, checkInvariants fs = Panic msg) /\
  ((exists i, ~ (i ∈ freeInodes fs <->
                 (RootInodeID < i)%nat /\ inodes fs !! i = Some None)) ->
   exists msg, checkInvariants fs = Panic msg).
Proof.
  intros Hr. pose proof (anyrun_check_Invariants fs Hr) as Hiff.
  assert (Hpanic : ~ Invariants fs -> exists msg, checkInvariants fs = Panic msg).
  { intros Hnot. destruct (checkInvariants_cases fs) as [Hd | Hp];
      [| exact Hp]. exfalso. now apply Hnot, Hiff. }
  split; [exact Hiff |]. split; [| split; [| split; [| split]]].
  - split; [| exact Hpanic].
    intros (msg & Hmsg) Hinv. apply Hiff in Hinv. congruence.
  - intros (i & x & Hi & Hx). apply Hpanic. intros Hinv.
    rewrite (inv_reserved fs Hinv i Hi) in Hx. discriminate.
  - intros Hroot. apply Hpanic. intros Hinv.
    destruct (inv_root fs Hinv) as (r & Hr' & Hd).
    rewrite (Hroot r Hr') in Hd. discriminate.
  - intros Hdup. apply Hpanic. intros Hinv.
    apply Hdup, (inv_free_nodup fs Hinv).
  - intros (i & Hi). apply Hpanic. intros Hinv.
    apply Hi, (inv_free fs Hinv).
Qed.

(** So the table of the duplicate is the state of no run. *)
Lemma twiceFree_unreachable now :
  ~ anyrun (twiceFree (newInode now (withMode zeroAttrs (Z.lor 448 ModeDir)))).
Proof.
  intros Hr.
  destruct (checkInvariants_misses_duplicates now) as (Hcheck & _ & _ & _ & Hnot).
  apply Hnot. now apply (anyrun_check_Invariants _ Hr).
Qed.
End MemFS.

(** * Runs, with the root at ID 1

    [RootInodeID] is 1, [Nlink] has 64 bits and an entry is serialised as
    its name. *)

Lemma exOneDir_served :
  served 1 64 (fun e => list_byte_of_string (dName e)) exOneDir.
Proof.
  apply (serve_served 1 64 _ (NewMemFS 1 0 0 0)
           [(1, CallMkDir (exMkDirOp 1 "a"))]).
  - apply served_new.
  - reflexivity.
Qed.

Lemma exNested_served :
  served 1 64 (fun e => list_byte_of_string (dName e)) exNested.
Proof.
  apply (serve_served 1 64 _ (NewMemFS 1 0 0 0)
           [(1, CallMkDir (exMkDirOp 1 "a"));
            (2, CallMkDir (exMkDirOp 2 "b"))]).
  - apply served_new.
  - reflexivity.
Qed.

Lemma exTaco_served :
  served 1 64 (fun e => list_byte_of_string (dName e)) exTaco.
Proof.
  apply (serve_served 1 64 _ (NewMemFS 1 0 0 0)
           [(1, CallCreateFile (exCreateFileOp "f"));
            (2, CallWriteFile
                  (mkWriteFileOp 2 0 (list_byte_of_string "taco")))]).
  - apply served_new.
  - reflexivity.
Qed.

(** ** C1 *)

(** C1 as stated fails: [deallocateInode] of the root, the first call
    after [NewMemFS], returns and leaves the root slot vacant and the
    root on the free list. *)
Lemma deallocate_root_breaks_invariants :
  tableRun (NewMemFS 1 0 0 0) [Deallocate 1] = Done (mkMemFS [None; None] [1%nat]) /\
  ~ Invariants 1 (mkMemFS [None; None] [1%nat]) /\
  checkInvariants 1 (mkMemFS [None; None] [1%nat])
    = Panic "nil pointer dereference".
Proof.
  split; [reflexivity |]. split; [| reflexivity].
  intros H. destruct (inv_root _ _ H) as (r & Hr & _). discriminate Hr.
Qed.

(** So does a second [deallocateInode] of the same ID: the ID is twice
    on the free list, and the check panics. *)
Example deallocate_twice_breaks_invariants :
  exists fs1 fs2,
    tableRun (NewMemFS 1 0 0 0) [Allocate 0 zeroAttrs] = Done fs1 /\
    tableRun fs1 [Deallocate 2; Deallocate 2] = Done fs2 /\
    freeInodes fs2 = [2%nat; 2%nat] /\
    checkInvariants 1 fs2 = Panic "Length mismatch".
Proof. eexists. eexists. repeat split; reflexivity. Qed.

(** And so does [deallocateInode] of an ID below the root. *)
Example deallocate_reserved_breaks_invariants :
  tableRun (NewMemFS 1 0 0 0) [Deallocate 0]
    = Done (mkMemFS [None; Some (exRoot [])] [0%nat]) /\
  checkInvariants 1 (mkMemFS [None; Some (exRoot [])] [0%nat])
    = Panic "Length mismatch".
Proof. split; reflexivity. Qed.

Lemma reachable_Invariants_witness :
  Invariants 1 (mkMemFS [None; Some (exRoot []); None;
                         Some (newInode 0 zeroAttrs)] [2%nat]) /\
  checkInvariants 1 (mkMemFS [None; Some (exRoot []); None;
                              Some (newInode 0 zeroAttrs)] [2%nat]) = Done tt.
Proof.
  apply (reachable_Invariants 1 64 (fun e => list_byte_of_string (dName e))).
  apply (reach_deallocate 1 64 _
           (mkMemFS [None; Some (exRoot []); Some (newInode 0 zeroAttrs);
                     Some (newInode 0 zeroAttrs)] [])
           2 (newInode 0 zeroAttrs));
    [| simpl; lia | reflexivity | reflexivity].
  apply (reach_allocate 1 64 _
           (mkMemFS [None; Some (exRoot []); Some (newInode 0 zeroAttrs)] [])
           0 zeroAttrs 3 (newInode 0 zeroAttrs)); [| reflexivity].
  apply (reach_allocate 1 64 _ (NewMemFS 1 0 0 0)
           0 zeroAttrs 2 (newInode 0 zeroAttrs)); [| reflexivity].
  apply reach_new.
Defined.

(** ** C2 *)

Lemma allocateInode_LIFO_witness :
  exists fs3 fs4,
    allocateInode 1
      (mkMemFS (replicate 5 (Some (exDir [])) ++ [None; Some (exDir []); None])
               [5%nat; 7%nat])
      zeroAttrs = Done (7%nat, newInode 1 zeroAttrs, fs3) /\
    allocateInode 2 fs3 zeroAttrs = Done (5%nat, newInode 2 zeroAttrs, fs4) /\
    freeInodes fs4 = [].
Proof.
  apply (proj2 (proj2 (proj2
           (allocateInode_LIFO 1 (mkMemFS (replicate 8 (Some (exDir []))) [])
                               zeroAttrs)))).
  reflexivity.
Defined.

(** ** C3 *)

(** C3 (where the code departs from it). The root has the directory "a".
    [MkDir] of "a" responds without error and the root then has two
    entries "a", to the inodes 2 and 3; [CreateSymlink] of "a" does the
    same with a link; only [CreateFile] of "a" responds [EEXIST] and
    leaves the state as it is. *)
Theorem create_existing_name :
  (exists op',
     MkDir 2 exOneDir (exMkDirOp 1 "a") = Done (exTwoDirs, op', None) /\
     Child (mdEntry op') = 3%nat) /\
  (exists fs' op' r,
     CreateSymlink 2 exOneDir (exCreateSymlinkOp "a") = Done (fs', op', None) /\
     length (inodes fs') = 4%nat /\
     inodes fs' !! 1%nat = Some (Some r) /\
     entries r = [mkDirent 2 "a" DT_Directory; mkDirent 3 "a" DT_Link]) /\
  CreateFile 2 exOneDir (exCreateFileOp "a")
    = Done (exOneDir, exCreateFileOp "a", Some EEXIST).
Proof.
  split; [| split].
  - eexists. split; reflexivity.
  - eexists. eexists. eexists. repeat split; reflexivity.
  - reflexivity.
Qed.

(** ** C4 *)


(** ** C5 *)

Lemma RmDir_refusals_witness :
  RmDir 64 3 exNested (mkRmDirOp 1 "a")
    = Done (exNested, mkRmDirOp 1 "a", Some ENOTEMPTY) /\
  RmDir 64 3 exNested (mkRmDirOp 1 "z")
    = Done (exNested, mkRmDirOp 1 "z", Some ENOENT).
Proof.
  split.
  - apply (proj1
             (RmDir_refusals 1 64 (fun e => list_byte_of_string (dName e))
                exNested 3 (mkRmDirOp 1 "a")
                (exRoot [mkDirent 2 "a" DT_Directory])
                exNested_served eq_refl eq_refl)
             2%nat (exDir [mkDirent 3 "b" DT_Directory]));
      [reflexivity | reflexivity | reflexivity | discriminate].
  - apply (proj2
             (RmDir_refusals 1 64 (fun e => list_byte_of_string (dName e))
                exNested 3 (mkRmDirOp 1 "z")
                (exRoot [mkDirent 2 "a" DT_Directory])
                exNested_served eq_refl eq_refl)).
    reflexivity.
Defined.

(** ** C6 *)

Lemma ReadFile_no_EOF_witness :
  ReadFile 3 exTaco (mkReadFileOp 2 2 4 [])
    = Done (exTaco, mkReadFileOp 2 2 4 (list_byte_of_string "co"), None) /\
  ReadFile 3 exTaco (mkReadFileOp 2 4 4 [])
    = Done (exTaco, mkReadFileOp 2 4 4 [], None) /\
  ReadFile 3 exTaco (mkReadFileOp 2 100 4 [])
    = Done (exTaco, mkReadFileOp 2 100 4 [], None).
Proof.
  split; [| split].
  - apply (proj1 (ReadFile_no_EOF 3 exTaco (mkReadFileOp 2 2 4 [])
                    (exFile (list_byte_of_string "taco")) eq_refl eq_refl)).
  - apply (proj1 (ReadFile_no_EOF 3 exTaco (mkReadFileOp 2 4 4 [])
                    (exFile (list_byte_of_string "taco")) eq_refl eq_refl)).
  - apply (proj1 (ReadFile_no_EOF 3 exTaco (mkReadFileOp 2 100 4 [])
                    (exFile (list_byte_of_string "taco")) eq_refl eq_refl)).
Defined.

(** ** C7 *)

Lemma WriteFile_full_witness :
  exists f',
    WriteFile 3 exTruncated (mkWriteFileOp 2 2 (list_byte_of_string "taco"))
      = Done (store exTruncated 2 f',
              mkWriteFileOp 2 2 (list_byte_of_string "taco"), None) /\
    length (contents f') = 6%nat /\
    (forall i, (i < 4)%nat ->
               contents f' !! (2 + i)%nat = list_byte_of_string "taco" !! i) /\
    (forall i, (4 <= i < 2)%nat -> contents f' !! i = Some zeroByte) /\
    (forall i, (i < 2)%nat -> (i < 4)%nat ->
               contents f' !! i = replicate 4 zeroByte !! i) /\
    (forall i, (2 + 4 <= i)%nat ->
               contents f' !! i = replicate 4 zeroByte !! i).
Proof.
  apply (WriteFile_full 3 exTruncated
           (mkWriteFileOp 2 2 (list_byte_of_string "taco"))
           (mkInode File (mkAttrs 4 1 420 1 1 2 1 0 0) []
                    (replicate 4 zeroByte) ""));
    reflexivity.
Defined.

(** The run of the POSIX test: a new file, truncated to 4 bytes, then
    "taco" written at offset 2, holds two zeros and "taco". A write at
    offset 2 in an empty file gives the same content. *)
Example truncate_then_write :
  exists fs f,
    serve 64 (fun e => list_byte_of_string (dName e)) (NewMemFS 1 0 0 0)
      [(1, CallCreateFile (exCreateFileOp "f"));
       (2, CallSetInodeAttributes
             (mkSetInodeAttributesOp 2 (Some 4%nat) None None zeroAttrs 0));
       (3, CallWriteFile (mkWriteFileOp 2 2 (list_byte_of_string "taco")))]
      = Done fs /\
    inodes fs !! 2%nat = Some (Some f) /\
    contents f = [x00; x00] ++ list_byte_of_string "taco" /\
    Size (attrs f) = 6%nat /\
    serve 64 (fun e => list_byte_of_string (dName e)) (NewMemFS 1 0 0 0)
      [(1, CallCreateFile (exCreateFileOp "f"));
       (2, CallSetInodeAttributes
             (mkSetInodeAttributesOp 2 (Some 4%nat) None None zeroAttrs 0))]
      = Done exTruncated.
Proof. eexists. eexists. repeat split; reflexivity. Qed.

Example write_past_end :
  exists fs f,
    serve 64 (fun e => list_byte_of_string (dName e)) (NewMemFS 1 0 0 0)
      [(1, CallCreateFile (exCreateFileOp "f"));
       (3, CallWriteFile (mkWriteFileOp 2 2 (list_byte_of_string "taco")))]
      = Done fs /\
    inodes fs !! 2%nat = Some (Some f) /\
    contents f = [x00; x00] ++ list_byte_of_string "taco".
Proof. eexists. eexists. repeat split; reflexivity. Qed.

(** ** C8 *)

(** The table with the free list of one ID twice, with the root at ID 1. *)
Example twiceFree_accepted :
  checkInvariants 1 (mkMemFS [None; Some (exRoot []); None; None]
                             [2%nat; 2%nat]) = Done tt.
Proof. vm_compute. reflexivity. Qed.

(** ** C9 *)

(** C9 (where the code departs from it). The root has the directory "a".
    [LookUpInode] of a name the root does not have responds [ENOENT] and
    leaves the entry of the request as it came. [LookUpInode] of "a", at
    time 1000 and with a zero entry in the request, responds with the
    child 2, its attributes and an expiration of the attributes 365 days
    later, but with the [EntryExpiration] the request came with, the zero
    time: the assignment of the source copies the field onto itself. *)
Theorem LookUpInode_entry_expiration :
  LookUpInode 1000 exOneDir (mkLookUpInodeOp 1 "z" zeroEntry)
    = Done (exOneDir, mkLookUpInodeOp 1 "z" zeroEntry, Some ENOENT) /\
  LookUpInode 1000 exOneDir (mkLookUpInodeOp 1 "a" zeroEntry)
    = Done (exOneDir,
            mkLookUpInodeOp 1 "a"
              (mkEntry 2 (attrs (exDir [])) (1000 + cacheFor) zeroTime),
            None) /\
  1000 + cacheFor = 1000 + 365 * 24 * 3600 * 1000000000 /\
  zeroTime < 1000.
Proof. repeat split. Qed.

(** ** C10 *)

Lemma root_attributes_witness :
  GetInodeAttributes 5 (NewMemFS 1 7 8 0)
    (mkGetInodeAttributesOp 1 zeroAttrs zeroTime)
    = Done (NewMemFS 1 7 8 0,
            mkGetInodeAttributesOp 1
              (mkAttrs 0 0 (Z.lor 448 ModeDir) 0 0 0 0 7 8) (5 + cacheFor),
            None) /\
  Nlink (Attributes (mdEntry
           (mkMkDirOp 1 "a" (Z.lor 493 ModeDir) 0 0
              (mkEntry 2 (attrs (exDir [])) (5 + cacheFor) zeroTime)))) = 1 /\
  exists child,
    inodes exOneDir !! 2%nat = Some (Some child) /\ Nlink (attrs child) = 1.
Proof.
  pose proof (root_attributes 1 7 8 0 5)
    as (_ & _ & _ & _ & _ & _ & _ & Hget & Hmk).
  split.
  - apply (Hget (mkGetInodeAttributesOp 1 zeroAttrs zeroTime)). reflexivity.
  - apply (Hmk exNew (exMkDirOp 1 "a") exOneDir
               (mkMkDirOp 1 "a" (Z.lor 493 ModeDir) 0 0
                  (mkEntry 2 (attrs (exDir [])) (5 + cacheFor) zeroTime))
               None).
    reflexivity.
Defined.

(** * Runs for the further properties, with the root at ID 1 *)

Lemma exCreated_served :
  served 1 64 (fun e => list_byte_of_string (dName e)) exCreated.
Proof.
  apply (serve_served 1 64 _ (NewMemFS 1 0 0 0)
           [(1, CallCreateFile (exCreateFileOp "f"))]).
  - apply served_new.
  - reflexivity.
Qed.

Lemma exOneDir_Invariants : Invariants 1 exOneDir.
Proof. apply check_NoDup_Invariants; [constructor | reflexivity]. Qed.

Lemma exNew_Invariants : Invariants 1 exNew.
Proof. apply check_NoDup_Invariants; [constructor | reflexivity]. Qed.

Lemma checkInvariants_exact_witness :
  checkInvariants 1 exOneDir = Done tt <-> Invariants 1 exOneDir.
Proof.
  apply (proj2 (checkInvariants_exact 1 exOneDir)). simpl. constructor.
Defined.

Lemma allocateInode_unused_witness :
  exists id fs',
    allocateInode 5 exOneDir zeroAttrs = Done (id, newInode 5 zeroAttrs, fs') /\
    (1 < id)%nat /\
    (inodes exOneDir !! id = Some None \/ id = length (inodes exOneDir)) /\
    inodes fs' !! id = Some (Some (newInode 5 zeroAttrs)) /\
    (forall j, j ≠ id -> (j < length (inodes exOneDir))%nat ->
               inodes fs' !! j = inodes exOneDir !! j) /\
    Invariants 1 fs'.
Proof.
  apply (allocateInode_unused 1 5 exOneDir zeroAttrs).
  apply exOneDir_Invariants.
Defined.

Lemma allocateAll_reverse_witness :
  exists fs2,
    allocateAll
      (mkMemFS (replicate 3 (Some (exDir [])) ++
                [None; Some (exDir []); None; Some (exDir []); None])
               [5%nat; 7%nat; 3%nat])
      [(1, zeroAttrs); (2, zeroAttrs); (3, zeroAttrs)]
      = Done ([3%nat; 7%nat; 5%nat], fs2) /\
    freeInodes fs2 = [] /\
    length (inodes fs2) = 8%nat.
Proof.
  apply (allocateAll_reverse (mkMemFS (replicate 8 (Some (exDir []))) [])
           _ [5%nat; 7%nat; 3%nat]
           [(1, zeroAttrs); (2, zeroAttrs); (3, zeroAttrs)]);
    reflexivity.
Defined.

Lemma exec_keeps_inodes_witness :
  (length (inodes exOneDir) <= length (inodes exTwoDirs)
   <= S (length (inodes exOneDir)))%nat /\
  (forall id i, inodes exOneDir !! id = Some (Some i) ->
                exists i', inodes exTwoDirs !! id = Some (Some i')).
Proof.
  eapply (exec_keeps_inodes 64 (fun e => list_byte_of_string (dName e)) 2
            exOneDir exTwoDirs (CallMkDir (exMkDirOp 1 "a")) _ None).
  reflexivity.
Defined.

Lemma exec_unknown_inode_witness :
  exec 64 (fun e => list_byte_of_string (dName e)) 1 exNew (CallOpenDir 0)
    = Panic "Unknown inode" /\
  exec 64 (fun e => list_byte_of_string (dName e)) 1 exNew
       (CallReadFile (mkReadFileOp 5 0 4 []))
    = Panic "index out of range".
Proof.
  split.
  - apply (proj1 (exec_unknown_inode 64 _ 1 exNew (CallOpenDir 0) 0 eq_refl)).
    reflexivity.
  - apply (proj2 (exec_unknown_inode 64 _ 1 exNew
                    (CallReadFile (mkReadFileOp 5 0 4 [])) 5 eq_refl)).
    reflexivity.
Defined.

Lemma readOnly_same_state_witness :
  exists fs' c',
    exec 64 (fun e => list_byte_of_string (dName e)) 3 exTaco
         (CallReadFile (mkReadFileOp 2 0 4 [])) = Done (fs', c', None) /\
    fs' = exTaco.
Proof.
  eexists. eexists. split; [reflexivity |].
  eapply (readOnly_same_state 64 (fun e => list_byte_of_string (dName e)) 3
            exTaco _ (CallReadFile (mkReadFileOp 2 0 4 [])) _ None);
    reflexivity.
Defined.

Lemma exec_error_same_state_witness :
  exists fs' c',
    exec 64 (fun e => list_byte_of_string (dName e)) 3 exNested
         (CallRmDir (mkRmDirOp 1 "a")) = Done (fs', c', Some ENOTEMPTY) /\
    fs' = exNested /\ c' = CallRmDir (mkRmDirOp 1 "a") /\
    (ENOTEMPTY = ENOENT \/ ENOTEMPTY = EEXIST \/ ENOTEMPTY = ENOTEMPTY).
Proof.
  eexists. eexists. split; [reflexivity |].
  apply (exec_error_same_state 64 (fun e => list_byte_of_string (dName e)) 3
           exNested exNested (CallRmDir (mkRmDirOp 1 "a"))
           (CallRmDir (mkRmDirOp 1 "a")) ENOTEMPTY).
  reflexivity.
Defined.

Lemma served_fresh_ids_witness :
  exists op',
    MkDir 2 exOneDir (exMkDirOp 1 "a") = Done (exTwoDirs, op', None) /\
    Child (mdEntry op') = length (inodes exOneDir) /\
    length (inodes exTwoDirs) = S (length (inodes exOneDir)).
Proof.
  eexists. split; [reflexivity |].
  eapply (proj1 (proj2 (proj2
            (served_fresh_ids 1 64 (fun e => list_byte_of_string (dName e))
                              exOneDir 2 exOneDir_served)))
            (exMkDirOp 1 "a") exTwoDirs _ None).
  reflexivity.
Defined.

Lemma attributes_expiration_witness :
  exists op',
    MkDir 2 exOneDir (exMkDirOp 1 "a") = Done (exTwoDirs, op', None) /\
    AttributesExpiration (mdEntry op') = 2 + 365 * 24 * Hour /\
    EntryExpiration (mdEntry op') = EntryExpiration (mdEntry (exMkDirOp 1 "a")).
Proof.
  eexists. split; [reflexivity |].
  eapply (proj1 (proj2 (proj2 (attributes_expiration 2 exOneDir exTwoDirs)))
            (exMkDirOp 1 "a")).
  reflexivity.
Defined.

Lemma create_then_GetInodeAttributes_witness :
  exists op',
    CreateFile 1 exNew (exCreateFileOp "f") = Done (exCreated, op', None) /\
    GetInodeAttributes 9 exCreated
      (mkGetInodeAttributesOp (Child (cfEntry op')) zeroAttrs 0)
    = Done (exCreated,
            mkGetInodeAttributesOp (Child (cfEntry op'))
              (Attributes (cfEntry op')) (9 + cacheFor), None).
Proof.
  eexists. split; [reflexivity |].
  eapply (proj1 (proj2
            (create_then_GetInodeAttributes 1 9 exNew exCreated zeroAttrs 0))
            (exCreateFileOp "f")).
  reflexivity.
Defined.

Lemma SetInodeAttributes_then_Get_witness :
  exists op',
    SetInodeAttributes 2 exCreated
      (mkSetInodeAttributesOp 2 (Some 4%nat) None None zeroAttrs 0)
      = Done (exTruncated, op', None) /\
    None = (None : option error) /\
    GetInodeAttributes 9 exTruncated (mkGetInodeAttributesOp 2 zeroAttrs 0)
      = Done (exTruncated,
              mkGetInodeAttributesOp 2 (saAttributes op') (9 + cacheFor),
              None) /\
    (forall j, j ≠ 2%nat -> inodes exTruncated !! j = inodes exCreated !! j) /\
    length (inodes exTruncated) = length (inodes exCreated) /\
    freeInodes exTruncated = freeInodes exCreated.
Proof.
  eexists. split; [reflexivity |].
  eapply (SetInodeAttributes_then_Get 2 9 exCreated exTruncated
            (mkSetInodeAttributesOp 2 (Some 4%nat) None None zeroAttrs 0)
            _ None zeroAttrs 0).
  reflexivity.
Defined.

Lemma CreateSymlink_then_ReadSymlink_witness :
  exists fs' op',
    CreateSymlink 2 exNew (exCreateSymlinkOp "l") = Done (fs', op', None) /\
    ReadSymlink fs' (mkReadSymlinkOp (Child (csEntry op')) "")
      = Done (fs', mkReadSymlinkOp (Child (csEntry op')) "t", None).
Proof.
  eexists. eexists. split; [reflexivity |].
  eapply (CreateSymlink_then_ReadSymlink 2 exNew _ (exCreateSymlinkOp "l")
            _ None "").
  reflexivity.
Defined.

Lemma CreateFile_then_LookUp_witness :
  exists op',
    CreateFile 1 exNew (exCreateFileOp "f") = Done (exCreated, op', None) /\
    LookUpInode 9 exCreated (mkLookUpInodeOp 1 "f" zeroEntry)
      = Done (exCreated,
              mkLookUpInodeOp 1 "f"
                (mkEntry (Child (cfEntry op')) (Attributes (cfEntry op'))
                         (9 + cacheFor) zeroTime), None) /\
    CreateFile 9 exCreated (exCreateFileOp "f")
      = Done (exCreated, exCreateFileOp "f", Some EEXIST).
Proof.
  eexists. split; [reflexivity |].
  pose proof (CreateFile_then_LookUp 1 1 exNew exCreated (exCreateFileOp "f")
                _ exNew_Invariants eq_refl) as [Hlook Hagain].
  split.
  - apply (Hlook 9 zeroEntry).
  - apply (Hagain 9 (exCreateFileOp "f")); reflexivity.
Defined.

Lemma errors_exact_witness :
  (Some ENOTEMPTY = Some ENOENT <->
   LookUpChild (exRoot [mkDirent 2 "a" DT_Directory]) "a" = Done None) /\
  (Some ENOTEMPTY = Some ENOTEMPTY <->
   exists c child n,
     LookUpChild (exRoot [mkDirent 2 "a" DT_Directory]) "a" = Done (Some c) /\
     inodes exNested !! c = Some (Some child) /\
     Len child = Done n /\ n ≠ 0%nat).
Proof.
  apply (proj2 (proj2 (proj2
           (errors_exact 64 3 exNested exNested
                         (exRoot [mkDirent 2 "a" DT_Directory]))))
           (mkRmDirOp 1 "a") (mkRmDirOp 1 "a") (Some ENOTEMPTY));
    reflexivity.
Defined.

Lemma served_link_counts_witness :
  NoDup (allChildren (inodes exNested)) /\
  (forall c, c ∈ allChildren (inodes exNested) ->
             (1 < c)%nat /\ exists ch, inodes exNested !! c = Some (Some ch)) /\
  (forall c ch, inodes exNested !! c = Some (Some ch) ->
                Nlink (attrs ch)
                = if decide (c ∈ allChildren (inodes exNested)) then 1 else 0) /\
  (exists r, inodes exNested !! 1%nat = Some (Some r) /\ Nlink (attrs r) = 0).
Proof.
  apply (served_link_counts 1 64 (fun e => list_byte_of_string (dName e))
           exNested exNested_served).
Defined.

Lemma WriteFile_then_ReadFile_witness :
  exists fs',
    WriteFile 4 exTaco (mkWriteFileOp 2 6 (list_byte_of_string "taco"))
      = Done (fs', mkWriteFileOp 2 6 (list_byte_of_string "taco"), None) /\
    ReadFile 5 fs' (mkReadFileOp 2 6 (length (list_byte_of_string "taco")) [])
      = Done (fs',
              mkReadFileOp 2 6 (length (list_byte_of_string "taco"))
                           (list_byte_of_string "taco"), None).
Proof.
  apply (WriteFile_then_ReadFile 4 5 exTaco 2 6 (list_byte_of_string "taco")
           [] (exFile (list_byte_of_string "taco")));
    reflexivity.
Defined.

Lemma truncate_then_WriteFile_witness :
  exists fs1 op1 fs2 f2,
    SetInodeAttributes 2 exCreated
      (mkSetInodeAttributesOp 2 (Some 4%nat) None None zeroAttrs 0)
      = Done (fs1, op1, None) /\
    Size (saAttributes op1) = 4%nat /\
    WriteFile 3 fs1 (mkWriteFileOp 2 2 (list_byte_of_string "taco"))
      = Done (fs2, mkWriteFileOp 2 2 (list_byte_of_string "taco"), None) /\
    inodes fs2 !! 2%nat = Some (Some f2) /\
    contents f2 = replicate 2 zeroByte ++ list_byte_of_string "taco" ++
                  replicate (4 - (2 + length (list_byte_of_string "taco")))
                            zeroByte /\
    Size (attrs f2) = Nat.max 4 (2 + length (list_byte_of_string "taco")).
Proof.
  apply (truncate_then_WriteFile 2 3 exCreated 2 (exFile []) 4 2
           (list_byte_of_string "taco") None None zeroAttrs 0);
    reflexivity.
Defined.

Lemma root_always_opens_witness :
  OpenDir exOneDir 1 = Done (exOneDir, None) /\
  OpenFile exOneDir 1 = Panic "Found non-file." /\
  exists r,
    inodes exOneDir !! 1%nat = Some (Some r) /\ isDir r = true /\
    GetInodeAttributes 9 exOneDir (mkGetInodeAttributesOp 1 zeroAttrs 0)
    = Done (exOneDir, mkGetInodeAttributesOp 1 (attrs r) (9 + cacheFor),
            None).
Proof.
  apply (root_always_opens 1 64 (fun e => list_byte_of_string (dName e))
           exOneDir 9 zeroAttrs 0).
  apply served_reachable, exOneDir_served.
Defined.

Lemma unlinked_still_readable_witness :
  exists fs',
    Unlink 64 4 exTaco (mkUnlinkOp 1 "f")
      = Done (fs', mkUnlinkOp 1 "f", None) /\
    GetInodeAttributes 5 fs' (mkGetInodeAttributesOp 2 zeroAttrs 0)
      = Done (fs',
              mkGetInodeAttributesOp 2
                (withNlink (attrs (exFile (list_byte_of_string "taco"))) 0)
                (5 + cacheFor), None) /\
    (isFile (exFile (list_byte_of_string "taco")) = true ->
     forall off size buf,
       ReadFile 5 fs' (mkReadFileOp 2 off size buf)
         = Done (fs',
                 mkReadFileOp 2 off size
                   (take size (drop off
                      (contents (exFile (list_byte_of_string "taco"))))),
                 None)).
Proof.
  apply (unlinked_still_readable 1 64
           (fun e => list_byte_of_string (dName e)) exTaco 4 5 1 2 "f"
           (exRoot [mkDirent 2 "f" DT_File])
           (exFile (list_byte_of_string "taco")) zeroAttrs 0 exTaco_served);
    reflexivity.
Defined.

(** ** C8, on every table *)

(** C8 as stated fails: on the table with the vacant slots 2 and 3 and
    the free list 2, 2 the check returns without a panic, although slot 3
    is vacant and not on the list, and 2 is on it twice. *)
Lemma duplicate_free_list_passes :
  checkInvariants 1 (mkMemFS [None; Some (exRoot []); None; None]
                             [2%nat; 2%nat]) = Done tt /\
  inodes (mkMemFS [None; Some (exRoot []); None; None] [2%nat; 2%nat])
    !! 3%nat = Some None /\
  (3%nat ∉ freeInodes (mkMemFS [None; Some (exRoot []); None; None]
                               [2%nat; 2%nat])) /\
  ~ NoDup (freeInodes (mkMemFS [None; Some (exRoot []); None; None]
                               [2%nat; 2%nat])) /\
  ~ Invariants 1 (mkMemFS [None; Some (exRoot []); None; None]
                          [2%nat; 2%nat]).
Proof.
  assert (Hnotin : 3%nat ∉ [2%nat; 2%nat]).
  { rewrite !not_elem_of_cons. repeat split; try lia. apply not_elem_of_nil. }
  split; [vm_compute; reflexivity |]. split; [reflexivity |].
  split; [exact Hnotin |]. split.
  - simpl. intros Hnd. apply NoDup_cons in Hnd as [Hnd _].
    apply Hnd, list_elem_of_here.
  - intros Hinv. apply Hnotin. apply (inv_free 1 _ Hinv).
    split; [lia | reflexivity].
Qed.

(** A run with a double free: the check panics, and the invariants do
    not hold. *)
Lemma checkInvariants_exact_on_runs_witness :
  (checkInvariants 1 (mkMemFS [None; Some (exRoot []); None] [2%nat; 2%nat])
     = Done tt <->
   Invariants 1 (mkMemFS [None; Some (exRoot []); None] [2%nat; 2%nat])) /\
  ((exists msg,
      checkInvariants 1 (mkMemFS [None; Some (exRoot []); None] [2%nat; 2%nat])
      = Panic msg) <->
   ~ Invariants 1 (mkMemFS [None; Some (exRoot []); None] [2%nat; 2%nat])) /\
  checkInvariants 1 (mkMemFS [None; Some (exRoot []); None] [2%nat; 2%nat])
    = Panic "Length mismatch".
Proof.
  assert (Hrun : anyrun 1 64 (fun e => list_byte_of_string (dName e))
                   (mkMemFS [None; Some (exRoot []); None] [2%nat; 2%nat])).
  { apply (any_deallocate 1 64 _
             (mkMemFS [None; Some (exRoot []); None] [2%nat]) 2);
      [| reflexivity].
    apply (any_deallocate 1 64 _
             (mkMemFS [None; Some (exRoot []); Some (newInode 0 zeroAttrs)] [])
             2); [| reflexivity].
    apply (any_allocate 1 64 _ (NewMemFS 1 0 0 0) 0 zeroAttrs 2
             (newInode 0 zeroAttrs)); [| reflexivity].
    apply any_new. }
  pose proof (checkInvariants_exact_on_runs 1 64 _ _ Hrun)
    as (Hiff & Hpanic & _).
  split; [exact Hiff |]. split; [exact Hpanic | reflexivity].
Defined.
